(** * Buffer orchestration of the DALI backend executor

    A shallow embedding of [src/dali_executor/io_buffer.h] (the staging
    buffer [IOBuffer]), of the member functions of [DaliExecutor] that
    follow it in the same source file ([SetupInputs], [ScheduleInputCopy],
    [RunInputCopy], [IsNoCopy], [Run], [PutOutputs]) and of the inline
    part of [src/dali_executor/dali_pipeline.h] (the pipeline wrapper
    [DaliPipeline]), followed by the properties the specification states
    about them.

    Conventions.
    - [size_t] values are integers in [0, 2^64); every [size_t] addition
      and multiplication of the source is followed by [wrap].
    - A C++ function that can throw or abort is a computation in the monad
      [M S A := S -> result A * S]: the state reached so far survives a
      failure, exactly as the members of a C++ object do.
    - [assert] is modelled as compiled in (no [NDEBUG]): a false condition
      ends the computation with [assertion_failure].  [ENFORCE] ends it
      with [enforce_failure].
    - What the program cannot decide is a parameter: the DALI library
      behind the pipeline handle ([DaliApi]) and the allocators and the
      copy engine of the machine ([Machine]), either of which can make a
      call fail, and the choices of the worker threads ([Scheduler]). *)

From Stdlib Require Import ZArith List Lia Permutation.
From stdpp Require Import base gmap strings list.

Local Open Scope Z_scope.

(** ** Machine integers *)

Definition SIZE_WIDTH : Z := 64.
Definition SIZE_MODULUS : Z := 2 ^ SIZE_WIDTH.

(** Reduction of a mathematical integer to a [size_t]. *)
Definition wrap (z : Z) : Z := z mod SIZE_MODULUS.

Definition is_size_t (z : Z) : Prop := 0 <= z < SIZE_MODULUS.

Arguments wrap : simpl never.

(** ** Failures and the state-and-failure monad *)

Inductive failure : Type :=
| assertion_failure                 (* a false [assert]                      *)
| enforce_failure                   (* a false [ENFORCE]                     *)
| runtime_error (what : string)     (* [std::runtime_error] or a class
                                       derived from it                       *)
| length_error                      (* [std::length_error]                   *)
| bad_alloc                         (* [std::bad_alloc]                      *)
| exception (what : string).        (* an exception of any other class that
                                       is not a [std::runtime_error]         *)

Inductive result (A : Type) : Type :=
| Ok (a : A)
| Err (e : failure).
Arguments Ok {A} a.
Arguments Err {A} e.

Definition M (S A : Type) : Type := S -> result A * S.

Definition ret {S A} (a : A) : M S A := fun s => (Ok a, s).

Definition bind {S A B} (c : M S A) (k : A -> M S B) : M S B :=
  fun s => match c s with
           | (Ok a, s') => k a s'
           | (Err e, s') => (Err e, s')
           end.

Definition throw {S A} (e : failure) : M S A := fun s => (Err e, s).

Definition get {S} : M S S := fun s => (Ok s, s).

Definition modify {S} (f : S -> S) : M S unit := fun s => (Ok tt, f s).

Notation "'do' x <- c 'in' k" := (bind c (fun x => k))
  (at level 10, x name, c at level 100, k at level 200,
   format "'[v' 'do'  x  <-  c  'in' '/' k ']'").
Notation "'run' c 'in' k" := (bind c (fun _ => k))
  (at level 10, c at level 100, k at level 200,
   format "'[v' 'run'  c  'in' '/' k ']'").

(** [assert(cond)] of <cassert>. *)
Definition assert {S} (cond : bool) : M S unit :=
  if cond then ret tt else throw assertion_failure.

(** [ENFORCE(cond, message)] of the backend's error handling. *)
Definition ENFORCE {S} (cond : bool) : M S unit :=
  if cond then ret tt else throw enforce_failure.

(** [try { body } catch (std::runtime_error& e) { handler; throw e; }]:
    only [std::runtime_error] is caught, every other failure of the body
    passes through; the handler runs on the state the body left behind
    and the same error is thrown again, unless the handler fails
    itself. *)
Definition try_catch_rethrow {S A} (body : M S A) (handler : M S unit) : M S A :=
  fun s => match body s with
           | (Err (runtime_error what), s') =>
               match handler s' with
               | (Ok _, s'') => (Err (runtime_error what), s'')
               | (Err e', s'') => (Err e', s'')
               end
           | r => r
           end.

(** ** Memory *)

(** Modelled from the spec: [device_type_t] comes from the DALI headers;
    "DeviceKind: enumeration {Host, Accelerator}". *)
Inductive device_type_t : Type := CPU | GPU.

Global Instance device_type_eq_dec : EqDecision device_type_t.
Proof. solve_decision. Defined.

(** A block is either memory owned by the caller of the executor or the
    storage of one pooled staging buffer (named by its pool and key). *)
Inductive block : Type :=
| Caller (id : Z)
| Pooled (dev : device_type_t) (key : string).

Global Instance block_eq_dec : EqDecision block.
Proof. solve_decision. Defined.

(** An address: a block and a byte offset into it. *)
Record ptr : Type := mkPtr { blk : block; off : Z }.

(** [p + n] on a [char*]. *)
Definition ptr_add (p : ptr) (n : Z) : ptr := mkPtr (blk p) (off p + n).

(** The bytes of every block. *)
Definition mem : Type := block -> Z -> Byte.byte.

Definition load (m : mem) (p : ptr) : Byte.byte := m (blk p) (off p).

(** The [n] bytes found at [p]. *)
Definition read (m : mem) (p : ptr) (n : Z) : list Byte.byte :=
  map (fun i => load m (ptr_add p (Z.of_nat i))) (seq 0 (Z.to_nat n)).

(** ** Descriptors

    io_descriptor.h and the DALI headers are not among the sources: the
    types below have the fields the source reads, as the data model of the
    specification lists them. *)

(** Modelled from the spec: [dali_data_type_t], the "element type" of a
    tensor; an enumeration code. *)
Definition dali_data_type_t : Type := Z.

(** Modelled from the spec: [TensorListShape<>], the "shape (ordered
    sequence of per-sample extents)". *)
Definition TensorListShape : Type := list (list Z).

(** Modelled from the spec: [num_samples()], the "batch size (sample
    count)". *)
Definition num_samples (s : TensorListShape) : Z := Z.of_nat (length s).

(** The number of elements of one sample. *)
Definition volume (extents : list Z) : Z := fold_right Z.mul 1 extents.

(** Modelled from the spec: [num_elements()], the number of elements of
    all samples together. *)
Definition num_elements (s : TensorListShape) : Z :=
  fold_right Z.add 0 (map volume s).

(** Modelled from the spec: [IOMeta], "TensorMeta: name, shape, element
    type". *)
Record IOMeta : Type := mkMeta {
  name : string;
  type : dali_data_type_t;
  shape : TensorListShape
}.

(** Modelled from the spec: [IBufferDescr] / [OBufferDescr],
    "BufferDescriptor: raw pointer, byte length, DeviceKind, device
    index"; the fields [GetDescr] fills. *)
Record BufferDescr : Type := mkDescr {
  data : ptr;
  size : Z;
  device : device_type_t;
  device_id : Z
}.

(** Modelled from the spec: [IDescr] / [ODescr], "IODescriptor:
    TensorMeta, ordered sequence of BufferDescriptor fragments". *)
Record IODescr : Type := mkIODescr {
  meta : IOMeta;
  buffers : list BufferDescr
}.

(** ** The machine *)

(** The arguments of a [MemCopy] call: what the closure handed to
    [AddWork] captures. *)
Record CopyTask : Type := mkTask {
  dst_dev : device_type_t;
  dst : ptr;
  src_dev : device_type_t;
  src : ptr;
  nbytes : Z
}.

Definition PTRDIFF_MAX : Z := 2 ^ 63 - 1.

(** Whether storage can be had and what becomes of a copy through the
    accelerator is decided by the machine the program runs on.  The
    development is parametric in it. *)
Class Machine : Type := {
  (* [std::vector<uint8_t>::max_size()] *)
  max_size : Z;
  max_size_le : max_size <= PTRDIFF_MAX;
  (* the exception with which the allocation of [n] bytes for a buffer on
     [dev] ends, when the storage cannot be had *)
  out_of_memory : device_type_t -> Z -> option failure;
  (* the exception with which a copy that involves the accelerator ends,
     when the device context is invalid or the copy cannot be issued *)
  copy_error : CopyTask -> option failure;
  (* is a copy that involves the accelerator complete when the call that
     issued it returns? *)
  completes_at_once : CopyTask -> bool
}.

(** The exception with which [buffer_.resize(n)] ends when the buffer is to
    grow to [n] bytes and cannot: a [std::vector] throws
    [std::length_error] beyond [max_size()]; otherwise the allocation
    decides. *)
Definition refused {machine : Machine} (dev : device_type_t) (n : Z) : option failure :=
  if bool_decide (dev = CPU) && (max_size <? n) then Some length_error
  else out_of_memory dev n.

(** ** The staging buffer (io_buffer.h) *)

Module IOBuffer.

(** The data members of [IOBuffer<Dev>].  [buffer_] is a
    [std::vector<uint8_t>] (host) or a [DeviceBuffer<uint8_t>]
    (accelerator); the model keeps its element count [buffer_.size()]. *)
Record t (Dev : device_type_t) : Type := mk {
  buffer_size : Z;
  filled_ : Z;
  device_id_ : Z
}.
Arguments mk {Dev} _ _ _.
Arguments buffer_size {Dev} _.
Arguments filled_ {Dev} _.
Arguments device_id_ {Dev} _.

Section Members.
Context {machine : Machine} {Dev : device_type_t}.

(** The block in which [buffer_] keeps its bytes: [buffer_.data()] is its
    first byte.  A buffer keeps its block for life: [buffer_.resize] may
    move the bytes, but [Reserve] only grows a buffer in which nothing is
    claimed, when no pointer into the old bytes is in use. *)
Variable storage : block.

(** [filled_ = f] *)
Definition set_filled (f : Z) (b : t Dev) : t Dev :=
  {| buffer_size := buffer_size b; filled_ := f; device_id_ := device_id_ b |}.

(** [buffer_.size()] becomes [n]. *)
Definition set_size (n : Z) (b : t Dev) : t Dev :=
  {| buffer_size := n; filled_ := filled_ b; device_id_ := device_id_ b |}.

(** [device_id_ = id] *)
Definition set_device_id (id : Z) (b : t Dev) : t Dev :=
  {| buffer_size := buffer_size b; filled_ := filled_ b; device_id_ := id |}.

(** [buffer_.resize(n)]: a buffer that is to grow needs storage, and the
    call throws, leaving the buffer as it is, when the storage is
    refused. *)
Definition buffer_resize (n : Z) : M (t Dev) unit :=
  do b <- get in
  if buffer_size b <? n then
    match refused Dev n with
    | Some e => throw e
    | None => modify (set_size n)
    end
  else modify (set_size n).

(** [IOBuffer(size_t size = 0)], from the default member initialisers on;
    [current_device] is what [cudaGetDevice] reports.  Failures of the
    CUDA runtime in [cudaGetDevice] are not modelled. *)
Definition create (current_device : Z) (size : Z) : result unit * t Dev :=
  (run buffer_resize size in
   modify (fun b => set_device_id
                      (if bool_decide (Dev = GPU) then current_device else device_id_ b) b))
    {| buffer_size := 0; filled_ := 0; device_id_ := 0 |}.

(** [size_t Capacity() const] *)
Definition Capacity (b : t Dev) : Z := buffer_size b.

(** [device_type_t DeviceType() const] *)
Definition DeviceType (b : t Dev) : device_type_t := Dev.

(** [uint8_t *Allocate(size_t size)] *)
Definition Allocate (size : Z) : M (t Dev) ptr :=
  do b <- get in
  run ENFORCE (wrap (filled_ b + size) <=? buffer_size b) in
  let origin := mkPtr storage (filled_ b) in
  run modify (set_filled (wrap (filled_ b + size))) in
  ret origin.

(** [void Clear()] *)
Definition Clear : M (t Dev) unit := modify (set_filled 0).

(** [void Reserve(size_t size)] *)
Definition Reserve (size : Z) : M (t Dev) unit :=
  do b <- get in
  if buffer_size b <? size then
    run ENFORCE (filled_ b =? 0) in
    buffer_resize size
  else ret tt.

(** [GetDescr()], the same fields for the const and the mutable view. *)
Definition GetDescr (b : t Dev) : BufferDescr :=
  {| data := mkPtr storage 0;
     size := filled_ b;
     device := Dev;
     device_id := device_id_ b |}.

(** Modelled from the spec: [IOBufferI::resize], which
    [DaliExecutor::ScheduleInputCopy] and [DaliExecutor::PutOutputs] call,
    is not declared in io_buffer.h.  The specification has the staging
    buffer "obtained/grown ... sized for the sum of fragment lengths", with
    "capacity unchanged, only filled resets between calls" on reuse: the
    previous claims are cancelled, the capacity is raised if it is short
    and [size] bytes are claimed. *)
Definition resize (size : Z) : M (t Dev) unit :=
  run Clear in
  run Reserve size in
  do _ <- Allocate size in
  ret tt.

(** Modelled from the spec: [IOBufferI::get_descr], the name under which
    the executor asks for the descriptor ("exposes pointer, filled length,
    DeviceKind, device index"); it is [GetDescr]. *)
Definition get_descr : M (t Dev) BufferDescr :=
  do b <- get in ret (GetDescr b).

(** The representation invariant: [filled_] and [buffer_.size()] are
    [size_t] values and the claimed bytes lie within the storage. *)
Definition wf (b : t Dev) : Prop :=
  0 <= filled_ b <= buffer_size b /\ buffer_size b < SIZE_MODULUS.

End Members.
End IOBuffer.

(** ** The device copy primitive *)

(** Is byte [o] of block [b] among the [n] bytes at [p]? *)
Definition in_range (p : ptr) (n : Z) (b : block) (o : Z) : bool :=
  bool_decide (b = blk p) && (off p <=? o) && (o <? off p + n).

(** The memory once the copy [t] is complete. *)
Definition copied (t : CopyTask) (m : mem) : mem :=
  fun b o =>
    if in_range (dst t) (nbytes t) b o
    then m (blk (src t)) (off (src t) + (o - off (dst t)))
    else m b o.

(** Tasks completed one after the other. *)
Definition complete_all (ts : list CopyTask) (m : mem) : mem :=
  fold_left (fun m t => copied t m) ts m.

(** A copy from host memory to host memory. *)
Definition host_to_host (t : CopyTask) : bool :=
  bool_decide (dst_dev t = CPU) && bool_decide (src_dev t = CPU).

(** Modelled from the spec: [MemCopy] is declared in io_buffer.h and
    defined elsewhere.  "Host to Host is a plain memory copy; any
    combination involving Accelerator is dispatched through an
    asynchronous copy on a supplied stream (default stream when
    unspecified).  For Accelerator-involving copies, the copy is enqueued
    but not necessarily complete on return.  An invalid device context or
    copy error is fatal to the enclosing operation (propagated)."  The
    executor never names a stream: the state is the memory together with
    the copies issued on the default stream that are not known to be
    complete, in the order of issue.  A stream works in order: when a
    copy is complete, so are those issued before it. *)
Definition MemCopy {machine : Machine} (t : CopyTask) : M (mem * list CopyTask) unit :=
  fun s =>
    if host_to_host t then (Ok tt, (copied t (fst s), snd s))
    else match copy_error t with
         | Some e => (Err e, s)
         | None =>
             if completes_at_once t
             then (Ok tt, (complete_all (snd s ++ [t]) (fst s), []))
             else (Ok tt, (fst s, snd s ++ [t]))
         end.

(** Writing [bytes] at [p]. *)
Definition write (p : ptr) (bytes : list Byte.byte) (m : mem) : mem :=
  fun b o =>
    if in_range p (Z.of_nat (length bytes)) b o
    then nth (Z.to_nat (o - off p)) bytes Byte.x00
    else m b o.

(** ** The parallel copy scheduler *)

(** Modelled from the spec: the thread pool class of [thread_pool_] is
    not among the sources.  "Accepts copy tasks, each annotated with an
    estimated byte size and an immediate vs. deferred flag.  RunAll
    executes all currently queued tasks and blocks until every task
    completes, then clears the queue.  A copy failure is fatal to the
    enclosing invocation (propagated synchronously once RunAll
    unwinds)."  Tasks carry no relative order: the workers' choices are
    a [Scheduler]. *)
Record Work : Type := mkWork { work : CopyTask; priority : Z }.

Record Scheduler : Type := mkScheduler {
  (* does a worker take up an immediate task before AddWork returns? *)
  starts_early : CopyTask -> bool;
  (* the order in which the workers complete a queue *)
  completion_order : list CopyTask -> list CopyTask
}.

(** The workers complete every queued task, once. *)
Definition fair (s : Scheduler) : Prop :=
  forall q, Permutation q (completion_order s q).

(** The state of the thread pool: the work not yet taken up, and the
    failures of the tasks that were run, kept for [RunAll] to propagate. *)
Record ThreadPool : Type := mkPool {
  work_queue_ : list Work;
  errors_ : list failure
}.

(** ** Observable calls *)

(** The calls the executor makes on its pipeline and on its thread pool,
    and the copies the workers run. *)
Inductive event : Type :=
| EvSetInput (d : IODescr)
| EvRun
| EvOutput
| EvReset
| EvPutOutput (destination : ptr) (output_idx : Z) (destination_device : device_type_t)
| EvSyncOutputStream
| EvAddWork (t : CopyTask) (size : Z) (start_immediately : bool)
| EvMemCopy (t : CopyTask)
| EvRunAll.

(** Modelled from the spec: [OutputInfo], "shape, element type, device
    reported by the pipeline after execution". *)
Record OutputInfo : Type := mkOutputInfo {
  out_shape : TensorListShape;
  out_type : dali_data_type_t;
  out_device : device_type_t
}.

(** ** The DALI C API *)

(** The library behind [daliPipelineHandle] is an external collaborator:
    the development is parametric in its behaviour.  [H] is the state
    behind a handle, with whatever of the library's own state the calls
    on that handle depend on.  A call that can fail returns [Some e] when
    it throws: the library reports its own errors as
    [std::runtime_error], but nothing keeps a call from ending with an
    exception of another class.  [daliCreatePipeline] is given the handle
    it is to fill and fills it, or throws; what it does may depend on what
    the handle has been through, so that a pipeline need not come out
    twice the same way, nor come out at all a second time. *)
Class DaliApi (H : Type) : Type := {
  dali_type_size : dali_data_type_t -> Z;
  null_handle : H;
  (* [handle.pipe && handle.ws] *)
  handle_set : H -> bool;
  daliCreatePipeline : H -> string -> Z -> Z -> Z -> result H;
  daliDeletePipeline : H -> H;
  daliOutputRelease : H -> option failure * H;
  daliRun : H -> option failure * H;
  daliOutput : H -> option failure * H;
  daliSetExternalInput :
    IOMeta -> device_type_t -> list Byte.byte -> H -> option failure * H;
  daliGetNumOutput : H -> Z;
  daliTypeAt : H -> Z -> dali_data_type_t;
  daliGetOutputDevice : H -> Z -> device_type_t;
  daliShapeAt : H -> Z -> TensorListShape;
  (* the bytes [daliOutputCopy] produces for an output *)
  daliOutputBytes : H -> Z -> list Byte.byte
}.

(** ** The pipeline wrapper (dali_pipeline.h) *)

Module DaliPipeline.
Section WithApi.
Context {H : Type} {api : DaliApi H}.

(** The members of [DaliPipeline].  [output_stream_] is the list of the
    output writes issued on the stream and not yet synchronised. *)
Record t : Type := mk {
  serialized_pipeline_ : string;
  max_batch_size_ : Z;
  num_threads_ : Z;
  device_id_ : Z;
  handle_ : H;
  output_stream_ : list (ptr * list Byte.byte)
}.

Definition set_handle (h : H) (p : t) : t :=
  {| serialized_pipeline_ := serialized_pipeline_ p;
     max_batch_size_ := max_batch_size_ p;
     num_threads_ := num_threads_ p;
     device_id_ := device_id_ p;
     handle_ := h;
     output_stream_ := output_stream_ p |}.

Definition set_stream (s : list (ptr * list Byte.byte)) (p : t) : t :=
  {| serialized_pipeline_ := serialized_pipeline_ p;
     max_batch_size_ := max_batch_size_ p;
     num_threads_ := num_threads_ p;
     device_id_ := device_id_ p;
     handle_ := handle_ p;
     output_stream_ := s |}.

(** A call into the library on [handle_]. *)
Definition on_handle (c : H -> option failure * H) : M t unit :=
  fun p => match c (handle_ p) with
           | (None, h) => (Ok tt, set_handle h p)
           | (Some e, h) => (Err e, set_handle h p)
           end.

(** [void CreatePipeline()] *)
Definition CreatePipeline : M t unit :=
  do p <- get in
  match daliCreatePipeline (handle_ p) (serialized_pipeline_ p)
          (max_batch_size_ p) (num_threads_ p) (device_id_ p) with
  | Err e => throw e
  | Ok h =>
      run modify (set_handle h) in
      do p' <- get in
      assert (handle_set (handle_ p'))
  end.

(** [void ReleasePipeline()] *)
Definition ReleasePipeline : M t unit :=
  do p <- get in
  if handle_set (handle_ p)
  then modify (set_handle (daliDeletePipeline (handle_ p)))
  else ret tt.

(** The constructor [DaliPipeline(serialized_pipeline, max_batch_size,
    num_threads, device_id)]: [InitStream] leaves an empty stream,
    [CreatePipeline] fills the handle. *)
Definition create (serialized_pipeline : string)
    (max_batch_size num_threads device_id : Z) : result unit * t :=
  CreatePipeline {| serialized_pipeline_ := serialized_pipeline;
                    max_batch_size_ := max_batch_size;
                    num_threads_ := num_threads;
                    device_id_ := device_id;
                    handle_ := null_handle;
                    output_stream_ := [] |}.

(** [void Run()] *)
Definition Run : M t unit :=
  run on_handle daliOutputRelease in
  on_handle daliRun.

(** [void Output()] *)
Definition Output : M t unit := on_handle daliOutput.

(** [int GetNumOutput()] *)
Definition GetNumOutput (p : t) : Z := daliGetNumOutput (handle_ p).

(** [dali_data_type_t GetOutputType(int output_idx)] *)
Definition GetOutputType (p : t) (output_idx : Z) : dali_data_type_t :=
  daliTypeAt (handle_ p) output_idx.

(** [device_type_t GetOutputDevice(int output_idx)] *)
Definition GetOutputDevice (p : t) (output_idx : Z) : device_type_t :=
  daliGetOutputDevice (handle_ p) output_idx.

(** [void Reset()] *)
Definition Reset : M t unit :=
  run ReleasePipeline in
  CreatePipeline.

(** [int DeviceId()] *)
Definition DeviceId (p : t) : Z := device_id_ p.

(** Modelled from the spec: [GetOutputShapes] is declared in
    dali_pipeline.h and defined elsewhere; "output metadata", the shape of
    every output in index order. *)
Definition GetOutputShapes (p : t) : list TensorListShape :=
  map (fun i => daliShapeAt (handle_ p) (Z.of_nat i))
      (seq 0 (Z.to_nat (GetNumOutput p))).

(** The byte size of the tensor a descriptor stands for:
    [meta.shape.num_elements() * dali_type_size(meta.type)] in [size_t]. *)
Definition tensor_bytes (d : IODescr) : Z :=
  wrap (num_elements (shape (meta d)) * dali_type_size (type (meta d))).

(** Modelled from the spec: [SetInput(const IDescr&)] is declared in
    dali_pipeline.h and defined elsewhere; "registers one tensor's data
    for the next run".  The tensor is read through the single fragment of
    the descriptor, out of the memory [m]. *)
Definition SetInput (m : mem) (io_descr : IODescr) : M t unit :=
  match buffers io_descr with
  | [buffer] =>
      on_handle (daliSetExternalInput (meta io_descr) (device buffer)
                   (read m (data buffer) (tensor_bytes io_descr)))
  | _ => throw assertion_failure
  end.

(** Modelled from the spec: [PutOutput] is declared in dali_pipeline.h and
    defined elsewhere; "writes one output into caller-supplied memory", on
    the pipeline's stream: the write is visible after
    [SyncOutputStream]. *)
Definition PutOutput (destination : ptr) (output_idx : Z)
    (destination_device : device_type_t) : M t unit :=
  do p <- get in
  modify (set_stream (output_stream_ p ++
                        [(destination, daliOutputBytes (handle_ p) output_idx)])).

(** Modelled from the spec: [SyncOutputStream] is declared in
    dali_pipeline.h and defined elsewhere; "blocks until all output writes
    on the pipeline's stream are visible". *)
Definition SyncOutputStream (p : t) (m : mem) : t * mem :=
  (set_stream [] p,
   fold_left (fun m w => write (fst w) (snd w) m) (output_stream_ p) m).

End WithApi.
Arguments t H : clear implicits.
End DaliPipeline.

(** ** The executor (dali_executor.cc) *)

Module DaliExecutor.
Section WithApi.
Context {H : Type} {api : DaliApi H} {machine : Machine}.

(** Modelled from the spec: the class declaration (dali_executor.h) is
    not among the sources.  The members are those the member functions
    use: the pipeline, the thread pool and the two buffer pools, each a
    "mapping from (tensor name + direction suffix) to Staging Buffer". *)
Record t : Type := mk {
  pipeline_ : DaliPipeline.t H;
  thread_pool_ : ThreadPool;
  cpu_buffers_ : gmap string (IOBuffer.t CPU);
  gpu_buffers_ : gmap string (IOBuffer.t GPU)
}.

(** The executor together with what surrounds it: the memory, the copies
    issued on the default stream that are not known to be complete, the
    workers' scheduling choices, the device [cudaGetDevice] reports, and
    the calls made so far. *)
Record World : Type := mkWorld {
  self : t;
  memory : mem;
  default_stream : list CopyTask;
  scheduler : Scheduler;
  current_device : Z;
  trace : list event
}.

(** Updates of one component. *)

Definition set_self (e : t) (w : World) : World :=
  {| self := e; memory := memory w; default_stream := default_stream w;
     scheduler := scheduler w;
     current_device := current_device w; trace := trace w |}.

Definition set_memory (m : mem) (w : World) : World :=
  {| self := self w; memory := m; default_stream := default_stream w;
     scheduler := scheduler w;
     current_device := current_device w; trace := trace w |}.

Definition set_default_stream (s : list CopyTask) (w : World) : World :=
  {| self := self w; memory := memory w; default_stream := s;
     scheduler := scheduler w;
     current_device := current_device w; trace := trace w |}.

Definition set_trace (tr : list event) (w : World) : World :=
  {| self := self w; memory := memory w; default_stream := default_stream w;
     scheduler := scheduler w;
     current_device := current_device w; trace := tr |}.

Definition set_pipeline (p : DaliPipeline.t H) (e : t) : t :=
  {| pipeline_ := p; thread_pool_ := thread_pool_ e;
     cpu_buffers_ := cpu_buffers_ e; gpu_buffers_ := gpu_buffers_ e |}.

Definition set_queue (q : list Work) (e : t) : t :=
  {| pipeline_ := pipeline_ e;
     thread_pool_ := mkPool q (errors_ (thread_pool_ e));
     cpu_buffers_ := cpu_buffers_ e; gpu_buffers_ := gpu_buffers_ e |}.

Definition set_errors (errs : list failure) (e : t) : t :=
  {| pipeline_ := pipeline_ e;
     thread_pool_ := mkPool (work_queue_ (thread_pool_ e)) errs;
     cpu_buffers_ := cpu_buffers_ e; gpu_buffers_ := gpu_buffers_ e |}.

(** [cpu_buffers_] or [gpu_buffers_]. *)
Definition buffers_of (dev : device_type_t) (e : t) : gmap string (IOBuffer.t dev) :=
  match dev with CPU => cpu_buffers_ e | GPU => gpu_buffers_ e end.

Definition set_buffers (dev : device_type_t) : gmap string (IOBuffer.t dev) -> t -> t :=
  match dev with
  | CPU => fun m e =>
      {| pipeline_ := pipeline_ e; thread_pool_ := thread_pool_ e;
         cpu_buffers_ := m; gpu_buffers_ := gpu_buffers_ e |}
  | GPU => fun m e =>
      {| pipeline_ := pipeline_ e; thread_pool_ := thread_pool_ e;
         cpu_buffers_ := cpu_buffers_ e; gpu_buffers_ := m |}
  end.

(** The work queued in [thread_pool_]. *)
Definition queue (w : World) : list Work := work_queue_ (thread_pool_ (self w)).

(** The failures [thread_pool_] holds. *)
Definition errors (w : World) : list failure := errors_ (thread_pool_ (self w)).

(** Putting a call on record. *)
Definition emit (e : event) : M World unit :=
  modify (fun w => set_trace (trace w ++ [e]) w).

(** A call of a member of [pipeline_]. *)
Definition on_pipeline {A} (c : M (DaliPipeline.t H) A) : M World A :=
  fun w => let (r, p) := c (pipeline_ (self w)) in
           (r, set_self (set_pipeline p (self w)) w).

(** [cpu_buffers_[key]] / [gpu_buffers_[key]]: the entry, default
    constructed when the key is new. *)
Definition buffer_at (dev : device_type_t) (key : string) (w : World) : IOBuffer.t dev :=
  default (snd (IOBuffer.create (current_device w) 0)) (buffers_of dev (self w) !! key).

(** A call of a member of the pooled buffer [buffers[key]], whose bytes
    are the block [Pooled dev key]. *)
Definition on_buffer {A} (dev : device_type_t) (key : string)
    (c : block -> M (IOBuffer.t dev) A) : M World A :=
  fun w => let (r, b) := c (Pooled dev key) (buffer_at dev key w) in
           (r, set_self (set_buffers dev (<[key := b]> (buffers_of dev (self w)))
                           (self w)) w).

(** *** thread_pool_ *)

(** A worker runs the closure of a task, its [MemCopy]; when that throws,
    the failure is kept. *)
Definition perform (t : CopyTask) : M World unit :=
  run emit (EvMemCopy t) in
  modify (fun w =>
    match MemCopy t (memory w, default_stream w) with
    | (Ok _, s) => set_default_stream (snd s) (set_memory (fst s) w)
    | (Err e, s) =>
        set_self (set_errors (errors w ++ [e]) (self w))
          (set_default_stream (snd s) (set_memory (fst s) w))
    end).

(** The workers run the tasks [ts], completing them in this order. *)
Fixpoint perform_all (ts : list CopyTask) : M World unit :=
  match ts with
  | [] => ret tt
  | t :: rest => run perform t in perform_all rest
  end.

(** Modelled from the spec: [thread_pool_.AddWork(task, size,
    start_immediately)].  A deferred task "is queued but not run
    immediately"; an immediate one may be taken up by a worker at once,
    and is queued otherwise. *)
Definition AddWork (t : CopyTask) (size : Z) (start_immediately : bool) : M World unit :=
  run emit (EvAddWork t size start_immediately) in
  do w <- get in
  if start_immediately && starts_early (scheduler w) t
  then perform t
  else modify (fun w => set_self (set_queue (queue w ++ [mkWork t size]) (self w)) w).

(** Modelled from the spec: [thread_pool_.RunAll()] "executes all
    currently queued tasks across the worker pool and blocks until every
    task completes, then clears the queue"; "a copy failure is fatal to the
    enclosing invocation (propagated synchronously once RunAll
    unwinds)": the first failure on record is thrown, and the record is
    cleared with the queue. *)
Definition RunAll : M World unit :=
  run emit EvRunAll in
  do w <- get in
  run perform_all (completion_order (scheduler w) (map work (queue w))) in
  do w' <- get in
  run modify (fun w => set_self (set_errors [] (set_queue [] (self w))) w) in
  match errors w' with
  | [] => ret tt
  | e :: _ => throw e
  end.

(** *** pipeline_

    The calls of members of [pipeline_], each put on record. *)

Definition pipeline_SetInput (inp : IODescr) : M World unit :=
  run emit (EvSetInput inp) in
  do w <- get in
  on_pipeline (DaliPipeline.SetInput (memory w) inp).

Definition pipeline_Run : M World unit :=
  run emit EvRun in on_pipeline DaliPipeline.Run.

Definition pipeline_Output : M World unit :=
  run emit EvOutput in on_pipeline DaliPipeline.Output.

Definition pipeline_Reset : M World unit :=
  run emit EvReset in on_pipeline DaliPipeline.Reset.

Definition pipeline_PutOutput (destination : ptr) (output_idx : Z)
    (destination_device : device_type_t) : M World unit :=
  run emit (EvPutOutput destination output_idx destination_device) in
  on_pipeline (DaliPipeline.PutOutput destination output_idx destination_device).

Definition pipeline_SyncOutputStream : M World unit :=
  run emit EvSyncOutputStream in
  modify (fun w =>
    let (p, m) := DaliPipeline.SyncOutputStream (pipeline_ (self w)) (memory w) in
    set_memory m (set_self (set_pipeline p (self w)) w)).

(** *** Member functions *)

(** [bool DaliExecutor::IsNoCopy(const IDescr& input)] *)
Definition IsNoCopy (w : World) (input : IODescr) : bool :=
  match buffers input with
  | [b] => bool_decide (device b = CPU)
           || (device_id b =? DaliPipeline.DeviceId (pipeline_ (self w)))
  | _ => false
  end.

(** [for (auto& buf : input.buffers) size += buf.size;] *)
Definition total_size (bufs : list BufferDescr) : Z :=
  fold_left (fun acc buf => wrap (acc + size buf)) bufs 0.

(** The loop of [ScheduleInputCopy] that hands one copy per fragment to the
    thread pool, [dst] advancing by the fragment sizes. *)
Fixpoint schedule_fragments (descriptor : BufferDescr) (dst : ptr)
    (bufs : list BufferDescr) : M World unit :=
  match bufs with
  | [] => ret tt
  | buf :: rest =>
      run AddWork (mkTask (device descriptor) dst (device buf) (data buf) (size buf))
                  (size buf) true in
      schedule_fragments descriptor (ptr_add dst (size buf)) rest
  end.

(** [IDescr DaliExecutor::ScheduleInputCopy(const IDescr& input)] *)
Definition ScheduleInputCopy (input : IODescr) : M World IODescr :=
  match buffers input with
  | [] => throw assertion_failure
  | first :: _ =>
      let dev := if bool_decide (device first = CPU) then CPU else GPU in
      let key := name (meta input) +:+ "_inp" in
      let size := total_size (buffers input) in
      run on_buffer dev key (fun storage => IOBuffer.resize storage size) in
      do descriptor <- on_buffer dev key IOBuffer.get_descr in
      run schedule_fragments descriptor (data descriptor) (buffers input) in
      ret (mkIODescr (meta input) [descriptor])
  end.

(** [void DaliExecutor::RunInputCopy()] *)
Definition RunInputCopy : M World unit := RunAll.

(** The loop of [SetupInputs] that checks every further input against the
    batch size of the first. *)
Fixpoint check_batch_sizes (batch_size : Z) (rest : list IODescr) : M World unit :=
  match rest with
  | [] => ret tt
  | inp :: rest' =>
      run assert (num_samples (shape (meta inp)) =? batch_size) in
      check_batch_sizes batch_size rest'
  end.

(** [buffers[0].size], absent when there is no fragment. *)
Definition first_size (d : IODescr) : option Z :=
  match buffers d with
  | [] => None
  | b :: _ => Some (size b)
  end.

(** [assert(inp_size <= d.buffers[0].size)] *)
Definition assert_fits (inp_size : Z) (d : IODescr) : M World unit :=
  match first_size d with
  | None => throw assertion_failure
  | Some n => assert (inp_size <=? n)
  end.

(** One round of the loop of [SetupInputs] over the inputs: the descriptor
    that is pushed to [c_inputs]. *)
Definition stage_input (inp : IODescr) : M World IODescr :=
  let inp_size := DaliPipeline.tensor_bytes inp in
  do w <- get in
  if IsNoCopy w inp then
    run assert_fits inp_size inp in
    ret inp
  else
    do c <- ScheduleInputCopy inp in
    run assert_fits inp_size c in
    ret c.

(** The loop of [SetupInputs] that fills [c_inputs]. *)
Fixpoint stage_inputs (inputs : list IODescr) : M World (list IODescr) :=
  match inputs with
  | [] => ret []
  | inp :: rest =>
      do c <- stage_input inp in
      do cs <- stage_inputs rest in
      ret (c :: cs)
  end.

(** The loop of [SetupInputs] that hands [c_inputs] to the pipeline. *)
Fixpoint set_inputs (c_inputs : list IODescr) : M World unit :=
  match c_inputs with
  | [] => ret tt
  | inp :: rest => run pipeline_SetInput inp in set_inputs rest
  end.

(** [void DaliExecutor::SetupInputs(const std::vector<IDescr>& inputs)] *)
Definition SetupInputs (inputs : list IODescr) : M World unit :=
  match inputs with
  | [] => throw assertion_failure
  | first :: others =>
      let batch_size := num_samples (shape (meta first)) in
      run check_batch_sizes batch_size others in
      do c_inputs <- stage_inputs inputs in
      run RunInputCopy in
      set_inputs c_inputs
  end.

(** The metadata [Run] returns. *)
Definition output_infos (p : DaliPipeline.t H) : list OutputInfo :=
  let outputs_shapes := DaliPipeline.GetOutputShapes p in
  map (fun out_idx =>
         mkOutputInfo (nth out_idx outputs_shapes [])
                      (DaliPipeline.GetOutputType p (Z.of_nat out_idx))
                      (DaliPipeline.GetOutputDevice p (Z.of_nat out_idx)))
      (seq 0 (Z.to_nat (DaliPipeline.GetNumOutput p))).

(** [std::vector<OutputInfo> DaliExecutor::Run(const std::vector<IDescr>&)] *)
Definition Run (inputs : list IODescr) : M World (list OutputInfo) :=
  run SetupInputs inputs in
  run try_catch_rethrow
        (run pipeline_Run in pipeline_Output)
        pipeline_Reset in
  do w <- get in
  ret (output_infos (pipeline_ (self w))).

(** The loop of [PutOutputs] that queues one deferred copy per destination
    fragment, [src] advancing by the fragment sizes. *)
Fixpoint schedule_out_fragments (interm_descr : BufferDescr) (src : ptr)
    (out_buffers : list BufferDescr) : M World unit :=
  match out_buffers with
  | [] => ret tt
  | buf :: rest =>
      run AddWork (mkTask (device buf) (data buf) (device interm_descr) src (size buf))
                  (size buf) false in
      schedule_out_fragments interm_descr (ptr_add src (size buf)) rest
  end.

(** The body of the loop of [PutOutputs] for one output slot. *)
Definition put_output (output_idx : Z) (output : IODescr) : M World unit :=
  match buffers output with
  | [buffer] => pipeline_PutOutput (data buffer) output_idx (device buffer)
  | out_buffers =>
      let size := total_size out_buffers in
      do w <- get in
      let dev :=
        if bool_decide (DaliPipeline.GetOutputDevice (pipeline_ (self w)) output_idx = CPU)
        then CPU else GPU in
      let key := name (meta output) +:+ "_out" in
      run on_buffer dev key (fun storage => IOBuffer.resize storage size) in
      do interm_descr <- on_buffer dev key IOBuffer.get_descr in
      run pipeline_PutOutput (data interm_descr) output_idx (device interm_descr) in
      schedule_out_fragments interm_descr (data interm_descr) out_buffers
  end.

(** The loop of [PutOutputs] over the output slots, from slot
    [output_idx] on (a [uint32_t] in the source: fewer than 2^32 slots). *)
Fixpoint put_outputs_from (output_idx : Z) (outputs : list IODescr) : M World unit :=
  match outputs with
  | [] => ret tt
  | output :: rest =>
      run put_output output_idx output in
      put_outputs_from (output_idx + 1) rest
  end.

(** [void DaliExecutor::PutOutputs(const std::vector<ODescr>& outputs)] *)
Definition PutOutputs (outputs : list IODescr) : M World unit :=
  run put_outputs_from 0 outputs in
  run pipeline_SyncOutputStream in
  RunAll.

End WithApi.
Arguments t H : clear implicits.
Arguments World H : clear implicits.
End DaliExecutor.

(** ** A reference instance

    A small stand-in for the DALI library, and a world around it, on which
    the statements below are exercised.  The stand-in pipeline is the
    identity: it hands back the tensors it was fed, and it fails on a
    tensor whose first byte is [0xff]. *)

Module Sample.

Record handle : Type := mkHandle {
  live : bool;
  fed : list (string * list Byte.byte)
}.

Definition corrupt (x : string * list Byte.byte) : bool :=
  match snd x with
  | Byte.xff :: _ => true
  | _ => false
  end.

Global Instance api : DaliApi handle := {|
  dali_type_size := fun _ => 1;
  null_handle := mkHandle false [];
  handle_set := live;
  daliCreatePipeline := fun _ _ _ _ _ => Ok (mkHandle true []);
  daliDeletePipeline := fun _ => mkHandle false [];
  daliOutputRelease := fun h => (None, h);
  daliRun := fun h =>
    if existsb corrupt (fed h)
    then (Some (runtime_error "corrupt sample"), mkHandle (live h) [])
    else (None, h);
  daliOutput := fun h => (None, h);
  daliSetExternalInput := fun m _ bytes h =>
    (None, mkHandle (live h) (fed h ++ [(name m, bytes)]));
  daliGetNumOutput := fun h => Z.of_nat (length (fed h));
  daliTypeAt := fun _ _ => 0;
  daliGetOutputDevice := fun _ _ => CPU;
  daliShapeAt := fun h i =>
    [[Z.of_nat (length (snd (nth (Z.to_nat i) (fed h) (EmptyString, []))))]];
  daliOutputBytes := fun h i => snd (nth (Z.to_nat i) (fed h) (EmptyString, []))
|}.

(** The same library, except that on a corrupt tensor [daliRun] ends with
    [std::bad_alloc], which is not a [std::runtime_error], and keeps what
    it was fed. *)
Definition faulty : DaliApi handle := {|
  dali_type_size := fun _ => 1;
  null_handle := mkHandle false [];
  handle_set := live;
  daliCreatePipeline := fun _ _ _ _ _ => Ok (mkHandle true []);
  daliDeletePipeline := fun _ => mkHandle false [];
  daliOutputRelease := fun h => (None, h);
  daliRun := fun h =>
    if existsb corrupt (fed h) then (Some bad_alloc, h) else (None, h);
  daliOutput := fun h => (None, h);
  daliSetExternalInput := fun m _ bytes h =>
    (None, mkHandle (live h) (fed h ++ [(name m, bytes)]));
  daliGetNumOutput := fun h => Z.of_nat (length (fed h));
  daliTypeAt := fun _ _ => 0;
  daliGetOutputDevice := fun _ _ => CPU;
  daliShapeAt := fun h i =>
    [[Z.of_nat (length (snd (nth (Z.to_nat i) (fed h) (EmptyString, []))))]];
  daliOutputBytes := fun h i => snd (nth (Z.to_nat i) (fed h) (EmptyString, []))
|}.

(** The same library when it cannot create another pipeline:
    [daliCreatePipeline] ends with a [std::runtime_error], and so does
    feeding a handle that holds no pipeline. *)
Definition exhausted : DaliApi handle := {|
  dali_type_size := fun _ => 1;
  null_handle := mkHandle false [];
  handle_set := live;
  daliCreatePipeline := fun _ _ _ _ _ => Err (runtime_error "no memory for a pipeline");
  daliDeletePipeline := fun _ => mkHandle false [];
  daliOutputRelease := fun h => (None, h);
  daliRun := fun h =>
    if existsb corrupt (fed h)
    then (Some (runtime_error "corrupt sample"), mkHandle (live h) [])
    else (None, h);
  daliOutput := fun h => (None, h);
  daliSetExternalInput := fun m _ bytes h =>
    if live h then (None, mkHandle (live h) (fed h ++ [(name m, bytes)]))
    else (Some (runtime_error "no pipeline"), h);
  daliGetNumOutput := fun h => Z.of_nat (length (fed h));
  daliTypeAt := fun _ _ => 0;
  daliGetOutputDevice := fun _ _ => CPU;
  daliShapeAt := fun h i =>
    [[Z.of_nat (length (snd (nth (Z.to_nat i) (fed h) (EmptyString, []))))]];
  daliOutputBytes := fun h i => snd (nth (Z.to_nat i) (fed h) (EmptyString, []))
|}.

(** A machine on which storage is had up to [PTRDIFF_MAX] bytes, no copy
    fails, and a copy through the accelerator is still under way when the
    call that issued it returns. *)
Global Instance machine : Machine := {|
  max_size := PTRDIFF_MAX;
  max_size_le := Z.le_refl PTRDIFF_MAX;
  out_of_memory := fun _ _ => None;
  copy_error := fun _ => None;
  completes_at_once := fun _ => false
|}.

(** Caller block 1 is filled with [0xff]; every other caller block [id]
    holds the bytes [16 * id + offset] (mod 256). *)
Definition memory : mem := fun b o =>
  match b with
  | Caller 1 => Byte.xff
  | Caller id => default Byte.x00 (Byte.of_N (Z.to_N ((16 * id + o) mod 256)))
  | Pooled _ _ => Byte.x00
  end.

(** Workers that take up short copies at once and complete the queue back
    to front. *)
Definition scheduler : Scheduler :=
  {| starts_early := fun t => nbytes t <? 150;
     completion_order := @rev CopyTask |}.

Definition pipeline : DaliPipeline.t handle :=
  snd (DaliPipeline.create "identity" 8 2 0).

Definition world : DaliExecutor.World handle :=
  {| DaliExecutor.self :=
       {| DaliExecutor.pipeline_ := pipeline;
          DaliExecutor.thread_pool_ := mkPool [] [];
          DaliExecutor.cpu_buffers_ := ∅;
          DaliExecutor.gpu_buffers_ := ∅ |};
     DaliExecutor.memory := memory;
     DaliExecutor.default_stream := [];
     DaliExecutor.scheduler := scheduler;
     DaliExecutor.current_device := 0;
     DaliExecutor.trace := [] |}.

Definition fragment (id : Z) (n : Z) (dev : device_type_t) (idx : Z) : BufferDescr :=
  {| data := mkPtr (Caller id) 0; size := n; device := dev; device_id := idx |}.

(** One sample of 600 bytes in three host fragments of 100, 200 and 300
    bytes. *)
Definition split_input : IODescr :=
  {| meta := mkMeta "images" 0 [[600]];
     buffers := [fragment 2 100 CPU 0; fragment 3 200 CPU 0; fragment 4 300 CPU 0] |}.

(** One sample of 8 bytes in a single host fragment. *)
Definition whole_input : IODescr :=
  {| meta := mkMeta "labels" 0 [[8]];
     buffers := [fragment 5 8 CPU 0] |}.

(** One sample of 8 bytes in a single fragment on accelerator 3, which is
    not the accelerator of the pipeline. *)
Definition remote_input : IODescr :=
  {| meta := mkMeta "remote" 0 [[8]];
     buffers := [fragment 6 8 GPU 3] |}.

(** One sample whose bytes the stand-in pipeline cannot process. *)
Definition corrupt_input : IODescr :=
  {| meta := mkMeta "images" 0 [[4]];
     buffers := [fragment 1 4 CPU 0] |}.

(** Two samples: a batch size that differs from the inputs above. *)
Definition pair_input : IODescr :=
  {| meta := mkMeta "pairs" 0 [[2]; [2]];
     buffers := [fragment 7 4 CPU 0] |}.

(** A destination in two fragments of 5 and 3 bytes, and one in a single
    fragment. *)
Definition split_output : IODescr :=
  {| meta := mkMeta "labels" 0 [[8]];
     buffers := [fragment 8 5 CPU 0; fragment 9 3 CPU 0] |}.


Definition whole_output : IODescr :=
  {| meta := mkMeta "images" 0 [[600]];
     buffers := [fragment 10 600 CPU 0] |}.

(** A second, shorter input under the name of [split_input]: one sample
    of 4 bytes in two host fragments. *)
Definition short_input : IODescr :=
  {| meta := mkMeta "images" 0 [[4]];
     buffers := [fragment 11 2 CPU 0; fragment 12 2 CPU 0] |}.

(** One sample of 16 bytes, of which the single fragment holds 8. *)
Definition truncated_input : IODescr :=
  {| meta := mkMeta "labels" 0 [[16]];
     buffers := [fragment 5 8 CPU 0] |}.

End Sample.

(** ** The vocabulary of the statements *)

Definition is_pooled (b : block) : bool :=
  match b with Pooled _ _ => true | Caller _ => false end.

(** The sum of the fragment lengths, as an integer. *)
Definition sum_sizes (bufs : list BufferDescr) : Z :=
  fold_right Z.add 0 (map size bufs).

(** The copy of each fragment, the destinations laid end to end from
    [dst]. *)
Fixpoint fragment_tasks (dd : device_type_t) (dst : ptr)
    (bufs : list BufferDescr) : list CopyTask :=
  match bufs with
  | [] => []
  | buf :: rest =>
      mkTask dd dst (device buf) (data buf) (size buf)
        :: fragment_tasks dd (ptr_add dst (size buf)) rest
  end.

(** What [AddWork] is seen to do with a task. *)
Definition announce (s : Scheduler) (start_immediately : bool) (t : CopyTask) : list event :=
  EvAddWork t (nbytes t) start_immediately
    :: (if start_immediately && starts_early s t then [EvMemCopy t] else []).

(** The immediate tasks a worker takes up at once, and those that wait
    for [RunAll]. *)
Definition is_early (s : Scheduler) (t : CopyTask) : bool := starts_early s t.

Definition is_queued (s : Scheduler) (t : CopyTask) : bool := negb (starts_early s t).

(** A task as it sits in the queue, with its byte count as priority. *)
Definition as_work (t : CopyTask) : Work := mkWork t (nbytes t).

(** Copies that were run, seen from outside: those that have taken
    effect, in the order in which they did (a copy through the accelerator
    that is complete at once takes those along that were issued on the
    default stream before it); those still on the default stream; and the
    failures. *)
Record Copies : Type := mkCopies {
  landed : list CopyTask;
  pending : list CopyTask;
  failed : list failure
}.

Definition issue {machine : Machine} (c : Copies) (t : CopyTask) : Copies :=
  if host_to_host t then mkCopies (landed c ++ [t]) (pending c) (failed c)
  else match copy_error t with
       | Some e => mkCopies (landed c) (pending c) (failed c ++ [e])
       | None =>
           if completes_at_once t
           then mkCopies (landed c ++ pending c ++ [t]) [] (failed c)
           else mkCopies (landed c) (pending c ++ [t]) (failed c)
       end.

Definition issue_all {machine : Machine} (ts : list CopyTask) (c : Copies) : Copies :=
  fold_left issue ts c.

Arguments issue {machine} c t : simpl never.
Arguments issue_all {machine} ts c : simpl never.

(** A copy that does not fail on this machine, and one that moreover has
    taken effect when the call that issued it returns: a copy from host
    memory to host memory is both. *)
Definition unfailing {machine : Machine} (t : CopyTask) : Prop :=
  host_to_host t = true \/ copy_error t = None.

Definition settled {machine : Machine} (t : CopyTask) : Prop :=
  host_to_host t = true \/ (copy_error t = None /\ completes_at_once t = true).

Module ExecutorSpec.
Import DaliExecutor.

Section WithApi.
Context {H : Type} {api : DaliApi H} {machine : Machine}.

(** What becomes of the copies [ts] when they are run, in this order, in
    the world [w]. *)
Definition copies_in (w : World H) (ts : list CopyTask) : Copies :=
  issue_all ts (mkCopies [] (default_stream w) (errors w)).

(** The world after the workers ran the copies [ts], in this order. *)
Definition after_copies (ts : list CopyTask) (w : World H) : World H :=
  let c := copies_in w ts in
  {| self := set_errors (failed c) (self w);
     memory := complete_all (landed c) (memory w);
     default_stream := pending c;
     scheduler := scheduler w;
     current_device := current_device w;
     trace := trace w ++ map EvMemCopy ts |}.

(** The world after the fragment copies of one descriptor were handed to
    the thread pool. *)
Definition scheduled (ts : list CopyTask) (w : World H) : World H :=
  let c := copies_in w (List.filter (is_early (scheduler w)) ts) in
  {| self := set_queue
               (queue w ++ map as_work (List.filter (is_queued (scheduler w)) ts))
               (set_errors (failed c) (self w));
     memory := complete_all (landed c) (memory w);
     default_stream := pending c;
     scheduler := scheduler w;
     current_device := current_device w;
     trace := trace w ++ flat_map (announce (scheduler w) true) ts |}.

(** The order in which [RunAll] completes the queue of [w]. *)
Definition run_order (w : World H) : list CopyTask :=
  completion_order (scheduler w) (map work (queue w)).

(** The world when [RunAll] ends, and how it ends: with the first failure
    on record, if there is one. *)
Definition drained (w : World H) : World H :=
  let c := copies_in w (run_order w) in
  {| self := set_errors [] (set_queue [] (self w));
     memory := complete_all (landed c) (memory w);
     default_stream := pending c;
     scheduler := scheduler w;
     current_device := current_device w;
     trace := trace w ++ EvRunAll :: map EvMemCopy (run_order w) |}.

Definition drain_result (w : World H) : result unit :=
  match failed (copies_in w (run_order w)) with
  | [] => Ok tt
  | e :: _ => Err e
  end.

(** The pooled buffer [buffers[key]] once [resize(size)] returned. *)
Definition resized (dev : device_type_t) (key : string) (size : Z) (w : World H)
    : IOBuffer.t dev :=
  {| IOBuffer.buffer_size := Z.max (IOBuffer.buffer_size (buffer_at dev key w)) size;
     IOBuffer.filled_ := size;
     IOBuffer.device_id_ := IOBuffer.device_id_ (buffer_at dev key w) |}.

(** The world in which [buffers[key]] is [b]. *)
Definition with_buffer (dev : device_type_t) (key : string) (b : IOBuffer.t dev)
    (w : World H) : World H :=
  set_self (set_buffers dev (<[key := b]> (buffers_of dev (self w))) (self w)) w.

(** The pooled buffer [buffers[key]] with nothing claimed: what a
    [resize] that fails leaves. *)
Definition cleared (dev : device_type_t) (key : string) (w : World H) : IOBuffer.t dev :=
  IOBuffer.set_filled 0 (buffer_at dev key w).

(** The exception with which [resize(size)] of the pooled buffer
    [buffers[key]] ends when the buffer is too small and the storage to
    make it larger is refused. *)
Definition shortfall (dev : device_type_t) (key : string) (size : Z) (w : World H)
    : option failure :=
  if IOBuffer.Capacity (buffer_at dev key w) <? size then refused dev size else None.

(** The pooled buffer [buffers[key]] has [size] bytes or can be given
    them. *)
Definition obtainable (dev : device_type_t) (key : string) (size : Z) (w : World H)
    : Prop :=
  shortfall dev key size w = None.

(** The pool [ScheduleInputCopy] stages an input in. *)
Definition staging_device (first : BufferDescr) : device_type_t :=
  if bool_decide (device first = CPU) then CPU else GPU.

(** The key it stages it under. *)
Definition staging_key (input : IODescr) : string := name (meta input) +:+ "_inp".

(** The input descriptors that take the zero-copy path: a single
    fragment, on the host or with the device index of the pipeline. *)
Definition eligible_for (pipeline_device : Z) (inp : IODescr) : Prop :=
  exists b, buffers inp = [b] /\
            (device b = CPU \/ device_id b = pipeline_device).

Definition eligible (w : World H) (inp : IODescr) : Prop :=
  eligible_for (DaliPipeline.DeviceId (pipeline_ (self w))) inp.

(** The descriptors handed to [pipeline_.SetInput] in a stretch of the
    trace, in order. *)
Definition handed_over (evs : list event) : list IODescr :=
  flat_map (fun ev => match ev with EvSetInput d => [d] | _ => [] end) evs.

(** The tasks announced to the thread pool in a stretch of the trace, in
    order. *)
Definition added_tasks (evs : list event) : list CopyTask :=
  flat_map (fun ev => match ev with EvAddWork t _ _ => [t] | _ => [] end) evs.

(** The byte sizes the tasks were announced with. *)
Definition added_sizes (evs : list event) : list Z :=
  flat_map (fun ev => match ev with EvAddWork _ n _ => [n] | _ => [] end) evs.

(** A task that neither touches the caller's memory nor the block [b]. *)
Definition foreign (b : block) (t : CopyTask) : Prop :=
  is_pooled (blk (dst t)) = true /\ blk (dst t) <> b.

(** The sum of a list of integers. *)
Definition sum (l : list Z) : Z := fold_right Z.add 0 l.

(** The pool that is not the pool of [dev]. *)
Definition other_device (dev : device_type_t) : device_type_t :=
  match dev with CPU => GPU | GPU => CPU end.

(** [inp.meta.shape.num_samples()] *)
Definition batch_size_of (inp : IODescr) : Z := num_samples (shape (meta inp)).

(** The copies out of the intermediate buffer, the sources laid end to
    end from [src]. *)
Fixpoint out_fragment_tasks (sd : device_type_t) (src : ptr)
    (out_buffers : list BufferDescr) : list CopyTask :=
  match out_buffers with
  | [] => []
  | buf :: rest =>
      mkTask (device buf) (data buf) sd src (size buf)
        :: out_fragment_tasks sd (ptr_add src (size buf)) rest
  end.




(** The arguments a pipeline object was constructed with. *)
Definition config (p : DaliPipeline.t H) : string * Z * Z * Z :=
  (DaliPipeline.serialized_pipeline_ p, DaliPipeline.max_batch_size_ p,
   DaliPipeline.num_threads_ p, DaliPipeline.device_id_ p).

(** The handle [ReleasePipeline] leaves. *)
Definition released (p : DaliPipeline.t H) : H :=
  if handle_set (DaliPipeline.handle_ p)
  then daliDeletePipeline (DaliPipeline.handle_ p)
  else DaliPipeline.handle_ p.

(** What [daliCreatePipeline] answers when [Reset] calls it: it is given
    the handle [ReleasePipeline] left and the arguments the pipeline
    object was constructed with. *)
Definition recreated (p : DaliPipeline.t H) : result H :=
  daliCreatePipeline (released p)
    (DaliPipeline.serialized_pipeline_ p) (DaliPipeline.max_batch_size_ p)
    (DaliPipeline.num_threads_ p) (DaliPipeline.device_id_ p).

(** Two pipeline objects that differ at most in pending output writes. *)
Definition like_pipeline (p q : DaliPipeline.t H) : Prop :=
  DaliPipeline.handle_ p = DaliPipeline.handle_ q /\ config p = config q.

(** A member function of the pipeline whose outcome does not depend on
    pending output writes. *)
Definition stream_blind {A} (c : M (DaliPipeline.t H) A) : Prop :=
  forall p q, like_pipeline p q ->
    fst (c p) = fst (c q) /\ like_pipeline (snd (c p)) (snd (c q)).

(** A member function of the pipeline that leaves the construction
    arguments alone. *)
Definition keeps_config {A} (c : M (DaliPipeline.t H) A) : Prop :=
  forall p, config (snd (c p)) = config p.

(** The device index a pooled buffer is constructed with. *)
Definition constructed_device_id (dev : device_type_t) (w : World H) : Z :=
  if bool_decide (dev = GPU) then current_device w else 0.

(** Every pooled buffer carries the device index it was constructed
    with, and its capacity is not negative. *)
Definition pools_consistent (w : World H) : Prop :=
  forall dev key (b : IOBuffer.t dev),
    buffers_of dev (self w) !! key = Some b ->
    IOBuffer.device_id_ b = constructed_device_id dev w /\ 0 <= IOBuffer.Capacity b.

(** A computation that keeps the pools so, however it ends. *)
Definition sound {A} (c : M (World H) A) : Prop :=
  forall w, pools_consistent w -> pools_consistent (snd (c w)).

(** The world [a] is as the world [b], except that its pooled buffers
    may hold more in reserve: the two differ at most in that, in what the
    buffers have claimed, in pending output writes and in the calls
    recorded so far. *)
Record ahead (a b : World H) : Prop := mkAhead {
  ahead_pipeline : like_pipeline (pipeline_ (self a)) (pipeline_ (self b));
  ahead_queue : queue a = queue b;
  ahead_errors : errors a = errors b;
  ahead_memory : memory a = memory b;
  ahead_stream : default_stream a = default_stream b;
  ahead_scheduler : scheduler a = scheduler b;
  ahead_device : current_device a = current_device b;
  ahead_pools_l : pools_consistent a;
  ahead_pools_r : pools_consistent b;
  ahead_reserve : forall dev key,
    IOBuffer.Capacity (buffer_at dev key b) <= IOBuffer.Capacity (buffer_at dev key a)
}.

(** A computation that, where it succeeds in a world, succeeds with the
    same result in every world that is ahead of it. *)
Definition follows {A} (c : M (World H) A) : Prop :=
  forall a b, ahead a b ->
    forall x b', c b = (Ok x, b') -> exists a', c a = (Ok x, a') /\ ahead a' b'.

(** The pipeline part of [Run]: what is inside the [try]. *)
Definition execute : M (World H) unit :=
  run pipeline_Run in pipeline_Output.

(** The executor as it is when it has just been constructed around the
    pipeline of [w], in the surroundings of [w]: no work queued, no
    failure on record, no pooled buffer, no call made. *)
Definition newly_constructed (w : World H) : World H :=
  {| self := {| pipeline_ := pipeline_ (self w);
                thread_pool_ := mkPool [] [];
                cpu_buffers_ := ∅;
                gpu_buffers_ := ∅ |};
     memory := memory w;
     default_stream := default_stream w;
     scheduler := scheduler w;
     current_device := current_device w;
     trace := [] |}.


End WithApi.
End ExecutorSpec.

(** ** Uses of a staging buffer *)

Module IOBufferCalls.
Import IOBuffer.

(** A call of one of the members that change a buffer. *)
Inductive call : Type :=
| CallAllocate (size : Z)
| CallClear
| CallReserve (size : Z).

(** The arguments of a call are [size_t] values. *)
Definition size_t_call (c : call) : Prop :=
  match c with
  | CallAllocate size | CallReserve size => is_size_t size
  | CallClear => True
  end.

Section Members.
Context {machine : Machine} {Dev : device_type_t}.
Variable storage : block.

Definition invoke (c : call) : M (t Dev) unit :=
  match c with
  | CallAllocate size => do _ <- Allocate storage size in ret tt
  | CallClear => Clear
  | CallReserve size => Reserve size
  end.

(** A client that makes the calls [cs] one after the other and goes on
    after a call that failed; the buffer it ends up with. *)
Fixpoint invoke_all (cs : list call) (b : t Dev) : t Dev :=
  match cs with
  | [] => b
  | c :: rest => invoke_all rest (snd (invoke c b))
  end.

(** One [Allocate] per size, in order; the origins that were returned. *)
Fixpoint allocate_all (sizes : list Z) : M (t Dev) (list ptr) :=
  match sizes with
  | [] => ret []
  | size :: rest =>
      do origin <- Allocate storage size in
      do origins <- allocate_all rest in
      ret (origin :: origins)
  end.

(** Where the chunks of [sizes] start when they are laid end to end from
    offset [from]. *)
Definition chunk_origins (from : Z) (sizes : list Z) : list ptr :=
  map (fun i => mkPtr storage (from + ExecutorSpec.sum (take i sizes)))
      (seq 0 (length sizes)).

End Members.
End IOBufferCalls.

(** ** Further vocabulary for the executor *)

Module ExecutorTerms.
Import DaliExecutor ExecutorSpec.

(** The key [PutOutputs] stages an output under. *)
Definition output_key (output : IODescr) : string := name (meta output) +:+ "_out".

(** What [SetupInputs] is seen to do before it turns to the pipeline:
    additions of work, copies, and the one [RunAll]; and what it is seen
    to do at all: these and [SetInput]. *)
Definition copy_event (ev : event) : Prop :=
  match ev with
  | EvAddWork _ _ _ | EvMemCopy _ | EvRunAll => True
  | _ => False
  end.







(** A stretch of memory: where it starts and how many bytes it has. *)
Definition region : Type := ptr * Z.



(** Is the output written straight into the single fragment of the
    caller? *)
Definition is_direct (output : IODescr) : bool :=
  match buffers output with
  | [_] => true
  | _ => false
  end.



Section WithApi.
Context {H : Type} {api : DaliApi H} {machine : Machine}.

(** The pool [PutOutputs] stages output [idx] in: the one of the device
    the pipeline reports for this output. *)
Definition output_pool (w : World H) (idx : Z) : device_type_t :=
  if bool_decide (DaliPipeline.GetOutputDevice (pipeline_ (self w)) idx = CPU)
  then CPU else GPU.

(** Where the intermediate buffer of an output starts. *)
Definition output_base (w : World H) (idx : Z) (output : IODescr) : ptr :=
  mkPtr (Pooled (output_pool w idx) (output_key output)) 0.

(** Where [PutOutputs] has the pipeline write output [idx]. *)
Definition output_target (w : World H) (idx : Z) (output : IODescr) : ptr :=
  match buffers output with
  | [b] => data b
  | _ => output_base w idx output
  end.

(** The device it names in that call. *)
Definition output_target_device (w : World H) (idx : Z) (output : IODescr)
    : device_type_t :=
  match buffers output with
  | [b] => device b
  | _ => output_pool w idx
  end.

(** The deferred copies [PutOutputs] queues for output [idx]. *)
Definition out_tasks_of (w : World H) (idx : Z) (output : IODescr) : list CopyTask :=
  if is_direct output then []
  else out_fragment_tasks (output_pool w idx) (output_base w idx output) (buffers output).

(** The bytes of output [idx] as the pipeline holds them. *)
Definition output_bytes (w : World H) (idx : Z) : list Byte.byte :=
  daliOutputBytes (DaliPipeline.handle_ (pipeline_ (self w))) idx.

(** The stretch of caller memory that fragment [k] of output [idx] is to
    fill: the fragment itself, or, for an output that is written
    directly, as many bytes as the output has from the start of its single
    fragment on. *)
Definition destination (w : World H) (idx : Z) (output : IODescr) (k : nat)
    : option region :=
  match buffers output with
  | [b] =>
      match k with
      | O => Some (data b, Z.of_nat (length (output_bytes w idx)))
      | S _ => None
      end
  | bufs => option_map (fun buf => (data buf, size buf)) (bufs !! k)
  end.


(** The number of bytes behind the descriptor that the loop of
    [SetupInputs] pushes for an input: those of the single fragment of an
    input that is not copied, or else the [size_t] sum of the fragment
    lengths; nothing when the input has no fragment. *)
Definition provided (w : World H) (inp : IODescr) : option Z :=
  match buffers inp with
  | [] => None
  | first :: _ =>
      Some (if IsNoCopy w inp then size first else total_size (buffers inp))
  end.




(** The storage to stage an input in can be had, when the input is
    staged at all. *)
Definition input_room (w : World H) (inp : IODescr) : Prop :=
  IsNoCopy w inp = false ->
  forall first rest, buffers inp = first :: rest ->
    obtainable (staging_device first) (staging_key inp) (total_size (buffers inp)) w.

(** The storage to stage output [idx] in can be had, when the output is
    staged at all. *)
Definition output_room (w : World H) (idx : Z) (output : IODescr) : Prop :=
  is_direct output = false ->
  obtainable (output_pool w idx) (output_key output) (total_size (buffers output)) w.



(** A computation whose calls on record all satisfy [P], however it
    ends. *)
Definition emits {A} (P : event -> Prop) (c : M (World H) A) : Prop :=
  forall w, exists evs, trace (snd (c w)) = trace w ++ evs /\ Forall P evs.

(** No pooled buffer of [w] is missing or smaller in [w']. *)
Definition pools_grown (w w' : World H) : Prop :=
  forall dev key (b : IOBuffer.t dev),
    buffers_of dev (self w) !! key = Some b ->
    exists b', buffers_of dev (self w') !! key = Some b' /\
               IOBuffer.Capacity b <= IOBuffer.Capacity b' /\
               IOBuffer.device_id_ b' = IOBuffer.device_id_ b.

(** What stays and what only grows while the executor is in use: the
    arguments its pipeline was constructed with stay, and so does the
    device at hand; pooled buffers are neither dropped nor shrunk. *)
Record evolved (w w' : World H) : Prop := mkEvolved {
  evolved_config : config (pipeline_ (self w')) = config (pipeline_ (self w));
  evolved_device : current_device w' = current_device w;
  evolved_pools : pools_grown w w'
}.

(** A computation every outcome of which is such a world. *)
Definition steady {A} (c : M (World H) A) : Prop :=
  forall w, evolved w (snd (c w)).

(** The entry points of the executor as its owner calls them, and the
    world after a sequence of such calls, failed calls included. *)
Inductive entry : Type :=
| EntryRun (inputs : list IODescr)
| EntryPutOutputs (outputs : list IODescr).

Definition enter (e : entry) (w : World H) : World H :=
  match e with
  | EntryRun inputs => snd (Run inputs w)
  | EntryPutOutputs outputs => snd (PutOutputs outputs w)
  end.

Definition enter_all (es : list entry) (w : World H) : World H :=
  fold_left (fun w e => enter e w) es w.

End WithApi.
End ExecutorTerms.

(** ** Pipeline objects: construction by move, move assignment,
    destruction (dali_pipeline.h) *)

Module DaliPipelineLifetime.
Section WithApi.
Context {H : Type} {api : DaliApi H}.

(** A [DaliPipeline] object where it is stored.  [DaliPipeline.t] keeps of
    [output_stream_] the writes that are pending on the stream; whether
    the member is a stream or [nullptr] is kept beside it. *)
Record Object : Type := mkObject {
  members : DaliPipeline.t H;
  has_stream : bool
}.

(** The members as their default member initialisers leave them. *)
Definition blank : Object :=
  {| members := {| DaliPipeline.serialized_pipeline_ := "";
                   DaliPipeline.max_batch_size_ := 0;
                   DaliPipeline.num_threads_ := 0;
                   DaliPipeline.device_id_ := 0;
                   DaliPipeline.handle_ := null_handle;
                   DaliPipeline.output_stream_ := [] |};
     has_stream := false |}.

(** The objects by their addresses, the memory their streams write to,
    and the handles on which [daliDeletePipeline] was called so far,
    oldest first. *)
Record Store : Type := mkStore {
  objects : Z -> Object;
  bytes : mem;
  deleted : list H
}.

Definition set_object (a : Z) (o : Object) (s : Store) : Store :=
  {| objects := fun a' => if bool_decide (a' = a) then o else objects s a';
     bytes := bytes s;
     deleted := deleted s |}.

Definition set_bytes (m : mem) (s : Store) : Store :=
  {| objects := objects s; bytes := m; deleted := deleted s |}.

Definition set_deleted (hs : list H) (s : Store) : Store :=
  {| objects := objects s; bytes := bytes s; deleted := hs |}.

(** A call of a member of [DaliPipeline.t] on the object at [this]. *)
Definition on_members {A} (this : Z) (c : M (DaliPipeline.t H) A) : M Store A :=
  fun s => let (r, p) := c (members (objects s this)) in
           (r, set_object this (mkObject p (has_stream (objects s this))) s).

(** [void ReleasePipeline()] on the object at [this], the call of
    [daliDeletePipeline] put on record. *)
Definition ReleasePipeline (this : Z) : M Store unit :=
  do s <- get in
  let handle := DaliPipeline.handle_ (members (objects s this)) in
  run on_members this DaliPipeline.ReleasePipeline in
  if handle_set handle
  then modify (fun s => set_deleted (deleted s ++ [handle]) s)
  else ret tt.

(** [void ReleaseStream()].  [cudaStreamSynchronize] makes the writes that
    are pending on the stream visible, as [SyncOutputStream] does;
    [cudaStreamDestroy] gives the stream up.  Failures of the CUDA runtime
    are not modelled. *)
Definition ReleaseStream (this : Z) : M Store unit :=
  do s <- get in
  let o := objects s this in
  if has_stream o then
    let (p, m) := DaliPipeline.SyncOutputStream (members o) (bytes s) in
    modify (fun s => set_bytes m (set_object this (mkObject p false) s))
  else ret tt.

(** What the assignments of the move assignment leave in [*this]: every
    member of [dp]. *)
Definition taken_over (dp : Object) : Object :=
  {| members := {| DaliPipeline.serialized_pipeline_ :=
                     DaliPipeline.serialized_pipeline_ (members dp);
                   DaliPipeline.max_batch_size_ := DaliPipeline.max_batch_size_ (members dp);
                   DaliPipeline.num_threads_ := DaliPipeline.num_threads_ (members dp);
                   DaliPipeline.device_id_ := DaliPipeline.device_id_ (members dp);
                   DaliPipeline.handle_ := DaliPipeline.handle_ (members dp);
                   DaliPipeline.output_stream_ := DaliPipeline.output_stream_ (members dp) |};
     has_stream := has_stream dp |}.

(** What they leave in [dp]: [handle_] is [daliPipelineHandle{}] and
    [output_stream_] is [nullptr]; the string was moved from, which leaves
    it valid with a value the language does not specify, [moved_from] of
    what it was; the three integers were copied. *)
Definition left_behind (moved_from : string -> string) (dp : Object) : Object :=
  {| members := {| DaliPipeline.serialized_pipeline_ :=
                     moved_from (DaliPipeline.serialized_pipeline_ (members dp));
                   DaliPipeline.max_batch_size_ := DaliPipeline.max_batch_size_ (members dp);
                   DaliPipeline.num_threads_ := DaliPipeline.num_threads_ (members dp);
                   DaliPipeline.device_id_ := DaliPipeline.device_id_ (members dp);
                   DaliPipeline.handle_ := null_handle;
                   DaliPipeline.output_stream_ := [] |};
     has_stream := false |}.

(** [DaliPipeline& operator=(DaliPipeline&& dp)], on the object at [this]
    with the object at [dp] as argument. *)
Definition move_assign (moved_from : string -> string) (this dp : Z) : M Store unit :=
  if bool_decide (this <> dp) then
    run ReleasePipeline this in
    run ReleaseStream this in
    modify (fun s =>
      let source := objects s dp in
      set_object dp (left_behind moved_from source)
        (set_object this (taken_over source) s))
  else ret tt.

(** [DaliPipeline(DaliPipeline&& dp)], constructing the object at
    [this]. *)
Definition move_construct (moved_from : string -> string) (this dp : Z) : M Store unit :=
  run modify (set_object this blank) in
  move_assign moved_from this dp.

(** [~DaliPipeline()], on the object at [this]. *)
Definition destroy (this : Z) : M Store unit :=
  run ReleasePipeline this in
  ReleaseStream this.

(** The memory once the writes pending on the stream of an object are
    visible. *)
Definition flushed (o : Object) (m : mem) : mem :=
  snd (DaliPipeline.SyncOutputStream (members o) m).

(** The calls of [daliDeletePipeline] that releasing the pipeline of an
    object makes: one, on its handle, when the handle is set. *)
Definition deletions (o : Object) : list H :=
  if handle_set (DaliPipeline.handle_ (members o))
  then [DaliPipeline.handle_ (members o)] else [].

End WithApi.
Arguments Object H : clear implicits.
Arguments Store H : clear implicits.

(** Two objects over the reference library.  The one at address 1 holds
    the reference pipeline and a stream with one write of two bytes
    pending on caller block 7; the one at address 2 holds a pipeline of
    its own and a stream with one write pending on caller block 8; every
    other address holds a blank object. *)
Definition sample_store : Store Sample.handle :=
  {| objects := fun a =>
       if bool_decide (a = 1) then
         {| members := DaliPipeline.set_stream
                         [(mkPtr (Caller 7) 0, [Byte.x01; Byte.x02])] Sample.pipeline;
            has_stream := true |}
       else if bool_decide (a = 2) then
         {| members := DaliPipeline.set_stream
                         [(mkPtr (Caller 8) 4, [Byte.x03])]
                         (snd (DaliPipeline.create "resize" 4 1 0));
            has_stream := true |}
       else blank;
     bytes := Sample.memory;
     deleted := [] |}.

End DaliPipelineLifetime.

(** * Properties *)

(** ** Machine integers *)

Lemma wrap_small z : is_size_t z -> wrap z = z.
Proof. intros Hz. unfold wrap. apply Z.mod_small. exact Hz. Qed.

Lemma wrap_range z : is_size_t (wrap z).
Proof. unfold is_size_t, wrap. apply Z.mod_pos_bound. reflexivity. Qed.

(** ** The staging buffer *)

Module IOBufferFacts.
Import IOBuffer.

Section Members.
Context {machine : Machine} {Dev : device_type_t}.
Variable storage : block.
Implicit Types b : t Dev.

(** [Allocate] when the sum [filled_ + size] is representable. *)
Lemma Allocate_no_overflow b size :
  0 <= filled_ b -> 0 <= size -> filled_ b + size < SIZE_MODULUS ->
  Allocate storage size b =
    if filled_ b + size <=? buffer_size b
    then (Ok (mkPtr storage (filled_ b)), set_filled (filled_ b + size) b)
    else (Err enforce_failure, b).
Proof.
  intros Hf Hs Hsum.
  unfold Allocate, bind, get, ENFORCE, modify, ret, throw.
  rewrite wrap_small by (unfold is_size_t; lia).
  destruct (filled_ b + size <=? buffer_size b); reflexivity.
Qed.

Lemma set_size_same b : set_size (buffer_size b) b = b.
Proof. destruct b; reflexivity. Qed.

(** [Reserve], by cases. *)
Lemma Reserve_cases b size :
  Reserve size b =
    if buffer_size b <? size then
      if filled_ b =? 0 then
        match refused Dev size with
        | Some e => (Err e, b)
        | None => (Ok tt, set_size size b)
        end
      else (Err enforce_failure, b)
    else (Ok tt, b).
Proof.
  unfold Reserve, buffer_resize, bind, get, ENFORCE, modify, ret, throw.
  destruct (buffer_size b <? size) eqn:Hlt; [| reflexivity].
  destruct (filled_ b =? 0); [| reflexivity].
  rewrite Hlt. destruct (refused Dev size); reflexivity.
Qed.

(** A host buffer cannot grow beyond [PTRDIFF_MAX] bytes, whatever the
    machine. *)
Lemma refused_beyond_max_size size :
  PTRDIFF_MAX < size -> refused CPU size = Some length_error.
Proof.
  intros Hbig. unfold refused. pose proof max_size_le as Hmax.
  rewrite bool_decide_eq_true_2 by reflexivity.
  destruct (max_size <? size) eqn:Hlt; [reflexivity |].
  apply Z.ltb_ge in Hlt. lia.
Qed.

(** [resize] on a [size_t] argument, whatever the buffer went through
    before: it fails only when the buffer is too small and the storage to
    make it larger is refused, and then nothing is claimed any more. *)
Lemma resize_cases b size :
  is_size_t size ->
  resize storage size b =
    match (if buffer_size b <? size then refused Dev size else None) with
    | Some e => (Err e, set_filled 0 b)
    | None =>
        (Ok tt, {| buffer_size := Z.max (buffer_size b) size;
                   filled_ := size;
                   device_id_ := device_id_ b |})
    end.
Proof.
  intros Hs. unfold resize. unfold bind at 1, Clear at 1, modify at 1.
  unfold bind at 1. rewrite Reserve_cases. cbn [set_filled buffer_size filled_].
  destruct (buffer_size b <? size) eqn:Hlt; cbn [Z.eqb].
  - destruct (refused Dev size) as [e |]; [reflexivity |].
    apply Z.ltb_lt in Hlt.
    unfold Allocate, bind, get, ENFORCE, modify, ret, throw. cbn.
    rewrite Z.add_0_l, (wrap_small size) by exact Hs.
    rewrite Z.leb_refl. cbn. rewrite Z.max_r by lia. reflexivity.
  - apply Z.ltb_ge in Hlt.
    unfold Allocate, bind, get, ENFORCE, modify, ret, throw. cbn.
    rewrite Z.add_0_l, (wrap_small size) by exact Hs.
    destruct (size <=? buffer_size b) eqn:Hle; [| apply Z.leb_gt in Hle; lia].
    cbn. rewrite Z.max_l by lia. reflexivity.
Qed.

(** C8, as amended.  [Reserve(size)] leaves the buffer as it is when
    [size] is within the capacity.  Beyond the capacity it fails on its
    [ENFORCE] when something is claimed; when nothing is claimed it makes
    the capacity [size] if the storage can be had, and otherwise ends with
    the exception of [buffer_.resize] and leaves the buffer as it is.  The
    capacity therefore never decreases; [Reserve] succeeds on a buffer
    that was just cleared when [size] is within the capacity or the
    storage can be had, and in no other case. *)
Theorem Reserve_grows_only_when_clear b size :
  (size <= Capacity b -> Reserve size b = (Ok tt, b)) /\
  (Capacity b < size -> filled_ b = 0 -> refused Dev size = None ->
     exists b', Reserve size b = (Ok tt, b') /\
                Capacity b' = size /\ filled_ b' = 0) /\
  (Capacity b < size -> filled_ b = 0 ->
     forall e, refused Dev size = Some e -> Reserve size b = (Err e, b)) /\
  (Capacity b < size -> 0 < filled_ b ->
     Reserve size b = (Err enforce_failure, b)) /\
  (forall r b', Reserve size b = (r, b') -> Capacity b <= Capacity b') /\
  (forall r b0, Clear b = (r, b0) ->
     ((exists b', Reserve size b0 = (Ok tt, b')) <->
      size <= Capacity b \/ refused Dev size = None)).
Proof.
  unfold Capacity. rewrite Reserve_cases.
  split; [| split; [| split; [| split; [| split]]]].
  - intros Hle. apply Z.ltb_ge in Hle. rewrite Hle. reflexivity.
  - intros Hlt Hf Hgrant. apply Z.ltb_lt in Hlt. rewrite Hlt, Hf, Hgrant. cbn.
    eexists. split; [reflexivity |]. cbn. split; [reflexivity | exact Hf].
  - intros Hlt Hf e Href. apply Z.ltb_lt in Hlt. rewrite Hlt, Hf, Href. reflexivity.
  - intros Hlt Hf. apply Z.ltb_lt in Hlt. rewrite Hlt.
    destruct (filled_ b =? 0) eqn:E; [apply Z.eqb_eq in E; lia | reflexivity].
  - intros r b'. destruct (buffer_size b <? size) eqn:Hlt.
    + destruct (filled_ b =? 0); [destruct (refused Dev size) |];
        intros [= <- <-]; cbn; apply Z.ltb_lt in Hlt; lia.
    + intros [= <- <-]. lia.
  - intros r b0 [= <- <-]. rewrite Reserve_cases. cbn.
    destruct (buffer_size b <? size) eqn:Hlt.
    + apply Z.ltb_lt in Hlt. destruct (refused Dev size) as [e |].
      * split; [intros (b' & Hb'); discriminate | intros [Hle | He]; [lia | discriminate]].
      * split; [intros _; right; reflexivity | intros _; eexists; reflexivity].
    + apply Z.ltb_ge in Hlt. split; [intros _; left; exact Hlt | intros _; eexists; reflexivity].
Qed.

End Members.

(** C8, at an input on which the code departs from the claim as it was
    stated.  A host buffer of 16 bytes with nothing claimed, just
    cleared: [Reserve(2^64 - 1)] asks for more than [PTRDIFF_MAX] bytes,
    [buffer_.resize] throws [std::length_error], and the capacity is
    still 16.  So [Reserve] has neither grown the capacity to the
    requested size nor succeeded after [Clear]. *)
Lemma Reserve_fails_beyond_max_size :
  let b : t CPU := {| buffer_size := 16; filled_ := 0; device_id_ := 0 |} in
  let size := SIZE_MODULUS - 1 in
  is_size_t size /\ Capacity b < size /\ filled_ b = 0 /\
  Clear b = (Ok tt, b) /\
  Reserve size b = (Err length_error, b) /\
  ~ (exists b', Reserve size b = (Ok tt, b')).
Proof.
  cbv zeta. split; [split; [discriminate | reflexivity] |].
  split; [reflexivity |]. split; [reflexivity |]. split; [reflexivity |].
  assert (Hfail : Reserve (SIZE_MODULUS - 1)
                    ({| buffer_size := 16; filled_ := 0; device_id_ := 0 |} : t CPU) =
                  (Err length_error,
                   {| buffer_size := 16; filled_ := 0; device_id_ := 0 |})).
  { rewrite Reserve_cases. cbn [buffer_size filled_].
    rewrite refused_beyond_max_size by reflexivity. reflexivity. }
  split; [exact Hfail |]. rewrite Hfail. intros (b' & Hb'). discriminate.
Qed.

(** C7, at an input on which the code departs from it.  A buffer,
    constructed empty, is given a capacity of 16 bytes by [Reserve(16)]
    and a first chunk of 8 bytes by [Allocate(8)].  [Allocate(2^64 - 4)]
    then asks for far more than the 8 bytes that are left, so
    [filled_ + size] exceeds the capacity; yet in [size_t] the sum wraps
    to 4, the [ENFORCE] passes, the call returns the origin at offset 8
    and [filled_] drops to 4: the next [Allocate(8)] hands out the bytes
    from offset 4 on, which overlap the first chunk. *)
Lemma Allocate_wraps_past_capacity :
  let storage := Pooled CPU "images_inp" in
  let b : t CPU := {| buffer_size := 16; filled_ := 8; device_id_ := 0 |} in
  let size := SIZE_MODULUS - 4 in
  (run Reserve 16 in Allocate storage 8) (snd (create 0 0)) = (Ok (mkPtr storage 0), b) /\
  wf b /\ is_size_t size /\
  Capacity b < filled_ b + size /\
  Allocate storage size b = (Ok (mkPtr storage 8), set_filled 4 b) /\
  Allocate storage 8 (set_filled 4 b) = (Ok (mkPtr storage 4), set_filled 12 b).
Proof.
  cbv zeta. repeat split; try (vm_compute; congruence).
Qed.

Lemma Reserve_grows_only_when_clear_witness :
  let b : t CPU := {| buffer_size := 16; filled_ := 0; device_id_ := 0 |} in
  Reserve 10 b = (Ok tt, b) /\
  (exists b', Reserve 32 b = (Ok tt, b') /\ Capacity b' = 32 /\ filled_ b' = 0) /\
  Reserve (SIZE_MODULUS - 1) b = (Err length_error, b) /\
  Reserve 32 (set_filled 8 b) = (Err enforce_failure, set_filled 8 b).
Proof.
  cbv zeta. split; [| split; [| split]].
  - apply (Reserve_grows_only_when_clear
             ({| buffer_size := 16; filled_ := 0; device_id_ := 0 |} : t CPU) 10).
    cbn. lia.
  - apply (Reserve_grows_only_when_clear
             ({| buffer_size := 16; filled_ := 0; device_id_ := 0 |} : t CPU) 32);
      [cbn; lia | reflexivity | reflexivity].
  - apply (Reserve_grows_only_when_clear
             ({| buffer_size := 16; filled_ := 0; device_id_ := 0 |} : t CPU)
             (SIZE_MODULUS - 1));
      [reflexivity | reflexivity | reflexivity].
  - apply (Reserve_grows_only_when_clear
             ({| buffer_size := 16; filled_ := 8; device_id_ := 0 |} : t CPU) 32);
      cbn; lia.
Defined.

(** *** Sequences of calls *)

Section Calls.
Import IOBufferCalls.
Context {machine : Machine} {Dev : device_type_t}.
Variable storage : block.
Implicit Types (b : t Dev) (c : call).

Lemma set_filled_same b : set_filled (filled_ b) b = b.
Proof. destruct b; reflexivity. Qed.

(** The constructor: it fails only when the storage for [n] bytes is
    refused; the buffer it builds has [n] bytes, none of them claimed, and
    the device index at hand if it is on the accelerator. *)
Lemma create_cases current_device n :
  create (Dev := Dev) current_device n =
    match (if 0 <? n then refused Dev n else None) with
    | Some e => (Err e, {| buffer_size := 0; filled_ := 0; device_id_ := 0 |})
    | None =>
        (Ok tt, {| buffer_size := n; filled_ := 0;
                   device_id_ := if bool_decide (Dev = GPU) then current_device else 0 |})
    end.
Proof.
  unfold create, buffer_resize, bind, get, modify, throw. cbn [buffer_size].
  destruct (0 <? n); [destruct (refused Dev n) |]; reflexivity.
Qed.

Lemma create_wf current_device n b0 :
  is_size_t n -> create (Dev := Dev) current_device n = (Ok tt, b0) ->
  wf b0 /\ Capacity b0 = n /\
  device_id_ b0 = (if bool_decide (Dev = GPU) then current_device else 0).
Proof.
  intros Hn. rewrite create_cases.
  destruct (if 0 <? n then refused Dev n else None); [discriminate |].
  intros [= <-]. unfold is_size_t in Hn. unfold wf, Capacity. cbn. repeat split; lia.
Qed.

(** One call: the representation invariant is kept, the capacity does not
    decrease, the device index stays. *)
Lemma invoke_wf c b :
  wf b -> size_t_call c ->
  let b' := snd (invoke storage c b) in
  wf b' /\ Capacity b <= Capacity b' /\ device_id_ b' = device_id_ b.
Proof.
  intros [Hf Hc] Hsz. unfold wf, Capacity.
  destruct c as [n | | n]; cbn [invoke].
  - unfold Allocate, bind, get, ENFORCE, modify, ret, throw. cbn -[wrap].
    destruct (wrap (filled_ b + n) <=? buffer_size b) eqn:Hle; cbn -[wrap].
    + apply Z.leb_le in Hle. pose proof (wrap_range (filled_ b + n)) as Hw.
      unfold is_size_t in Hw. repeat split; lia.
    + repeat split; lia.
  - cbn. repeat split; lia.
  - rewrite IOBufferFacts.Reserve_cases.
    destruct (buffer_size b <? n) eqn:Hlt; cbn; [| repeat split; lia].
    apply Z.ltb_lt in Hlt. cbn in Hsz. unfold is_size_t in Hsz.
    destruct (filled_ b =? 0) eqn:Hz; cbn; [| repeat split; lia].
    apply Z.eqb_eq in Hz.
    destruct (refused Dev n); cbn; repeat split; lia.
Qed.

Lemma invoke_all_wf cs : forall b,
  wf b -> Forall size_t_call cs ->
  let b' := invoke_all storage cs b in
  wf b' /\ Capacity b <= Capacity b' /\ device_id_ b' = device_id_ b.
Proof.
  induction cs as [| c cs IH]; intros b Hwf Hcs; cbn.
  - repeat split; [apply Hwf | apply Hwf | apply Hwf | lia].
  - inversion Hcs as [| ? ? Hc Hrest]; subst.
    destruct (invoke_wf c b Hwf Hc) as (Hwf1 & Hcap1 & Hid1).
    destruct (IH _ Hwf1 Hrest) as (Hwf2 & Hcap2 & Hid2).
    split; [exact Hwf2 |]. split; [lia | congruence].
Qed.

(** From its construction on, through every sequence of calls of
    [Allocate], [Clear] and [Reserve] with [size_t] arguments, failed calls
    included: the claimed bytes lie within the capacity, which is a
    [size_t] and never below the size the buffer was constructed with; the
    descriptor reports the claimed bytes; the device index is the one set
    by the constructor. *)
Theorem calls_keep_the_buffer_well_formed current_device n cs b0 :
  is_size_t n -> Forall size_t_call cs ->
  create (Dev := Dev) current_device n = (Ok tt, b0) ->
  let b := invoke_all storage cs b0 in
  0 <= filled_ b <= Capacity b /\
  n <= Capacity b < SIZE_MODULUS /\
  size (GetDescr storage b) = filled_ b /\
  device_id (GetDescr storage b) =
    (if bool_decide (Dev = GPU) then current_device else 0).
Proof.
  intros Hn Hcs Hnew.
  destruct (create_wf current_device n b0 Hn Hnew) as (Hwf0 & Hcap0 & Hid0).
  destruct (invoke_all_wf cs _ Hwf0 Hcs) as ([Hf Hc] & Hcap & Hid).
  cbv zeta. unfold Capacity in *.
  repeat split; try lia. cbn [GetDescr device_id]. rewrite Hid. exact Hid0.
Qed.

Lemma chunk_origins_cons from n sizes :
  chunk_origins storage from (n :: sizes) =
    mkPtr storage from :: chunk_origins storage (from + n) sizes.
Proof.
  unfold chunk_origins. cbn [length seq map take ExecutorSpec.sum fold_right].
  rewrite Z.add_0_r. f_equal.
  rewrite <- seq_shift, map_map. apply map_ext. intros i.
  unfold ExecutorSpec.sum. cbn. f_equal. lia.
Qed.

Lemma sum_nonneg sizes :
  Forall (fun n => 0 <= n) sizes -> 0 <= ExecutorSpec.sum sizes.
Proof. intros Hpos. induction Hpos; unfold ExecutorSpec.sum in *; cbn; lia. Qed.

(** Chunks claimed one after the other (their sizes adding up, with what
    is claimed already, within [size_t]) lie end to end: the [i]-th starts
    where the ones before it end, and [filled_] is advanced by the sum of
    the sizes; this happens exactly when the chunks together fit in what is
    left of the capacity.  Otherwise one of the calls fails on its
    [ENFORCE]; the capacity is what it was. *)
Theorem successive_chunks_lie_end_to_end sizes : forall b,
  wf b -> Forall (fun n => 0 <= n) sizes ->
  filled_ b + ExecutorSpec.sum sizes < SIZE_MODULUS ->
  (filled_ b + ExecutorSpec.sum sizes <= Capacity b ->
     allocate_all storage sizes b =
       (Ok (chunk_origins storage (filled_ b) sizes),
        set_filled (filled_ b + ExecutorSpec.sum sizes) b)) /\
  (Capacity b < filled_ b + ExecutorSpec.sum sizes ->
     exists b', allocate_all storage sizes b = (Err enforce_failure, b') /\
                Capacity b' = Capacity b).
Proof.
  induction sizes as [| n sizes IH]; intros b Hwf Hpos Hsmall.
  - cbn. split.
    + intros _. rewrite Z.add_0_r, set_filled_same. reflexivity.
    + destruct Hwf as [Hf _]. unfold Capacity. lia.
  - inversion Hpos as [| ? ? Hn Hrest]; subst.
    pose proof (sum_nonneg _ Hrest) as Hsum.
    destruct Hwf as [Hf Hc]. unfold Capacity in *.
    cbn [allocate_all ExecutorSpec.sum fold_right] in *.
    fold (ExecutorSpec.sum sizes) in *.
    unfold bind at 1 3. rewrite Allocate_no_overflow by lia.
    destruct (filled_ b + n <=? buffer_size b) eqn:Hfit.
    + apply Z.leb_le in Hfit.
      destruct (IH (set_filled (filled_ b + n) b)) as [IHfit IHover];
        [unfold wf; cbn; lia | exact Hrest | cbn; lia |].
      cbn [set_filled filled_ buffer_size] in IHfit, IHover. split.
      * intros Htot. unfold bind. rewrite IHfit by lia.
        rewrite chunk_origins_cons. unfold ret. f_equal.
        unfold set_filled. cbn. f_equal. lia.
      * intros Htot. destruct IHover as (b' & Hrun & Hcap); [lia |].
        exists b'. unfold bind. rewrite Hrun. split; [reflexivity | exact Hcap].
    + apply Z.leb_gt in Hfit. split; [lia |]. intros _. exists b.
      split; reflexivity.
Qed.

(** A call that fails has changed nothing.  [Clear] never fails;
    [Allocate] only fails on its [ENFORCE]; [Reserve] fails on its
    [ENFORCE] when something is claimed, and otherwise with the exception
    of [buffer_.resize], when the storage it asks for is refused. *)
Theorem failed_call_changes_nothing c b e b' :
  invoke storage c b = (Err e, b') ->
  b' = b /\
  match c with
  | CallClear => False
  | CallAllocate _ => e = enforce_failure
  | CallReserve size =>
      Capacity b < size /\
      if filled_ b =? 0 then refused Dev size = Some e else e = enforce_failure
  end.
Proof.
  destruct c as [n | | n]; cbn [invoke].
  - unfold Allocate, bind, get, ENFORCE, modify, ret, throw.
    destruct (wrap (filled_ b + n) <=? buffer_size b); [discriminate |].
    intros [= <- <-]. split; reflexivity.
  - discriminate.
  - rewrite IOBufferFacts.Reserve_cases. unfold Capacity.
    destruct (buffer_size b <? n) eqn:Hlt; [| discriminate].
    apply Z.ltb_lt in Hlt.
    destruct (filled_ b =? 0).
    + destruct (refused Dev n) as [e' |] eqn:Href; [| discriminate].
      intros [= <- <-]. repeat split. exact Hlt.
    + intros [= <- <-]. repeat split. exact Hlt.
Qed.

(** [Clear] gives the whole capacity back without releasing memory: the
    next [Allocate] of a [size_t] size succeeds exactly when the size is
    within the capacity, and the chunk then starts where the storage
    starts, at the address the descriptor had all along. *)
Theorem Clear_gives_the_capacity_back b n :
  is_size_t n ->
  (run Clear in Allocate storage n) b =
    if n <=? Capacity b
    then (Ok (data (GetDescr storage b)), set_filled n b)
    else (Err enforce_failure, set_filled 0 b).
Proof.
  intros Hn. unfold bind at 1, Clear, modify.
  rewrite Allocate_no_overflow by (cbn; unfold is_size_t in Hn; lia).
  cbn. unfold Capacity. rewrite Z.add_0_l.
  destruct (n <=? buffer_size b); reflexivity.
Qed.

End Calls.

Lemma size_t_literal z : (0 <=? z) && (z <? SIZE_MODULUS) = true -> is_size_t z.
Proof.
  intros Hz. apply andb_prop in Hz as [Hlo Hhi].
  apply Z.leb_le in Hlo. apply Z.ltb_lt in Hhi. split; assumption.
Qed.

Lemma calls_keep_the_buffer_well_formed_witness :
  let cs := [IOBufferCalls.CallReserve 16; IOBufferCalls.CallAllocate 8;
             IOBufferCalls.CallAllocate 16; IOBufferCalls.CallClear;
             IOBufferCalls.CallReserve 32; IOBufferCalls.CallAllocate 24] in
  let b : t GPU :=
    IOBufferCalls.invoke_all (Pooled GPU "images_inp") cs (snd (create 3 0)) in
  filled_ b = 24 /\ Capacity b = 32 /\
  0 <= filled_ b <= Capacity b /\ 0 <= Capacity b < SIZE_MODULUS /\
  device_id (GetDescr (Pooled GPU "images_inp") b) = 3.
Proof.
  cbv zeta. split; [reflexivity |]. split; [reflexivity |].
  destruct (calls_keep_the_buffer_well_formed (Dev := GPU) (Pooled GPU "images_inp") 3 0
              [IOBufferCalls.CallReserve 16; IOBufferCalls.CallAllocate 8;
               IOBufferCalls.CallAllocate 16; IOBufferCalls.CallClear;
               IOBufferCalls.CallReserve 32; IOBufferCalls.CallAllocate 24]
              (snd (create 3 0)))
    as (Hf & Hc & _ & Hid).
  - apply size_t_literal. reflexivity.
  - repeat constructor; apply size_t_literal; reflexivity.
  - reflexivity.
  - split; [exact Hf |]. split; [exact Hc | exact Hid].
Defined.

Lemma successive_chunks_lie_end_to_end_witness :
  let storage := Pooled CPU "images_inp" in
  let b : t CPU := {| buffer_size := 600; filled_ := 0; device_id_ := 0 |} in
  IOBufferCalls.allocate_all storage [100; 200; 300] b =
    (Ok [mkPtr storage 0; mkPtr storage 100; mkPtr storage 300], set_filled 600 b) /\
  exists b', IOBufferCalls.allocate_all storage [100; 200; 301] b =
               (Err enforce_failure, b') /\ Capacity b' = 600.
Proof.
  cbv zeta. split.
  - apply (successive_chunks_lie_end_to_end (Pooled CPU "images_inp") [100; 200; 300]
             ({| buffer_size := 600; filled_ := 0; device_id_ := 0 |} : t CPU)).
    + split; [cbn; lia | reflexivity].
    + repeat constructor; lia.
    + reflexivity.
    + cbn. lia.
  - apply (successive_chunks_lie_end_to_end (Pooled CPU "images_inp") [100; 200; 301]
             ({| buffer_size := 600; filled_ := 0; device_id_ := 0 |} : t CPU)).
    + split; [cbn; lia | reflexivity].
    + repeat constructor; lia.
    + reflexivity.
    + cbn. lia.
Defined.

Lemma failed_call_changes_nothing_witness :
  let b : t CPU := {| buffer_size := 16; filled_ := 0; device_id_ := 0 |} in
  (exists e b',
     IOBufferCalls.invoke (Pooled CPU "images_inp") (IOBufferCalls.CallReserve 32)
       (set_filled 8 b) = (Err e, b') /\
     b' = set_filled 8 b /\ e = enforce_failure) /\
  (exists e b',
     IOBufferCalls.invoke (Pooled CPU "images_inp")
       (IOBufferCalls.CallReserve (SIZE_MODULUS - 1)) b = (Err e, b') /\
     b' = b /\ refused CPU (SIZE_MODULUS - 1) = Some e).
Proof.
  cbv zeta. split.
  - eexists. eexists. split; [reflexivity |].
    destruct (failed_call_changes_nothing (Pooled CPU "images_inp")
                (IOBufferCalls.CallReserve 32)
                ({| buffer_size := 16; filled_ := 8; device_id_ := 0 |} : t CPU)
                enforce_failure _ eq_refl) as (Hb & _ & He).
    split; [exact Hb | exact He].
  - assert (Hrun : IOBufferCalls.invoke (Pooled CPU "images_inp")
                     (IOBufferCalls.CallReserve (SIZE_MODULUS - 1))
                     ({| buffer_size := 16; filled_ := 0; device_id_ := 0 |} : t CPU) =
                   (Err length_error,
                    {| buffer_size := 16; filled_ := 0; device_id_ := 0 |}))
      by reflexivity.
    eexists. eexists. split; [exact Hrun |].
    destruct (failed_call_changes_nothing _ _ _ _ _ Hrun) as (Hb & _ & He).
    split; [exact Hb | exact He].
Defined.

Lemma Clear_gives_the_capacity_back_witness :
  let storage := Pooled CPU "images_inp" in
  let b : t CPU := {| buffer_size := 16; filled_ := 12; device_id_ := 0 |} in
  (run Clear in Allocate storage 16) b = (Ok (mkPtr storage 0), set_filled 16 b) /\
  (run Clear in Allocate storage 17) b = (Err enforce_failure, set_filled 0 b).
Proof.
  cbv zeta. split.
  - apply (Clear_gives_the_capacity_back (Pooled CPU "images_inp")
             ({| buffer_size := 16; filled_ := 12; device_id_ := 0 |} : t CPU) 16).
    apply size_t_literal. reflexivity.
  - apply (Clear_gives_the_capacity_back (Pooled CPU "images_inp")
             ({| buffer_size := 16; filled_ := 12; device_id_ := 0 |} : t CPU) 17).
    apply size_t_literal. reflexivity.
Defined.

End IOBufferFacts.

(** ** The monad *)

Lemma bind_Ok {S A B} (c : M S A) (k : A -> M S B) s a s' :
  c s = (Ok a, s') -> bind c k s = k a s'.
Proof. intros E. unfold bind. rewrite E. reflexivity. Qed.

Lemma bind_Err {S A B} (c : M S A) (k : A -> M S B) s e s' :
  c s = (Err e, s') -> bind c k s = (Err e, s').
Proof. intros E. unfold bind. rewrite E. reflexivity. Qed.

Lemma bind_Ok_inv {S A B} (c : M S A) (k : A -> M S B) s b s2 :
  bind c k s = (Ok b, s2) ->
  exists a s1, c s = (Ok a, s1) /\ k a s1 = (Ok b, s2).
Proof.
  unfold bind. destruct (c s) as [[a | e] s1]; [eauto | discriminate].
Qed.

(** ** Memory *)

Lemma read_length m p n : length (read m p n) = Z.to_nat n.
Proof. unfold read. rewrite length_map, length_seq. reflexivity. Qed.

Lemma read_nth m p n k d :
  (k < Z.to_nat n)%nat ->
  nth k (read m p n) d = load m (ptr_add p (Z.of_nat k)).
Proof.
  intros Hk. unfold read.
  rewrite (nth_indep _ d (load m (ptr_add p (Z.of_nat 0))))
    by (rewrite length_map, length_seq; exact Hk).
  rewrite (map_nth (fun i => load m (ptr_add p (Z.of_nat i)))).
  rewrite seq_nth by exact Hk. reflexivity.
Qed.

Lemma complete_all_app ts1 ts2 m :
  complete_all (ts1 ++ ts2) m = complete_all ts2 (complete_all ts1 m).
Proof. unfold complete_all. apply fold_left_app. Qed.

(** Copies into staging storage leave the caller's memory as it was. *)
Lemma complete_all_caller ts m id o :
  Forall (fun t => is_pooled (blk (dst t)) = true) ts ->
  complete_all ts m (Caller id) o = m (Caller id) o.
Proof.
  revert m. induction ts as [| t ts IH]; intros m Hts; [reflexivity |].
  inversion Hts as [| ? ? Ht Hrest]; subst.
  cbn. rewrite IH by exact Hrest.
  unfold copied, in_range.
  destruct (bool_decide (Caller id = blk (dst t))) eqn:E; [| reflexivity].
  apply bool_decide_eq_true in E. rewrite <- E in Ht. discriminate.
Qed.

(** A byte every covering task agrees on is the byte found once all tasks
    are complete, whatever their order. *)
Lemma complete_all_covered ts m b o v :
  Forall (fun t => is_pooled (blk (dst t)) = true) ts ->
  (exists t, In t ts /\ in_range (dst t) (nbytes t) b o = true) ->
  (forall t, In t ts -> in_range (dst t) (nbytes t) b o = true ->
     exists id, blk (src t) = Caller id /\
                m (Caller id) (off (src t) + (o - off (dst t))) = v) ->
  complete_all ts m b o = v.
Proof.
  induction ts as [| t ts IH] using rev_ind; intros Hpool Hcov Hval.
  - destruct Hcov as (t & [] & _).
  - apply Forall_app in Hpool as [Hpool Ht].
    rewrite complete_all_app. cbn. unfold copied at 1.
    destruct (in_range (dst t) (nbytes t) b o) eqn:Hin.
    + destruct (Hval t) as (id & Hsrc & Hv); [apply in_or_app; right; left; reflexivity | exact Hin |].
      rewrite Hsrc, complete_all_caller by exact Hpool. exact Hv.
    + apply IH; [exact Hpool | |].
      * destruct Hcov as (t' & Hin' & Hcov').
        apply in_app_or in Hin' as [Hin' | [<- | []]]; [eauto | congruence].
      * intros t' Hin'. apply Hval. apply in_or_app. left. exact Hin'.
Qed.

(** ** Fragments and their copies *)

Lemma total_size_from acc bufs :
  Forall (fun b => 0 <= size b) bufs ->
  0 <= acc -> acc + sum_sizes bufs < SIZE_MODULUS ->
  fold_left (fun acc buf => wrap (acc + size buf)) bufs acc = acc + sum_sizes bufs.
Proof.
  revert acc. induction bufs as [| b bufs IH]; intros acc Hpos Hacc Hsum; cbn in *.
  - lia.
  - inversion Hpos as [| ? ? Hb Hrest]; subst.
    assert (0 <= sum_sizes bufs).
    { clear -Hrest. induction Hrest; cbn; [lia |]. unfold sum_sizes in *. lia. }
    rewrite wrap_small by (unfold is_size_t; unfold sum_sizes in *; lia).
    rewrite IH; [unfold sum_sizes; cbn; lia | exact Hrest | lia |].
    unfold sum_sizes in *. lia.
Qed.

Lemma sum_sizes_nonneg bufs :
  Forall (fun b => 0 <= size b) bufs -> 0 <= sum_sizes bufs.
Proof. intros Hpos. induction Hpos; cbn; [lia |]. unfold sum_sizes in *. cbn. lia. Qed.

(** Without overflow the [size_t] accumulation is the sum. *)
Lemma total_size_sum bufs :
  Forall (fun b => 0 <= size b) bufs ->
  sum_sizes bufs < SIZE_MODULUS ->
  DaliExecutor.total_size bufs = sum_sizes bufs.
Proof.
  intros Hpos Hsum. unfold DaliExecutor.total_size.
  rewrite total_size_from; [lia | exact Hpos | lia | lia].
Qed.

Lemma total_size_range bufs : is_size_t (DaliExecutor.total_size bufs).
Proof.
  unfold DaliExecutor.total_size.
  assert (Hgen : forall acc, is_size_t acc ->
            is_size_t (fold_left (fun acc buf => wrap (acc + size buf)) bufs acc)).
  { induction bufs as [| b bufs IH]; intros acc Hacc; cbn; [exact Hacc |].
    apply IH. apply wrap_range. }
  apply Hgen. unfold is_size_t. cbv. split; [discriminate | reflexivity].
Qed.

Lemma fragment_tasks_length dd p bufs :
  length (fragment_tasks dd p bufs) = length bufs.
Proof. revert p. induction bufs; intros p; cbn; [reflexivity | f_equal; auto]. Qed.

Lemma fragment_tasks_dst dd p bufs t :
  Forall (fun b => 0 <= size b) bufs ->
  In t (fragment_tasks dd p bufs) ->
  blk (dst t) = blk p /\ off p <= off (dst t) /\ dst_dev t = dd.
Proof.
  revert p. induction bufs as [| b bufs IH]; intros p Hpos Hin; [destruct Hin |].
  inversion Hpos as [| ? ? Hb Hrest]; subst.
  destruct Hin as [<- | Hin]; cbn; [repeat split; lia |].
  destruct (IH _ Hrest Hin) as (Hblk & Hoff & Hdev). cbn in *.
  repeat split; [exact Hblk | lia | exact Hdev].
Qed.

Lemma fragment_tasks_block dd p bufs :
  Forall (fun t => dst_dev t = dd /\ blk (dst t) = blk p) (fragment_tasks dd p bufs).
Proof.
  revert p. induction bufs as [| b bufs IH]; intros p; cbn; constructor.
  - split; reflexivity.
  - apply (IH (ptr_add p (size b))).
Qed.

Lemma fragment_tasks_src dd p bufs :
  Forall (fun t => exists buf, In buf bufs /\ src_dev t = device buf)
         (fragment_tasks dd p bufs).
Proof.
  revert p. induction bufs as [| b bufs IH]; intros p; cbn; constructor.
  - exists b. split; [left; reflexivity | reflexivity].
  - eapply List.Forall_impl; [| apply IH].
    intros t (buf' & Hin & Heq). exists buf'. split; [right; exact Hin | exact Heq].
Qed.

(** The [i]-th task copies the [i]-th fragment to the offset that is the
    sum of the lengths of the fragments before it. *)
Lemma fragment_tasks_lookup dd p bufs i buf :
  bufs !! i = Some buf ->
  fragment_tasks dd p bufs !! i =
    Some (mkTask dd (ptr_add p (sum_sizes (take i bufs)))
                 (device buf) (data buf) (size buf)).
Proof.
  revert p i. induction bufs as [| b bufs IH]; intros p i Hi; [discriminate |].
  destruct i as [| i]; cbn in *.
  - injection Hi as ->. unfold ptr_add, sum_sizes. cbn.
    rewrite Z.add_0_r. destruct p; reflexivity.
  - rewrite (IH _ _ Hi). do 2 f_equal. unfold ptr_add, sum_sizes. cbn.
    f_equal. lia.
Qed.

(** Every task of a fragment list, read in the memory the fragments were
    in, yields the byte the concatenation has at the covered place. *)
Lemma fragment_tasks_value dd p bufs m t o d :
  Forall (fun b => 0 <= size b) bufs ->
  In t (fragment_tasks dd p bufs) ->
  in_range (dst t) (nbytes t) (blk p) o = true ->
  load m (ptr_add (src t) (o - off (dst t))) =
  nth (Z.to_nat (o - off p)) (flat_map (fun b => read m (data b) (size b)) bufs) d.
Proof.
  revert p. induction bufs as [| b bufs IH]; intros p Hpos Hin Hcov; [destruct Hin |].
  inversion Hpos as [| ? ? Hb Hrest]; subst.
  cbn [flat_map]. destruct Hin as [<- | Hin].
  - unfold in_range in Hcov. cbn in Hcov.
    apply andb_prop in Hcov as [Hcov Hhi]. apply andb_prop in Hcov as [_ Hlo].
    apply Z.leb_le in Hlo. apply Z.ltb_lt in Hhi.
    rewrite app_nth1 by (rewrite read_length; lia).
    rewrite read_nth by lia. cbn. rewrite Z2Nat.id by lia. reflexivity.
  - pose proof (fragment_tasks_dst _ _ _ _ Hrest Hin) as (Hblk & Hoff & _).
    cbn in Hblk, Hoff.
    assert (Hcov' : in_range (dst t) (nbytes t) (blk (ptr_add p (size b))) o = true)
      by exact Hcov.
    unfold in_range in Hcov.
    apply andb_prop in Hcov as [Hcov Hhi]. apply andb_prop in Hcov as [_ Hlo].
    apply Z.leb_le in Hlo.
    rewrite app_nth2 by (rewrite read_length; lia).
    rewrite read_length.
    rewrite (IH _ Hrest Hin Hcov'). cbn. f_equal. lia.
Qed.

(** Every place of the destination range is covered by some task. *)
Lemma fragment_tasks_cover dd p bufs o :
  Forall (fun b => 0 <= size b) bufs ->
  off p <= o < off p + sum_sizes bufs ->
  exists t, In t (fragment_tasks dd p bufs) /\
            in_range (dst t) (nbytes t) (blk p) o = true.
Proof.
  revert p. induction bufs as [| b bufs IH]; intros p Hpos Ho.
  - unfold sum_sizes in Ho. cbn in Ho. lia.
  - inversion Hpos as [| ? ? Hb Hrest]; subst.
    destruct (Z_lt_dec o (off p + size b)) as [Hlt | Hge].
    + eexists. split; [left; reflexivity |].
      unfold in_range. cbn. rewrite bool_decide_eq_true_2 by reflexivity.
      cbn. apply andb_true_intro. split; [apply Z.leb_le | apply Z.ltb_lt]; lia.
    + destruct (IH (ptr_add p (size b)) Hrest) as (t & Hin & Hcov).
      { unfold sum_sizes in *. cbn in *. lia. }
      exists t. split; [right; exact Hin | exact Hcov].
Qed.

(** ** The executor *)

Module ExecutorFacts.
Import DaliExecutor ExecutorSpec.

Section WithApi.
Context {H : Type} {api : DaliApi H} {machine : Machine}.
Implicit Types (w : World H) (e : DaliExecutor.t H).

Local Abbreviation follows c := (ExecutorSpec.follows (H := H) c).
Local Abbreviation stream_blind c := (ExecutorSpec.stream_blind (H := H) c).
Local Abbreviation keeps_config c := (ExecutorSpec.keeps_config (H := H) c).
Local Abbreviation execute := (ExecutorSpec.execute (H := H)).
Local Abbreviation sound c := (ExecutorSpec.sound (H := H) c).

Lemma buffers_of_set_buffers dev m e :
  buffers_of dev (set_buffers dev m e) = m.
Proof. destruct dev; reflexivity. Qed.

Lemma pipeline_set_buffers dev m e :
  pipeline_ (set_buffers dev m e) = pipeline_ e.
Proof. destruct dev; reflexivity. Qed.

Lemma thread_pool_set_buffers dev m e :
  thread_pool_ (set_buffers dev m e) = thread_pool_ e.
Proof. destruct dev; reflexivity. Qed.

Lemma set_buffers_twice dev m1 m2 e :
  set_buffers dev m2 (set_buffers dev m1 e) = set_buffers dev m2 e.
Proof. destruct dev; reflexivity. Qed.

(** *** Copies as the workers run them *)

Lemma issue_all_app ts1 ts2 c :
  issue_all (ts1 ++ ts2) c = issue_all ts2 (issue_all ts1 c).
Proof. unfold issue_all. apply fold_left_app. Qed.

Lemma issue_all_cons t ts c : issue_all (t :: ts) c = issue_all ts (issue c t).
Proof. reflexivity. Qed.

Lemma issue_all_nil c : issue_all [] c = c.
Proof. reflexivity. Qed.

(** What has landed before stays, in front. *)
Lemma issue_all_landed ts : forall L q errs,
  issue_all ts (mkCopies L q errs) =
    mkCopies (L ++ landed (issue_all ts (mkCopies [] q errs)))
             (pending (issue_all ts (mkCopies [] q errs)))
             (failed (issue_all ts (mkCopies [] q errs))).
Proof.
  induction ts as [| t ts IH]; intros L q errs.
  - rewrite !issue_all_nil. cbn. rewrite app_nil_r. reflexivity.
  - rewrite !issue_all_cons. unfold issue.
    cbn [landed pending failed app].
    destruct (host_to_host t).
    + rewrite (IH (L ++ [t])), (IH [t]). cbn [landed pending failed].
      rewrite <- app_assoc. reflexivity.
    + destruct (copy_error t) as [err |].
      * rewrite (IH L). reflexivity.
      * destruct (completes_at_once t).
        -- rewrite (IH (L ++ q ++ [t])), (IH (q ++ [t])). cbn [landed pending failed].
           rewrite <- app_assoc. reflexivity.
        -- rewrite (IH L). reflexivity.
Qed.


(** Every copy that landed was run here or was on the default stream
    before; every host-to-host copy that was run has landed. *)
Lemma issue_all_origin ts : forall c t,
  In t (landed (issue_all ts c)) -> In t (landed c) \/ In t (pending c) \/ In t ts.
Proof.
  induction ts as [| t0 ts IH]; intros c t Hin; [left; exact Hin |].
  rewrite issue_all_cons in Hin.
  apply IH in Hin. unfold issue in Hin.
  destruct (host_to_host t0); [| destruct (copy_error t0); [| destruct (completes_at_once t0)]];
    cbn [landed pending failed] in Hin; rewrite ?in_app_iff in Hin; cbn [In] in *; tauto.
Qed.

Lemma issue_all_keeps ts : forall c t,
  In t (landed c) -> In t (landed (issue_all ts c)).
Proof.
  induction ts as [| t0 ts IH]; intros c t Hin; [exact Hin |].
  rewrite issue_all_cons. apply IH. unfold issue.
  destruct (host_to_host t0); [| destruct (copy_error t0); [| destruct (completes_at_once t0)]];
    cbn [landed]; rewrite ?in_app_iff; tauto.
Qed.

Lemma issue_all_host_landed ts : forall c t,
  In t ts -> host_to_host t = true -> In t (landed (issue_all ts c)).
Proof.
  induction ts as [| t0 ts IH]; intros c t Hin Hhost; [destruct Hin |].
  rewrite issue_all_cons.
  destruct Hin as [-> | Hin]; [| apply IH; assumption].
  apply issue_all_keeps. unfold issue. rewrite Hhost. cbn [landed].
  apply in_or_app. right. left. reflexivity.
Qed.

(** The failures of the copies [ts], in order. *)
Lemma issue_all_failed ts : forall c,
  failed (issue_all ts c) =
    failed c ++
    flat_map (fun t => if host_to_host t then []
                       else match copy_error t with Some e => [e] | None => [] end) ts.
Proof.
  induction ts as [| t ts IH]; intros c; cbn [flat_map].
  - rewrite issue_all_nil, app_nil_r. reflexivity.
  - rewrite issue_all_cons, IH. unfold issue.
    destruct (host_to_host t); [| destruct (copy_error t); [| destruct (completes_at_once t)]];
      cbn [failed app]; rewrite <- ?app_assoc; reflexivity.
Qed.

Lemma issue_all_split ts c :
  issue_all ts c =
    mkCopies (landed c ++ landed (issue_all ts (mkCopies [] (pending c) (failed c))))
             (pending (issue_all ts (mkCopies [] (pending c) (failed c))))
             (failed (issue_all ts (mkCopies [] (pending c) (failed c)))).
Proof. destruct c as [L q errs]. apply issue_all_landed. Qed.

(** A copy that is settled has landed; copies that do not fail add no
    failure. *)
Lemma issue_all_settled ts : forall c t,
  In t ts -> settled t -> In t (landed (issue_all ts c)).
Proof.
  induction ts as [| t0 ts IH]; intros c t Hin Hset; [destruct Hin |].
  rewrite issue_all_cons.
  destruct Hin as [-> | Hin]; [| apply IH; assumption].
  apply issue_all_keeps. unfold issue.
  destruct Hset as [Hhost | [Hok Honce]].
  - rewrite Hhost. cbn [landed]. apply in_or_app. right. left. reflexivity.
  - destruct (host_to_host t).
    + cbn [landed]. apply in_or_app. right. left. reflexivity.
    + rewrite Hok, Honce. cbn [landed]. rewrite !in_app_iff. right. right. left. reflexivity.
Qed.


Lemma issue_all_unfailing ts c :
  Forall unfailing ts -> failed (issue_all ts c) = failed c.
Proof.
  intros Hts. rewrite issue_all_failed.
  replace (flat_map _ ts) with (@nil failure); [apply app_nil_r |].
  induction Hts as [| t ts Ht Hrest IH]; [reflexivity |].
  cbn [flat_map]. rewrite <- IH.
  destruct Ht as [-> | ->]; [reflexivity |].
  destruct (host_to_host t); reflexivity.
Qed.

Lemma after_copies_app ts1 ts2 w :
  after_copies ts2 (after_copies ts1 w) = after_copies (ts1 ++ ts2) w.
Proof.
  unfold after_copies, copies_in, errors.
  cbn [default_stream self memory scheduler current_device trace set_errors
       thread_pool_ errors_ pipeline_ cpu_buffers_ gpu_buffers_ work_queue_].
  rewrite issue_all_app.
  set (c1 := issue_all ts1 _).
  rewrite (issue_all_split ts2 c1). cbn [landed pending failed].
  rewrite complete_all_app, map_app, app_assoc. reflexivity.
Qed.

Lemma after_copies_nil w : after_copies [] w = w.
Proof.
  unfold after_copies, copies_in. cbn. rewrite app_nil_r.
  destruct w as [[? [? ?] ? ?] ? ? ? ? ?]; reflexivity.
Qed.

Lemma perform_spec t w : perform t w = (Ok tt, after_copies [t] w).
Proof.
  destruct w as [[? [? ?] ? ?] ? ? ? ? ?].
  unfold perform, bind, emit, modify, after_copies, copies_in, MemCopy, errors.
  rewrite issue_all_cons, issue_all_nil. unfold issue. cbn.
  destruct (host_to_host t); [reflexivity |].
  destruct (copy_error t) as [err |]; [reflexivity |].
  destruct (completes_at_once t); reflexivity.
Qed.

Lemma perform_all_spec ts : forall w, perform_all ts w = (Ok tt, after_copies ts w).
Proof.
  induction ts as [| t ts IH]; intros w.
  - cbn. unfold ret. rewrite after_copies_nil. reflexivity.
  - cbn [perform_all]. unfold bind at 1. rewrite perform_spec, IH.
    rewrite after_copies_app. reflexivity.
Qed.

Lemma RunAll_spec w : RunAll w = (drain_result w, drained w).
Proof.
  unfold RunAll. unfold bind at 1, emit at 1, modify at 1.
  unfold bind at 1, get at 1. unfold bind at 1.
  rewrite perform_all_spec. unfold bind at 1, get at 1. unfold bind at 1, modify at 1.
  unfold drain_result, drained, run_order, queue, after_copies, copies_in, errors.
  cbn [self set_trace scheduler default_stream memory current_device trace
       set_errors set_self thread_pool_ errors_ work_queue_ set_queue pipeline_
       cpu_buffers_ gpu_buffers_].
  destruct (failed _) as [| err errs]; unfold ret, throw;
    rewrite <- app_assoc; reflexivity.
Qed.

Lemma trace_drained w :
  trace (drained w) = trace w ++ EvRunAll :: map EvMemCopy (run_order w).
Proof. reflexivity. Qed.

Lemma copies_in_after ts1 ts2 w :
  copies_in w (ts1 ++ ts2) =
    mkCopies (landed (copies_in w ts1) ++ landed (copies_in (after_copies ts1 w) ts2))
             (pending (copies_in (after_copies ts1 w) ts2))
             (failed (copies_in (after_copies ts1 w) ts2)).
Proof.
  unfold copies_in at 1. rewrite issue_all_app.
  fold (copies_in w ts1). rewrite issue_all_split. reflexivity.
Qed.

Lemma copies_in_set_trace tr w ts : copies_in (set_trace tr w) ts = copies_in w ts.
Proof. reflexivity. Qed.

Lemma scheduled_nil w : scheduled [] w = w.
Proof.
  unfold scheduled, copies_in. cbn. rewrite !app_nil_r.
  destruct w as [[? [? ?] ? ?] ? ? ? ? ?]; reflexivity.
Qed.

(** A task a worker takes up at once, and one that is queued. *)
Lemma scheduled_cons_early t ts w :
  starts_early (scheduler w) t = true ->
  scheduled ts (after_copies [t] (set_trace (trace w ++ [EvAddWork t (nbytes t) true]) w)) =
  scheduled (t :: ts) w.
Proof.
  intros Hearly.
  assert (He : is_early (scheduler w) t = true) by exact Hearly.
  assert (Hq : is_queued (scheduler w) t = false)
    by (unfold is_queued; rewrite Hearly; reflexivity).
  destruct w as [[p [q errs] cb gb] m strm s cd tr].
  unfold scheduled, after_copies, copies_in, queue, errors in *.
  cbn [self memory default_stream scheduler current_device trace set_trace
       set_errors set_queue thread_pool_ errors_ work_queue_ pipeline_
       cpu_buffers_ gpu_buffers_ List.filter flat_map] in *.
  rewrite He, Hq. unfold announce at 2. cbn [andb]. rewrite Hearly.
  rewrite !issue_all_cons, issue_all_nil.
  rewrite (issue_all_split _ (issue _ t)). cbn [landed pending failed].
  f_equal.
  - rewrite complete_all_app. reflexivity.
  - cbn [map app]. rewrite <- !app_assoc. reflexivity.
Qed.

Lemma scheduled_cons_queued t ts w :
  starts_early (scheduler w) t = false ->
  scheduled ts (set_self (set_queue (queue w ++ [mkWork t (nbytes t)]) (self w))
                         (set_trace (trace w ++ [EvAddWork t (nbytes t) true]) w)) =
  scheduled (t :: ts) w.
Proof.
  intros Hlate.
  assert (He : is_early (scheduler w) t = false) by exact Hlate.
  assert (Hq : is_queued (scheduler w) t = true)
    by (unfold is_queued; rewrite Hlate; reflexivity).
  destruct w as [[p [q errs] cb gb] m strm s cd tr].
  unfold scheduled, copies_in, queue, errors in *.
  cbn [self memory default_stream scheduler current_device trace set_trace set_self
       set_errors set_queue thread_pool_ errors_ work_queue_ pipeline_
       cpu_buffers_ gpu_buffers_ List.filter flat_map] in *.
  rewrite He, Hq. unfold announce at 2. cbn [andb]. rewrite Hlate.
  f_equal.
  - unfold as_work. cbn [map]. rewrite <- !app_assoc. reflexivity.
  - cbn [app]. rewrite <- !app_assoc. reflexivity.
Qed.

Lemma schedule_fragments_spec d p bufs w :
  schedule_fragments d p bufs w =
    (Ok tt, scheduled (fragment_tasks (device d) p bufs) w).
Proof.
  revert p w. induction bufs as [| b bufs IH]; intros p w.
  - cbn. unfold ret. rewrite scheduled_nil. reflexivity.
  - cbn [schedule_fragments fragment_tasks].
    unfold bind at 1. unfold AddWork at 1.
    unfold bind at 1, emit at 1, modify at 1. unfold bind at 1, get at 1.
    cbn [scheduler set_trace andb].
    set (t := mkTask (device d) p (device b) (data b) (size b)).
    destruct (starts_early (scheduler w) t) eqn:Hearly.
    + rewrite perform_spec, IH.
      rewrite <- (scheduled_cons_early t _ w Hearly). reflexivity.
    + unfold modify. rewrite IH.
      rewrite <- (scheduled_cons_queued t _ w Hearly). reflexivity.
Qed.

Lemma on_buffer_resize dev key size w :
  is_size_t size ->
  on_buffer dev key (fun storage => IOBuffer.resize storage size) w =
    match shortfall dev key size w with
    | Some err => (Err err, with_buffer dev key (cleared dev key w) w)
    | None => (Ok tt, with_buffer dev key (resized dev key size w) w)
    end.
Proof.
  intros Hs. unfold on_buffer, shortfall, IOBuffer.Capacity.
  rewrite IOBufferFacts.resize_cases by exact Hs.
  destruct (if _ <? _ then _ else _); reflexivity.
Qed.

Lemma buffer_at_with_buffer dev key b w :
  buffer_at dev key (with_buffer dev key b w) = b.
Proof.
  unfold buffer_at, with_buffer. cbn.
  rewrite buffers_of_set_buffers, lookup_insert_eq. reflexivity.
Qed.

Lemma on_buffer_get_descr dev key b w :
  on_buffer dev key IOBuffer.get_descr (with_buffer dev key b w) =
    (Ok (IOBuffer.GetDescr (Pooled dev key) b), with_buffer dev key b w).
Proof.
  unfold on_buffer. rewrite buffer_at_with_buffer.
  unfold IOBuffer.get_descr, bind, get, ret. cbn.
  unfold with_buffer. cbn.
  rewrite buffers_of_set_buffers, insert_insert_eq, set_buffers_twice.
  reflexivity.
Qed.

(** [ScheduleInputCopy] fails only when the staging buffer is too small
    and the storage to make it larger is refused; it has then claimed
    nothing and handed no copy to the thread pool. *)
Lemma ScheduleInputCopy_spec input first rest w :
  buffers input = first :: rest ->
  let dev := staging_device first in
  let key := staging_key input in
  let b := resized dev key (total_size (buffers input)) w in
  let d := IOBuffer.GetDescr (Pooled dev key) b in
  ScheduleInputCopy input w =
    match shortfall dev key (total_size (buffers input)) w with
    | Some err => (Err err, with_buffer dev key (cleared dev key w) w)
    | None =>
        (Ok (mkIODescr (meta input) [d]),
         scheduled (fragment_tasks dev (mkPtr (Pooled dev key) 0) (buffers input))
                   (with_buffer dev key b w))
    end.
Proof.
  intros Hbufs. cbv zeta. unfold ScheduleInputCopy. rewrite Hbufs.
  rewrite <- Hbufs. fold (staging_device first). fold (staging_key input).
  unfold bind at 1. rewrite on_buffer_resize by apply total_size_range.
  destruct (shortfall _ _ _ w); [reflexivity |].
  erewrite bind_Ok by apply on_buffer_get_descr.
  erewrite bind_Ok by apply schedule_fragments_spec.
  reflexivity.
Qed.

Lemma staging_device_first first : staging_device first = device first.
Proof. unfold staging_device. destruct (device first); reflexivity. Qed.

Lemma added_tasks_announce s imm ts :
  added_tasks (flat_map (announce s imm) ts) = ts.
Proof.
  induction ts as [| t ts IH]; [reflexivity |].
  cbn [flat_map]. unfold added_tasks in *. rewrite flat_map_app, IH.
  unfold announce. destruct (imm && starts_early s t); reflexivity.
Qed.

Lemma added_sizes_announce s imm ts :
  added_sizes (flat_map (announce s imm) ts) = map nbytes ts.
Proof.
  induction ts as [| t ts IH]; [reflexivity |].
  cbn [flat_map map]. unfold added_sizes in *. rewrite flat_map_app, IH.
  unfold announce. destruct (imm && starts_early s t); reflexivity.
Qed.

Lemma fragment_tasks_nbytes dd p bufs :
  map nbytes (fragment_tasks dd p bufs) = map size bufs.
Proof. revert p. induction bufs; intros p; cbn; [reflexivity | f_equal; auto]. Qed.

Lemma concat_reads_length m bufs :
  Forall (fun b => 0 <= size b) bufs ->
  length (flat_map (fun b => read m (data b) (size b)) bufs) = Z.to_nat (sum_sizes bufs).
Proof.
  intros Hpos. induction Hpos as [| b bufs Hb Hrest IH]; [reflexivity |].
  cbn [flat_map]. rewrite length_app, read_length, IH.
  pose proof (sum_sizes_nonneg _ Hrest).
  unfold sum_sizes in *. cbn. lia.
Qed.

(** Once a sequence of copies is complete that contains every copy of a
    fragment list and otherwise only foreign ones, the destination holds
    the fragments end to end. *)
Lemma fragments_land dd key dev bufs ex m :
  Forall (fun b => 0 <= size b) bufs ->
  Forall (fun b => exists id, blk (data b) = Caller id) bufs ->
  let base := mkPtr (Pooled dev key) 0 in
  let ts := fragment_tasks dd base bufs in
  (forall t, In t ts -> In t ex) ->
  (forall t, In t ex -> In t ts \/ foreign (Pooled dev key) t) ->
  read (complete_all ex m) base (sum_sizes bufs) =
  flat_map (fun b => read m (data b) (size b)) bufs.
Proof.
  intros Hpos Hcaller base ts Hall Honly.
  assert (Hsrc : forall t, In t ts -> exists id, blk (src t) = Caller id).
  { clear -Hcaller. subst ts. generalize base.
    induction Hcaller as [| b bufs Hb Hrest IH]; intros p t Hin; [destruct Hin |].
    destruct Hin as [<- | Hin]; [exact Hb | eapply IH; exact Hin]. }
  apply (nth_ext _ _ Byte.x00 Byte.x00).
  { rewrite read_length, concat_reads_length by exact Hpos. reflexivity. }
  intros k Hk. rewrite read_length in Hk.
  rewrite read_nth by exact Hk. unfold load. cbn. rewrite Z.add_0_l.
  apply complete_all_covered.
  - apply List.Forall_forall. intros t Hin.
    destruct (Honly t Hin) as [Hours | [Hp _]]; [| exact Hp].
    destruct (fragment_tasks_dst _ _ _ _ Hpos Hours) as (-> & _). reflexivity.
  - destruct (fragment_tasks_cover dd base bufs (Z.of_nat k) Hpos) as (t & Hin & Hcov);
      [cbn; lia |].
    exists t. split; [apply Hall; exact Hin | exact Hcov].
  - intros t Hin Hcov.
    destruct (Honly t Hin) as [Hours | [_ Hne]].
    + destruct (Hsrc t Hours) as (id & Hid). exists id. split; [exact Hid |].
      pose proof (fragment_tasks_value dd base bufs m t (Z.of_nat k) Byte.x00
                    Hpos Hours Hcov) as Hv.
      unfold load in Hv. cbn in Hv.
      rewrite Hid, Z.sub_0_r, Nat2Z.id in Hv. exact Hv.
    + unfold in_range in Hcov.
      apply andb_prop in Hcov as [Hcov _]. apply andb_prop in Hcov as [Hb _].
      apply bool_decide_eq_true in Hb. congruence.
Qed.

Lemma queue_with_buffer dev key b w : queue (with_buffer dev key b w) = queue w.
Proof. unfold queue, with_buffer. cbn. rewrite thread_pool_set_buffers. reflexivity. Qed.

Lemma errors_with_buffer dev key b w : errors (with_buffer dev key b w) = errors w.
Proof. unfold errors, with_buffer. cbn. rewrite thread_pool_set_buffers. reflexivity. Qed.

Lemma copies_in_with_buffer dev key b w ts :
  copies_in (with_buffer dev key b w) ts = copies_in w ts.
Proof. unfold copies_in. rewrite errors_with_buffer. reflexivity. Qed.

Lemma queue_scheduled ts w :
  queue (scheduled ts w) =
  queue w ++ map as_work (List.filter (is_queued (scheduler w)) ts).
Proof. reflexivity. Qed.

Lemma map_work_as_work ts : map work (map as_work ts) = ts.
Proof. induction ts; cbn; [reflexivity | f_equal; assumption]. Qed.

Lemma early_or_queued s t : is_early s t = true \/ is_queued s t = true.
Proof. unfold is_early, is_queued. destruct (starts_early s t); auto. Qed.

(** The copies that took effect between the call of [ScheduleInputCopy]
    and the return of [RunAll], and how [RunAll] ends. *)
Lemma memory_drained_scheduled ts w :
  memory (drained (scheduled ts w)) =
    complete_all
      (landed (copies_in w (List.filter (is_early (scheduler w)) ts ++
                            run_order (scheduled ts w))))
      (memory w).
Proof.
  rewrite copies_in_after. cbn [landed]. rewrite complete_all_app. reflexivity.
Qed.

Lemma failed_drained_scheduled ts w :
  failed (copies_in (scheduled ts w) (run_order (scheduled ts w))) =
    failed (copies_in w (List.filter (is_early (scheduler w)) ts ++
                         run_order (scheduled ts w))).
Proof. rewrite copies_in_after. reflexivity. Qed.

(** What [RunAll] runs after a descriptor was scheduled: what was queued
    before and the tasks of the descriptor that no worker took up at
    once. *)
Lemma run_order_scheduled ts w t :
  fair (scheduler w) ->
  In t (run_order (scheduled ts w)) <->
  In t (map work (queue w)) \/ In t (List.filter (is_queued (scheduler w)) ts).
Proof.
  intros Hfair. unfold run_order.
  assert (Hq : map work (queue (scheduled ts w)) =
               map work (queue w) ++ List.filter (is_queued (scheduler w)) ts).
  { rewrite queue_scheduled, map_app, map_work_as_work. reflexivity. }
  split.
  - intros Hin. apply (Permutation_in _ (Permutation_sym (Hfair _))) in Hin.
    rewrite Hq in Hin. apply in_app_or in Hin. exact Hin.
  - intros Hin. apply (Permutation_in _ (Hfair _)).
    rewrite Hq. apply in_or_app. exact Hin.
Qed.

Lemma Forall_filter_keep {A} (P : A -> Prop) (f : A -> bool) l :
  Forall P l -> Forall P (List.filter f l).
Proof.
  rewrite !List.Forall_forall. intros Hl x Hin. apply Hl.
  apply filter_In in Hin as [Hin _]. exact Hin.
Qed.

(** C2.  An input that is staged (its fragments are caller memory whose
    lengths add up within [size_t]; the storage for the staging buffer can
    be had): the pooled buffer under [name + "_inp"], in the pool of the
    first fragment's device, claims exactly the sum of the fragment
    lengths; one copy per fragment is handed to the thread pool, the
    [i]-th to the offset that is the sum of the lengths before it; the
    descriptor returned for the pipeline has the single fragment that is
    this buffer; [RunInputCopy] returns without failure when no copy
    fails; and when it returns, in whatever order the workers completed
    the copies, the buffer holds the fragments end to end in their order,
    provided the copies of the input have taken effect by then (as copies
    from host memory to host memory have).  Of every sequence of completed
    copies that contains the copies of this input, in any order and any
    number of times, among copies into other pooled buffers, the same
    holds without any proviso. *)
Theorem staged_input_is_concatenation w input first rest :
  let dev := device first in
  let key := name (meta input) +:+ "_inp" in
  let base := mkPtr (Pooled dev key) 0 in
  let total := sum_sizes (buffers input) in
  buffers input = first :: rest ->
  Forall (fun b => 0 <= size b) (buffers input) ->
  total < SIZE_MODULUS ->
  Forall (fun b => exists id, blk (data b) = Caller id) (buffers input) ->
  Forall (fun k => foreign (Pooled dev key) (work k)) (queue w) ->
  fair (scheduler w) ->
  obtainable dev key total w ->
  exists d w1 r w2 evs,
    ScheduleInputCopy input w = (Ok (mkIODescr (meta input) [d]), w1) /\
    RunInputCopy w1 = (r, w2) /\
    (errors w = [] -> Forall unfailing (added_tasks evs) ->
     Forall (fun k => unfailing (work k)) (queue w) -> r = Ok tt) /\
    (exists b, buffers_of dev (self w1) !! key = Some b /\
               IOBuffer.filled_ b = total /\ total <= IOBuffer.Capacity b /\
               d = IOBuffer.GetDescr (Pooled dev key) b) /\
    trace w1 = trace w ++ evs /\
    length (added_tasks evs) = length (buffers input) /\
    (forall i buf, buffers input !! i = Some buf ->
       added_tasks evs !! i =
         Some (mkTask dev (ptr_add base (sum_sizes (take i (buffers input))))
                      (device buf) (data buf) (size buf))) /\
    data d = base /\ size d = total /\
    (Forall settled (added_tasks evs) ->
     Forall (foreign (Pooled dev key)) (default_stream w) ->
     read (memory w2) (data d) (size d) =
       flat_map (fun b => read (memory w) (data b) (size b)) (buffers input)) /\
    (forall done,
       (forall t, In t (added_tasks evs) -> In t done) ->
       (forall t, In t done -> In t (added_tasks evs) \/ foreign (Pooled dev key) t) ->
       read (complete_all done (memory w)) (data d) (size d) =
         flat_map (fun b => read (memory w) (data b) (size b)) (buffers input)).
Proof.
  intros dev key base total Hbufs Hpos Hfit Hcaller Hqueue Hfair Hroom.
  pose proof (ScheduleInputCopy_spec input first rest w Hbufs) as Hspec.
  cbv zeta in Hspec. unfold staging_key in Hspec.
  rewrite staging_device_first in Hspec.
  fold dev key base in Hspec.
  rewrite (total_size_sum _ Hpos Hfit) in Hspec. fold total in Hspec.
  unfold obtainable in Hroom. rewrite Hroom in Hspec.
  set (b := resized dev key total w) in *.
  set (ts := fragment_tasks dev base (buffers input)) in *.
  set (w0 := with_buffer dev key b w) in *.
  set (w1 := scheduled ts w0) in *.
  exists (IOBuffer.GetDescr (Pooled dev key) b), w1, (drain_result w1), (drained w1).
  exists (flat_map (announce (scheduler w) true) ts).
  rewrite added_tasks_announce.
  split; [exact Hspec |].
  split; [unfold RunInputCopy; apply RunAll_spec |].
  split.
  { intros Hclean Hts Hq. unfold drain_result. subst w1.
    rewrite failed_drained_scheduled. unfold w0 at 1.
    rewrite copies_in_with_buffer. unfold copies_in.
    rewrite issue_all_unfailing; [cbn [failed]; rewrite Hclean; reflexivity |].
    apply Forall_app. split; [apply Forall_filter_keep; exact Hts |].
    apply List.Forall_forall. intros t Hin.
    apply (run_order_scheduled ts w0 t Hfair) in Hin.
    destruct Hin as [Hin | Hin].
    - unfold w0 in Hin. rewrite queue_with_buffer in Hin.
      apply in_map_iff in Hin as (k & <- & Hk).
      rewrite List.Forall_forall in Hq. apply Hq. exact Hk.
    - apply filter_In in Hin as [Hin _].
      rewrite List.Forall_forall in Hts. apply Hts. exact Hin. }
  split.
  { exists b. split; [| split; [reflexivity | split; [| reflexivity]]].
    - subst w1 w0. unfold scheduled, with_buffer. cbn.
      destruct dev; cbn; apply lookup_insert_eq.
    - unfold IOBuffer.Capacity, b, resized. cbn. lia. }
  split; [reflexivity |].
  split; [apply fragment_tasks_length |].
  split; [intros i buf Hi; apply fragment_tasks_lookup; exact Hi |].
  split; [reflexivity |].
  split; [reflexivity |].
  cbn [data size IOBuffer.GetDescr IOBuffer.filled_ b resized].
  split;
    [| intros done Hall Honly;
       apply (fragments_land dev key dev (buffers input)); assumption].
  intros Hset Hstream. subst w1.
  rewrite memory_drained_scheduled. unfold w0 at 1 3.
  rewrite copies_in_with_buffer.
  change (memory (with_buffer dev key b w)) with (memory w).
  apply (fragments_land dev key dev (buffers input)); [exact Hpos | exact Hcaller | |].
  - intros t Hin. apply issue_all_settled.
    + apply in_or_app.
      destruct (early_or_queued (scheduler w) t) as [He | Hq].
      * left. apply filter_In. split; assumption.
      * right. apply (run_order_scheduled ts w0 t Hfair). right.
        apply filter_In. split; assumption.
    + rewrite List.Forall_forall in Hset. apply Hset. exact Hin.
  - intros t Hin. apply issue_all_origin in Hin. cbn [landed pending] in Hin.
    destruct Hin as [[] | [Hin | Hin]].
    + right. rewrite List.Forall_forall in Hstream. apply Hstream. exact Hin.
    + apply in_app_or in Hin as [Hin | Hin].
      * left. apply filter_In in Hin as [Hin _]. exact Hin.
      * apply (run_order_scheduled ts w0 t Hfair) in Hin. destruct Hin as [Hin | Hin].
        -- right. unfold w0 in Hin. rewrite queue_with_buffer in Hin.
           apply in_map_iff in Hin as (k & <- & Hk).
           rewrite List.Forall_forall in Hqueue. apply Hqueue. exact Hk.
        -- left. apply filter_In in Hin as [Hin _]. exact Hin.
Qed.

Lemma buffers_of_set_queue dev q e : buffers_of dev (set_queue q e) = buffers_of dev e.
Proof. destruct dev; reflexivity. Qed.

Lemma buffers_of_set_errors dev errs e : buffers_of dev (set_errors errs e) = buffers_of dev e.
Proof. destruct dev; reflexivity. Qed.

(** C3.  An input that goes through staging (in particular every input of
    several fragments) whose fragment lengths add up within [size_t], when
    the storage for the staging buffer can be had: the byte sizes
    announced with the copy tasks, and the byte counts the tasks copy, add
    up to the sum of the fragment lengths; the pooled buffer has claimed
    exactly that many bytes, also once [RunInputCopy] has returned
    (however it ended), and that is the [size] field of its descriptor. *)
Theorem staged_sizes_add_up w input first rest :
  let dev := device first in
  let key := name (meta input) +:+ "_inp" in
  let total := sum_sizes (buffers input) in
  buffers input = first :: rest ->
  Forall (fun b => 0 <= size b) (buffers input) ->
  total < SIZE_MODULUS ->
  obtainable dev key total w ->
  exists d w1 r w2 evs b,
    ScheduleInputCopy input w = (Ok (mkIODescr (meta input) [d]), w1) /\
    RunInputCopy w1 = (r, w2) /\
    trace w1 = trace w ++ evs /\
    sum (added_sizes evs) = total /\
    sum (map nbytes (added_tasks evs)) = total /\
    buffers_of dev (self w2) !! key = Some b /\
    IOBuffer.filled_ b = total /\
    d = IOBuffer.GetDescr (Pooled dev key) b /\
    size d = total.
Proof.
  intros dev key total Hbufs Hpos Hfit Hroom.
  pose proof (ScheduleInputCopy_spec input first rest w Hbufs) as Hspec.
  cbv zeta in Hspec. unfold staging_key in Hspec.
  rewrite staging_device_first in Hspec. fold dev key in Hspec.
  rewrite (total_size_sum _ Hpos Hfit) in Hspec. fold total in Hspec.
  unfold obtainable in Hroom. rewrite Hroom in Hspec.
  set (b := resized dev key total w) in *.
  set (ts := fragment_tasks dev (mkPtr (Pooled dev key) 0) (buffers input)) in *.
  exists (IOBuffer.GetDescr (Pooled dev key) b).
  eexists. eexists. eexists. exists (flat_map (announce (scheduler w) true) ts), b.
  split; [exact Hspec |].
  split; [unfold RunInputCopy; apply RunAll_spec |].
  split; [reflexivity |].
  rewrite added_sizes_announce, added_tasks_announce.
  unfold ts. rewrite fragment_tasks_nbytes.
  split; [reflexivity |]. split; [reflexivity |].
  split; [| split; [reflexivity | split; reflexivity]].
  cbn [self drained scheduled].
  rewrite ?buffers_of_set_errors, ?buffers_of_set_queue, ?buffers_of_set_errors.
  unfold with_buffer. cbn. rewrite buffers_of_set_buffers. apply lookup_insert_eq.
Qed.

Lemma buffers_of_other dev m e :
  buffers_of (other_device dev) (set_buffers dev m e) = buffers_of (other_device dev) e.
Proof. destruct dev; reflexivity. Qed.

(** C9.  Staging an input, when the storage for the staging buffer can be
    had: the pool the buffer is taken from, the device of the descriptor
    handed on and the destination device of every copy are the device of
    the first fragment, whatever the other fragments are; the other pool
    is not touched.  In particular an input whose fragments are all on the
    host is gathered by host-to-host copies into a buffer of
    [cpu_buffers_], and [gpu_buffers_] is left alone. *)
Theorem staging_device_is_first_fragment_device w input first rest :
  buffers input = first :: rest ->
  let key := name (meta input) +:+ "_inp" in
  obtainable (device first) key (total_size (buffers input)) w ->
  exists d w1 evs,
    ScheduleInputCopy input w = (Ok (mkIODescr (meta input) [d]), w1) /\
    trace w1 = trace w ++ evs /\
    device d = device first /\
    data d = mkPtr (Pooled (device first) key) 0 /\
    is_Some (buffers_of (device first) (self w1) !! key) /\
    buffers_of (other_device (device first)) (self w1) =
      buffers_of (other_device (device first)) (self w) /\
    Forall (fun t => dst_dev t = device first /\
                     blk (dst t) = Pooled (device first) key) (added_tasks evs) /\
    (Forall (fun b => device b = CPU) (buffers input) ->
       device d = CPU /\
       gpu_buffers_ (self w1) = gpu_buffers_ (self w) /\
       Forall (fun t => dst_dev t = CPU /\ src_dev t = CPU /\
                        blk (dst t) = Pooled CPU key) (added_tasks evs)).
Proof.
  intros Hbufs key Hroom.
  pose proof (ScheduleInputCopy_spec input first rest w Hbufs) as Hspec.
  cbv zeta in Hspec. unfold staging_key in Hspec.
  rewrite staging_device_first in Hspec. fold key in Hspec.
  unfold obtainable in Hroom. rewrite Hroom in Hspec.
  set (dev := device first) in *.
  set (b := resized dev key (total_size (buffers input)) w) in *.
  set (ts := fragment_tasks dev (mkPtr (Pooled dev key) 0) (buffers input)) in *.
  pose proof (fragment_tasks_block dev (mkPtr (Pooled dev key) 0) (buffers input))
    as Hdst.
  pose proof (fragment_tasks_src dev (mkPtr (Pooled dev key) 0) (buffers input))
    as Hsrc.
  cbn [blk] in Hdst. fold ts in Hdst, Hsrc.
  exists (IOBuffer.GetDescr (Pooled dev key) b).
  eexists. exists (flat_map (announce (scheduler w) true) ts).
  split; [exact Hspec |].
  split; [reflexivity |].
  split; [reflexivity |].
  split; [reflexivity |].
  rewrite added_tasks_announce.
  split.
  { cbn [self scheduled]. rewrite buffers_of_set_queue, buffers_of_set_errors.
    unfold with_buffer. cbn. rewrite buffers_of_set_buffers, lookup_insert_eq.
    eexists. reflexivity. }
  split.
  { cbn [self scheduled]. rewrite buffers_of_set_queue, buffers_of_set_errors.
    unfold with_buffer. cbn. apply buffers_of_other. }
  split; [exact Hdst |].
  intros Hhost.
  assert (Hdev : dev = CPU).
  { rewrite Hbufs in Hhost. inversion Hhost; subst. assumption. }
  split; [exact Hdev |].
  split.
  { cbn [self scheduled]. unfold with_buffer. cbn.
    clearbody b. clear Hspec Hdst Hsrc Hroom. revert b. rewrite Hdev. intros b. reflexivity. }
  rewrite List.Forall_forall in Hdst, Hsrc, Hhost |- *.
  intros t Hin. destruct (Hdst t Hin) as (Hd & Hb). rewrite Hdev in Hd, Hb.
  destruct (Hsrc t Hin) as (buf & Hbuf & Hs).
  repeat split; [exact Hd | rewrite Hs; apply Hhost; exact Hbuf | exact Hb].
Qed.

Lemma check_batch_sizes_state n others w r w' :
  check_batch_sizes n others w = (r, w') -> w' = w.
Proof.
  revert w. induction others as [| inp others IH]; intros w; cbn.
  - intros [= _ <-]. reflexivity.
  - unfold bind, assert, ret, throw.
    destruct (num_samples (shape (meta inp)) =? n); [apply IH |].
    intros [= _ <-]. reflexivity.
Qed.

Lemma IsNoCopy_true w inp :
  IsNoCopy w inp = true <-> eligible w inp.
Proof.
  unfold IsNoCopy, eligible, eligible_for.
  destruct (buffers inp) as [| b [| b' bufs]].
  - split; [discriminate | intros (b & Hb & _); discriminate].
  - rewrite orb_true_iff, bool_decide_eq_true, Z.eqb_eq.
    split.
    + intros Hor. exists b. split; [reflexivity | exact Hor].
    + intros (b0 & [= <-] & Hor). exact Hor.
  - split; [discriminate | intros (b0 & Hb & _); discriminate].
Qed.

Lemma assert_fits_state n d w r w' :
  assert_fits n d w = (r, w') -> w' = w.
Proof.
  unfold assert_fits, assert, ret, throw.
  destruct (first_size d) as [k |]; [destruct (n <=? k) |]; intros [= _ <-]; reflexivity.
Qed.

(** The two ways through one round of the loop of [SetupInputs]. *)
Lemma stage_input_cases w inp c w' :
  stage_input inp w = (Ok c, w') ->
  (eligible w inp /\ c = inp /\ w' = w) \/
  (~ eligible w inp /\
   exists first rest,
     buffers inp = first :: rest /\
     let dev := staging_device first in
     let key := staging_key inp in
     let b := resized dev key (total_size (buffers inp)) w in
     c = mkIODescr (meta inp) [IOBuffer.GetDescr (Pooled dev key) b] /\
     w' = scheduled (fragment_tasks dev (mkPtr (Pooled dev key) 0) (buffers inp))
                    (with_buffer dev key b w)).
Proof.
  intros Hrun.
  unfold stage_input in Hrun. unfold bind at 1, get at 1 in Hrun.
  destruct (IsNoCopy w inp) eqn:Hnc.
  - left. split; [apply IsNoCopy_true; exact Hnc |].
    apply bind_Ok_inv in Hrun as (u & w0 & Hfits & Hret).
    apply assert_fits_state in Hfits. subst w0.
    unfold ret in Hret. injection Hret as <- <-. split; reflexivity.
  - right. split.
    { intros Hel. apply IsNoCopy_true in Hel. congruence. }
    apply bind_Ok_inv in Hrun as (c0 & w1 & Hsched & Hrest).
    apply bind_Ok_inv in Hrest as (u & w2 & Hfits & Hret).
    apply assert_fits_state in Hfits. subst w2.
    unfold ret in Hret. injection Hret as <- <-.
    destruct (buffers inp) as [| first rest] eqn:Hbufs.
    { unfold ScheduleInputCopy in Hsched. rewrite Hbufs in Hsched. discriminate. }
    rewrite (ScheduleInputCopy_spec inp first rest w Hbufs) in Hsched.
    destruct (shortfall _ _ _ w); [discriminate |].
    injection Hsched as <- <-.
    exists first, rest. split; [reflexivity |]. cbv zeta. rewrite Hbufs.
    split; reflexivity.
Qed.

Lemma handed_over_app evs1 evs2 :
  handed_over (evs1 ++ evs2) = handed_over evs1 ++ handed_over evs2.
Proof. apply flat_map_app. Qed.

Lemma added_tasks_app evs1 evs2 :
  added_tasks (evs1 ++ evs2) = added_tasks evs1 ++ added_tasks evs2.
Proof. apply flat_map_app. Qed.

Lemma handed_over_announce s imm ts : handed_over (flat_map (announce s imm) ts) = [].
Proof.
  induction ts as [| t ts IH]; [reflexivity |].
  cbn [flat_map]. rewrite handed_over_app, IH.
  unfold announce. destruct (imm && starts_early s t); reflexivity.
Qed.

Lemma handed_over_copies ts : handed_over (map EvMemCopy ts) = [].
Proof. induction ts as [| t ts IH]; [reflexivity | exact IH]. Qed.

Lemma added_tasks_copies ts : added_tasks (map EvMemCopy ts) = [].
Proof. induction ts as [| t ts IH]; [reflexivity | exact IH]. Qed.

Lemma handed_over_inputs cs : handed_over (map EvSetInput cs) = cs.
Proof. induction cs as [| c cs IH]; [reflexivity | cbn; f_equal; exact IH]. Qed.

Lemma added_tasks_inputs cs : added_tasks (map EvSetInput cs) = [].
Proof. induction cs as [| c cs IH]; [reflexivity | exact IH]. Qed.

Lemma fragment_tasks_source dd p bufs t :
  In t (fragment_tasks dd p bufs) -> exists buf, In buf bufs /\ src t = data buf.
Proof.
  revert p. induction bufs as [| b bufs IH]; intros p Hin; [destruct Hin |].
  destruct Hin as [<- | Hin].
  - exists b. split; [left; reflexivity | reflexivity].
  - destruct (IH _ Hin) as (buf & Hbuf & Hsrc).
    exists buf. split; [right; exact Hbuf | exact Hsrc].
Qed.

(** The loop of [SetupInputs] over the inputs: eligible inputs are pushed
    as they are, and every copy that is announced reads a fragment of an
    input that is not eligible. *)
Lemma stage_inputs_spec inputs : forall w cs w',
  stage_inputs inputs w = (Ok cs, w') ->
  DaliPipeline.DeviceId (pipeline_ (self w')) = DaliPipeline.DeviceId (pipeline_ (self w)) /\
  exists evs,
    trace w' = trace w ++ evs /\
    handed_over evs = [] /\
    Forall2 (fun inp c => eligible w inp -> c = inp) inputs cs /\
    (forall t, In t (added_tasks evs) ->
       exists inp buf, In inp inputs /\ ~ eligible w inp /\
                       In buf (buffers inp) /\ src t = data buf).
Proof.
  induction inputs as [| inp inputs IH]; intros w cs w' Hrun.
  - cbn in Hrun. unfold ret in Hrun. injection Hrun as <- <-.
    split; [reflexivity |]. exists []. rewrite app_nil_r.
    repeat split; [constructor | intros t []].
  - cbn [stage_inputs] in Hrun.
    apply bind_Ok_inv in Hrun as (c & w1 & Hone & Hrun).
    apply bind_Ok_inv in Hrun as (cs' & w2 & Hrest & Hret).
    unfold ret in Hret. injection Hret as <- <-.
    destruct (IH _ _ _ Hrest) as (Hdev2 & evs2 & Htr2 & Hh2 & Hall2 & Hsrc2).
    assert (Hcase : DaliPipeline.DeviceId (pipeline_ (self w1)) =
                    DaliPipeline.DeviceId (pipeline_ (self w)) /\
                    exists evs1, trace w1 = trace w ++ evs1 /\ handed_over evs1 = [] /\
                      (eligible w inp -> c = inp) /\
                      (forall t, In t (added_tasks evs1) ->
                         ~ eligible w inp /\
                         exists buf, In buf (buffers inp) /\ src t = data buf)).
    { destruct (stage_input_cases _ _ _ _ Hone)
        as [(Hel & -> & ->) | (Hnel & first & rest & Hbufs & Hc & ->)].
      - split; [reflexivity |]. exists []. rewrite app_nil_r.
        split; [reflexivity |]. split; [reflexivity |].
        split; [intros _; reflexivity | intros t []].
      - cbv zeta in Hc. split.
        { cbn. unfold with_buffer. cbn. rewrite pipeline_set_buffers. reflexivity. }
        eexists. split; [reflexivity |].
        split; [apply handed_over_announce |].
        split; [intros Hel; contradiction |].
        intros t Hin. rewrite added_tasks_announce in Hin.
        split; [exact Hnel | eapply fragment_tasks_source; exact Hin]. }
    destruct Hcase as (Hdev1 & evs1 & Htr1 & Hh1 & Hc1 & Hsrc1).
    assert (Hsame : forall x, eligible w1 x <-> eligible w x).
    { intros x. unfold eligible. rewrite Hdev1. reflexivity. }
    split; [congruence |].
    exists (evs1 ++ evs2).
    split; [rewrite Htr2, Htr1, app_assoc; reflexivity |].
    split; [rewrite handed_over_app, Hh1, Hh2; reflexivity |].
    split.
    + constructor; [exact Hc1 |].
      eapply Forall2_impl; [exact Hall2 |].
      intros x y Hxy Hel. apply Hxy, Hsame, Hel.
    + intros t Hin. rewrite added_tasks_app in Hin.
      apply in_app_or in Hin as [Hin | Hin].
      * destruct (Hsrc1 t Hin) as (Hnel & buf & Hbuf & Hsrc).
        exists inp, buf. repeat split; [left; reflexivity | exact Hnel | exact Hbuf | exact Hsrc].
      * destruct (Hsrc2 t Hin) as (inp' & buf & Hinp & Hnel & Hbuf & Hsrc).
        exists inp', buf.
        repeat split; [right; exact Hinp | rewrite <- Hsame; exact Hnel | exact Hbuf | exact Hsrc].
Qed.

Lemma set_inputs_trace cs : forall w w',
  set_inputs cs w = (Ok tt, w') -> trace w' = trace w ++ map EvSetInput cs.
Proof.
  induction cs as [| c cs IH]; intros w w' Hrun.
  - cbn in Hrun. unfold ret in Hrun. injection Hrun as <-. rewrite app_nil_r. reflexivity.
  - cbn [set_inputs] in Hrun.
    apply bind_Ok_inv in Hrun as (u & w1 & Hone & Hrest).
    rewrite (IH _ _ Hrest).
    assert (Htr : trace w1 = trace w ++ [EvSetInput c]).
    { unfold pipeline_SetInput, bind, emit, modify, get, on_pipeline in Hone. cbn in Hone.
      destruct (DaliPipeline.SetInput _ _ _) as [r p]. injection Hone as _ <-. reflexivity. }
    rewrite Htr, <- app_assoc. reflexivity.
Qed.

(** C1.  [IsNoCopy] holds exactly of the descriptors with a single
    fragment that is on the host or carries the device index of the
    pipeline.  In the loop of [SetupInputs], such a descriptor is pushed
    to [c_inputs] as it is and nothing else happens: no pooled buffer is
    touched, no copy task is handed to the thread pool.  Every other
    descriptor is replaced by one pointing at pooled storage, and one copy
    task per fragment (at least one) is handed to the thread pool.  In a
    [SetupInputs] that succeeds, the pipeline is handed one descriptor per
    input, the input itself when it is eligible, and every copy task that
    is announced reads a fragment of an input that is not. *)
Theorem zero_copy_iff_single_resident_fragment w :
  (forall inp, IsNoCopy w inp = true <-> eligible w inp) /\
  (forall inp c w', stage_input inp w = (Ok c, w') ->
     (eligible w inp <-> c = inp /\ w' = w) /\
     exists evs, trace w' = trace w ++ evs /\
       (eligible w inp -> evs = []) /\
       (~ eligible w inp ->
          length (added_tasks evs) = length (buffers inp) /\
          (0 < length (buffers inp))%nat /\
          exists d, c = mkIODescr (meta inp) [d] /\
                    is_pooled (blk (data d)) = true)) /\
  (forall inputs w', SetupInputs inputs w = (Ok tt, w') ->
     exists evs, trace w' = trace w ++ evs /\
       Forall2 (fun inp c => eligible w inp -> c = inp) inputs (handed_over evs) /\
       (forall t, In t (added_tasks evs) ->
          exists inp buf, In inp inputs /\ ~ eligible w inp /\
                          In buf (buffers inp) /\ src t = data buf)).
Proof.
  split; [intros inp; apply IsNoCopy_true |]. split.
  - intros inp c w' Hrun.
    destruct (stage_input_cases _ _ _ _ Hrun)
      as [(Hel & -> & ->) | (Hnel & first & rest & Hbufs & Hc & ->)].
    + split; [tauto |]. exists []. rewrite app_nil_r.
      split; [reflexivity |]. split; [reflexivity | tauto].
    + cbv zeta in Hc.
      set (ts := fragment_tasks _ _ _).
      assert (Hlen : length ts = length (buffers inp))
        by apply fragment_tasks_length.
      assert (Htr : length (flat_map (announce (scheduler w) true) ts) <> 0%nat).
      { rewrite Hbufs in Hlen. destruct ts as [| t ts']; discriminate. }
      split.
      * split; [tauto |]. intros [_ Hw]. exfalso.
        apply (f_equal (fun w => length (trace w))) in Hw. cbn in Hw.
        rewrite length_app in Hw. lia.
      * exists (flat_map (announce (scheduler w) true) ts).
        split; [reflexivity |]. split; [tauto |]. intros _.
        rewrite added_tasks_announce, Hlen, Hbufs.
        repeat split; [cbn; lia |].
        eexists. split; [exact Hc | reflexivity].
  - intros inputs w' Hrun. unfold SetupInputs in Hrun.
    destruct inputs as [| first others]; [discriminate |].
    apply bind_Ok_inv in Hrun as (u & wa & Hcheck & Hrun).
    apply check_batch_sizes_state in Hcheck. subst wa.
    apply bind_Ok_inv in Hrun as (cs & wb & Hstage & Hrun).
    apply bind_Ok_inv in Hrun as (u' & wc & Hall & Hset).
    destruct (stage_inputs_spec _ _ _ _ Hstage) as (_ & evs & Htr & Hh & Hfor & Hsrc).
    unfold RunInputCopy in Hall. rewrite RunAll_spec in Hall. injection Hall as _ <-.
    apply set_inputs_trace in Hset. rewrite trace_drained in Hset.
    exists (evs ++ EvRunAll :: map EvMemCopy (run_order wb) ++ map EvSetInput cs).
    split; [rewrite Hset, Htr, <- !app_assoc; reflexivity |].
    split.
    + rewrite handed_over_app, Hh.
      change (EvRunAll :: map EvMemCopy (run_order wb) ++ map EvSetInput cs)
        with ([EvRunAll] ++ map EvMemCopy (run_order wb) ++ map EvSetInput cs).
      rewrite !handed_over_app, handed_over_copies, handed_over_inputs. exact Hfor.
    + intros t Hin. apply Hsrc.
      rewrite added_tasks_app in Hin. apply in_app_or in Hin as [Hin | Hin]; [exact Hin |].
      change (EvRunAll :: map EvMemCopy (run_order wb) ++ map EvSetInput cs)
        with ([EvRunAll] ++ map EvMemCopy (run_order wb) ++ map EvSetInput cs) in Hin.
      rewrite !added_tasks_app, added_tasks_copies, added_tasks_inputs in Hin.
      destruct Hin.
Qed.

(** *** Batch sizes *)

Lemma check_batch_sizes_Err n others w :
  Exists (fun inp => batch_size_of inp <> n) others ->
  check_batch_sizes n others w = (Err assertion_failure, w).
Proof.
  intros Hex. induction others as [| inp others IH]; [inversion Hex |].
  cbn. unfold bind, assert, ret, throw. fold (batch_size_of inp).
  destruct (batch_size_of inp =? n) eqn:E.
  - apply Z.eqb_eq in E. inversion Hex; subst; [contradiction | auto].
  - reflexivity.
Qed.

Lemma Run_mismatch w first others :
  Exists (fun inp => batch_size_of inp <> batch_size_of first) others ->
  Run (first :: others) w = (Err assertion_failure, w).
Proof.
  intros Hex. unfold Run. apply bind_Err.
  unfold SetupInputs. apply bind_Err.
  apply check_batch_sizes_Err. exact Hex.
Qed.

(** C4.  When two of the inputs differ in their number of samples, [Run]
    ends in a failed assertion and the world is the world it was called
    in: no pooled buffer was touched, no copy task was handed to the
    thread pool or run, the pipeline was not called (the trace is
    unchanged). *)
Theorem mismatched_batch_is_rejected_first w inputs a b :
  In a inputs -> In b inputs ->
  batch_size_of a <> batch_size_of b ->
  Run inputs w = (Err assertion_failure, w).
Proof.
  intros Ha Hb Hne.
  destruct inputs as [| first others]; [destruct Ha |].
  assert (Hex : Exists (fun inp => batch_size_of inp <> batch_size_of first) others).
  { apply List.Exists_exists.
    destruct (Z.eq_dec (batch_size_of a) (batch_size_of first)) as [Ea | Na].
    - exists b. split; [| congruence].
      destruct Hb as [<- | Hb]; [congruence | exact Hb].
    - exists a. split; [| exact Na].
      destruct Ha as [<- | Ha]; [congruence | exact Ha]. }
  apply Run_mismatch. exact Hex.
Qed.

(** C10.  [Run] on no input at all ends in a failed assertion, without
    any effect; it does not return output metadata.  On a non-empty
    sequence the batch size is the one of the first input: [Run] only
    succeeds when every further input has that many samples. *)
Theorem Run_needs_an_input w :
  Run [] w = (Err assertion_failure, w) /\
  (forall outs w', Run [] w <> (Ok outs, w')) /\
  (forall first others outs w',
     Run (first :: others) w = (Ok outs, w') ->
     Forall (fun inp => batch_size_of inp = batch_size_of first) others).
Proof.
  split; [reflexivity |]. split; [intros outs w'; discriminate |].
  intros first others outs w' Hrun.
  apply List.Forall_forall. intros inp Hin.
  destruct (Z.eq_dec (batch_size_of inp) (batch_size_of first)) as [E | N];
    [exact E | exfalso].
  rewrite Run_mismatch in Hrun; [discriminate |].
  apply List.Exists_exists. exists inp. split; [exact Hin | exact N].
Qed.

(** *** The output path *)

Lemma schedule_out_fragments_spec d p bufs w :
  schedule_out_fragments d p bufs w =
    (Ok tt,
     {| self := set_queue (queue w ++ map as_work (out_fragment_tasks (device d) p bufs))
                          (self w);
        memory := memory w;
        default_stream := default_stream w;
        scheduler := scheduler w;
        current_device := current_device w;
        trace := trace w ++ map (fun t => EvAddWork t (nbytes t) false)
                                (out_fragment_tasks (device d) p bufs) |}).
Proof.
  revert p w. induction bufs as [| b bufs IH]; intros p w.
  - cbn. unfold ret. rewrite !app_nil_r.
    destruct w as [[? [? ?] ? ?] ? ? ? ? ?]; reflexivity.
  - cbn [schedule_out_fragments out_fragment_tasks].
    unfold bind at 1. unfold AddWork at 1.
    unfold bind, emit, modify, get. cbn.
    rewrite IH. unfold queue. cbn. rewrite <- !app_assoc. reflexivity.
Qed.

Lemma added_tasks_deferred ts :
  added_tasks (map (fun t => EvAddWork t (nbytes t) false) ts) = ts.
Proof. induction ts as [| t ts IH]; cbn; [reflexivity | f_equal; exact IH]. Qed.








(** *** Recovery from a failed run *)

Lemma on_handle_blind (c : H -> option failure * H) :
  stream_blind (DaliPipeline.on_handle c).
Proof.
  intros p q [Hh Hc]. unfold DaliPipeline.on_handle. rewrite Hh.
  destruct (c (DaliPipeline.handle_ q)) as [[err |] h]; cbn; (split; [reflexivity |]);
    split; try reflexivity; exact Hc.
Qed.

Lemma on_handle_config (c : H -> option failure * H) :
  keeps_config (DaliPipeline.on_handle c).
Proof.
  intros p. unfold DaliPipeline.on_handle.
  destruct (c (DaliPipeline.handle_ p)) as [[err |] h]; reflexivity.
Qed.

Lemma bind_blind {A B} (c : M (DaliPipeline.t H) A) (k : A -> M (DaliPipeline.t H) B) :
  stream_blind c -> (forall a, stream_blind (k a)) -> stream_blind (bind c k).
Proof.
  intros Hc Hk p q Hpq. destruct (Hc p q Hpq) as [Hr Hs]. unfold bind.
  destruct (c p) as [[a | e] p'], (c q) as [[a' | e'] q']; cbn in *;
    try discriminate.
  - injection Hr as <-. apply Hk. exact Hs.
  - injection Hr as ->. split; [reflexivity | exact Hs].
Qed.

Lemma bind_config {A B} (c : M (DaliPipeline.t H) A) (k : A -> M (DaliPipeline.t H) B) :
  keeps_config c -> (forall a, keeps_config (k a)) -> keeps_config (bind c k).
Proof.
  intros Hc Hk p. unfold bind. specialize (Hc p).
  destruct (c p) as [[a | e] p']; cbn in *; [rewrite Hk |]; exact Hc.
Qed.

Lemma Run_blind : stream_blind DaliPipeline.Run.
Proof. apply bind_blind; [| intros _]; apply on_handle_blind. Qed.

Lemma Run_config : keeps_config DaliPipeline.Run.
Proof. apply bind_config; [| intros _]; apply on_handle_config. Qed.

Lemma SetInput_blind m d : stream_blind (DaliPipeline.SetInput m d).
Proof.
  unfold DaliPipeline.SetInput.
  destruct (buffers d) as [| b [| b' bufs]]; try apply on_handle_blind;
    intros p q Hpq; cbn; split; [reflexivity | exact Hpq | reflexivity | exact Hpq].
Qed.

Lemma SetInput_config m d : keeps_config (DaliPipeline.SetInput m d).
Proof.
  unfold DaliPipeline.SetInput.
  destruct (buffers d) as [| b [| b' bufs]]; try apply on_handle_config;
    intros p; reflexivity.
Qed.

(** [Reset], by cases: the handle is released and given to
    [daliCreatePipeline]; what comes back is kept, when something comes
    back. *)
Lemma Reset_cases p :
  DaliPipeline.Reset p =
    match recreated p with
    | Ok h => (if handle_set h then Ok tt else Err assertion_failure,
               DaliPipeline.set_handle h p)
    | Err e => (Err e, DaliPipeline.set_handle (released p) p)
    end.
Proof.
  unfold DaliPipeline.Reset, DaliPipeline.ReleasePipeline, DaliPipeline.CreatePipeline,
    recreated, released, bind, get, modify, assert, ret, throw.
  destruct p as [s m n d h o]. cbn.
  destruct (handle_set h); cbn.
  - destruct (daliCreatePipeline _ s m n d) as [h' | e]; cbn; [| reflexivity].
    destruct (handle_set h'); reflexivity.
  - destruct (daliCreatePipeline h s m n d) as [h' | e]; cbn; [| reflexivity].
    destruct (handle_set h'); reflexivity.
Qed.

Lemma Reset_config : keeps_config DaliPipeline.Reset.
Proof.
  intros p. rewrite Reset_cases.
  destruct (recreated p) as [h | e]; reflexivity.
Qed.

Lemma Reset_blind : stream_blind DaliPipeline.Reset.
Proof.
  intros p q [Hh Hc]. rewrite !Reset_cases.
  assert (Hrel : released p = released q) by (unfold released; rewrite Hh; reflexivity).
  assert (Hrec : recreated p = recreated q).
  { unfold recreated. rewrite Hrel. unfold config in Hc. injection Hc as -> -> -> ->.
    reflexivity. }
  rewrite Hrec, Hrel.
  destruct (recreated q) as [h | e]; cbn; (split; [reflexivity |]);
    split; try reflexivity; exact Hc.
Qed.

(** *** What a pooled buffer is *)

Lemma buffer_at_consistent dev key w :
  pools_consistent w ->
  IOBuffer.device_id_ (buffer_at dev key w) = constructed_device_id dev w /\
  0 <= IOBuffer.Capacity (buffer_at dev key w).
Proof.
  intros Hp. unfold buffer_at.
  destruct (buffers_of dev (self w) !! key) as [b |] eqn:E; cbn [default].
  - apply (Hp dev key b E).
  - unfold constructed_device_id. destruct dev; cbn; split; (reflexivity || lia).
Qed.

Lemma buffer_at_device_id dev key w :
  pools_consistent w ->
  IOBuffer.device_id_ (buffer_at dev key w) = constructed_device_id dev w.
Proof. intros Hp. apply buffer_at_consistent. exact Hp. Qed.

(** A lookup in the pools after one entry was replaced. *)
Lemma lookup_with_buffer_cases dev key (x : IOBuffer.t dev) dev' key' (b' : IOBuffer.t dev') w :
  buffers_of dev' (self (with_buffer dev key x w)) !! key' = Some b' ->
  (exists E : dev' = dev, key' = key /\ eq_rect dev' IOBuffer.t b' dev E = x) \/
  buffers_of dev' (self w) !! key' = Some b'.
Proof.
  unfold with_buffer. cbn [self set_self]. intros Hlook.
  destruct dev, dev'; cbn in Hlook;
    try (right; exact Hlook);
    (destruct (decide (key = key')) as [<- | Hne];
     [rewrite lookup_insert_eq in Hlook; injection Hlook as <-;
      left; exists eq_refl; split; reflexivity
     | rewrite lookup_insert_ne in Hlook by exact Hne; right; exact Hlook]).
Qed.

Lemma pools_consistent_with_buffer dev key (x : IOBuffer.t dev) w :
  pools_consistent w ->
  IOBuffer.device_id_ x = IOBuffer.device_id_ (buffer_at dev key w) ->
  0 <= IOBuffer.Capacity x ->
  pools_consistent (with_buffer dev key x w).
Proof.
  intros Hp Hid Hcap dev' key' b' Hlook.
  change (constructed_device_id dev' (with_buffer dev key x w))
    with (constructed_device_id dev' w).
  destruct (lookup_with_buffer_cases _ _ _ _ _ _ _ Hlook) as [(E & _ & Hx) | Hold].
  - subst dev'. cbn in Hx. subst b'. rewrite Hid. split; [| exact Hcap].
    apply buffer_at_device_id. exact Hp.
  - apply (Hp dev' key' b' Hold).
Qed.

(** Being consistent only depends on the device at hand and on the pooled
    buffers. *)
Lemma pools_transfer w w' :
  current_device w' = current_device w ->
  (forall dev, buffers_of dev (self w') = buffers_of dev (self w)) ->
  pools_consistent w -> pools_consistent w'.
Proof.
  intros Hd Hb Hpools dev key b. rewrite Hb. unfold constructed_device_id. rewrite Hd.
  apply Hpools.
Qed.

Lemma buffer_at_transfer dev key w w' :
  current_device w' = current_device w ->
  (forall dev, buffers_of dev (self w') = buffers_of dev (self w)) ->
  buffer_at dev key w' = buffer_at dev key w.
Proof. intros Hd Hb. unfold buffer_at. rewrite Hd, Hb. reflexivity. Qed.

Lemma buffers_of_scheduled dev ts w :
  buffers_of dev (self (scheduled ts w)) = buffers_of dev (self w).
Proof.
  cbn [self scheduled]. rewrite buffers_of_set_queue, buffers_of_set_errors. reflexivity.
Qed.

Lemma pools_consistent_scheduled ts w :
  pools_consistent w -> pools_consistent (scheduled ts w).
Proof.
  apply pools_transfer; [reflexivity | intros dev; apply buffers_of_scheduled].
Qed.

Lemma pools_consistent_resized dev key n w :
  pools_consistent w -> pools_consistent (with_buffer dev key (resized dev key n w) w).
Proof.
  intros Hp. apply pools_consistent_with_buffer; [exact Hp | reflexivity |].
  unfold resized, IOBuffer.Capacity. cbn.
  pose proof (buffer_at_consistent dev key w Hp) as [_ Hcap].
  unfold IOBuffer.Capacity in Hcap. lia.
Qed.

Lemma pools_consistent_cleared dev key w :
  pools_consistent w -> pools_consistent (with_buffer dev key (cleared dev key w) w).
Proof.
  intros Hp. apply pools_consistent_with_buffer; [exact Hp | reflexivity |].
  apply (buffer_at_consistent dev key w Hp).
Qed.

Lemma pools_consistent_staged ts dev key n w :
  pools_consistent w ->
  pools_consistent (scheduled ts (with_buffer dev key (resized dev key n w) w)).
Proof.
  intros Hp. apply pools_consistent_scheduled, pools_consistent_resized. exact Hp.
Qed.

(** *** A world that is ahead follows *)

Lemma follows_ret {A} (x : A) : follows (ret x).
Proof.
  intros a b Hab y b' Hrun. unfold ret in *. injection Hrun as <- <-.
  exists a. split; [reflexivity | exact Hab].
Qed.

Lemma follows_throw {A} (err : failure) : follows (@throw _ A err).
Proof. intros a b Hab y b' Hrun. discriminate. Qed.

Lemma follows_assert cond : follows (assert cond).
Proof. destruct cond; [apply follows_ret | apply follows_throw]. Qed.

Lemma follows_bind {A B} (c : M (World H) A) (k : A -> M (World H) B) :
  follows c -> (forall x, follows (k x)) -> follows (bind c k).
Proof.
  intros Hc Hk a b Hab y b' Hrun.
  apply bind_Ok_inv in Hrun as (x & b1 & Hcb & Hkb).
  destruct (Hc a b Hab x b1 Hcb) as (a1 & Hca & Hab1).
  destruct (Hk x a1 b1 Hab1 y b' Hkb) as (a' & Hka & Hab').
  exists a'. split; [rewrite (bind_Ok _ _ _ _ _ Hca); exact Hka | exact Hab'].
Qed.

(** Being ahead only depends on the pipeline, the thread pool, the
    memory, the default stream, the scheduler, the device at hand and the
    pooled buffers. *)
Lemma ahead_transfer (a b a' b' : World H) :
  ahead a b ->
  like_pipeline (pipeline_ (self a')) (pipeline_ (self b')) ->
  queue a' = queue b' ->
  errors a' = errors b' ->
  memory a' = memory b' ->
  default_stream a' = default_stream b' ->
  scheduler a' = scheduler b' ->
  current_device a' = current_device a ->
  current_device b' = current_device b ->
  (forall dev, buffers_of dev (self a') = buffers_of dev (self a)) ->
  (forall dev, buffers_of dev (self b') = buffers_of dev (self b)) ->
  ahead a' b'.
Proof.
  intros [Hp Hq He Hm Hst Hs Hd Hl Hr Hres] Hp' Hq' He' Hm' Hst' Hs' Hda Hdb Hba Hbb.
  constructor; try assumption.
  - congruence.
  - apply (pools_transfer a); assumption.
  - apply (pools_transfer b); assumption.
  - intros dev key.
    rewrite (buffer_at_transfer dev key a a'), (buffer_at_transfer dev key b b')
      by assumption.
    apply Hres.
Qed.

Lemma ahead_set_trace tr tr' (a b : World H) :
  ahead a b -> ahead (set_trace tr a) (set_trace tr' b).
Proof.
  intros Hab. pose proof Hab as [Hp Hq He Hm Hst Hs Hd Hl Hr Hres].
  apply (ahead_transfer a b); try assumption; reflexivity.
Qed.

Lemma follows_emit ev : follows (emit ev).
Proof.
  intros a b Hab y b' Hrun. unfold emit, modify in *. injection Hrun as <- <-.
  eexists. split; [reflexivity |]. apply ahead_set_trace. exact Hab.
Qed.

Lemma buffers_of_set_pipeline dev p e :
  buffers_of dev (set_pipeline p e) = buffers_of dev e.
Proof. destruct dev; reflexivity. Qed.

Lemma follows_on_pipeline {A} (c : M (DaliPipeline.t H) A) :
  stream_blind c -> follows (on_pipeline c).
Proof.
  intros Hc a b Hab y b' Hrun.
  pose proof Hab as [Hp Hq He Hm Hst Hs Hd Hl Hr Hres].
  destruct (Hc _ _ Hp) as [Hresult Hlike]. unfold on_pipeline in *.
  destruct (c (pipeline_ (self a))) as [ra pa], (c (pipeline_ (self b))) as [rb pb].
  cbn in Hresult, Hlike. injection Hrun as -> <-. subst ra.
  eexists. split; [reflexivity |].
  apply (ahead_transfer a b); try assumption; try reflexivity;
    intros dev; cbn; apply buffers_of_set_pipeline.
Qed.

Lemma follows_pipeline_SetInput inp : follows (pipeline_SetInput inp).
Proof.
  unfold pipeline_SetInput. apply follows_bind; [apply follows_emit | intros _].
  intros a b Hab y b' Hrun. unfold bind, get in *.
  rewrite (ahead_memory _ _ Hab).
  apply (follows_on_pipeline _ (SetInput_blind (memory b) inp) a b Hab). exact Hrun.
Qed.

Lemma follows_set_inputs cs : follows (set_inputs cs).
Proof.
  induction cs as [| c cs IH]; cbn; [apply follows_ret |].
  apply follows_bind; [apply follows_pipeline_SetInput | intros _; exact IH].
Qed.

Lemma follows_check_batch_sizes n others : follows (check_batch_sizes n others).
Proof.
  induction others as [| inp others IH]; cbn; [apply follows_ret |].
  apply follows_bind; [apply follows_assert | intros _; exact IH].
Qed.

Lemma follows_assert_fits n d : follows (assert_fits n d).
Proof.
  unfold assert_fits. destruct (first_size d); [apply follows_assert | apply follows_throw].
Qed.

Lemma copies_in_ahead (a b : World H) ts :
  ahead a b -> copies_in a ts = copies_in b ts.
Proof.
  intros Hab. unfold copies_in.
  rewrite (ahead_stream _ _ Hab), (ahead_errors _ _ Hab). reflexivity.
Qed.

Lemma follows_RunAll : follows RunAll.
Proof.
  intros a b Hab y b' Hrun. rewrite RunAll_spec in *.
  pose proof Hab as [Hp Hq He Hm Hst Hs Hd Hl Hr Hres].
  assert (Horder : run_order a = run_order b).
  { unfold run_order. rewrite Hq, Hs. reflexivity. }
  injection Hrun as Hy <-.
  exists (drained a). split.
  - f_equal. rewrite <- Hy. unfold drain_result.
    rewrite Horder, (copies_in_ahead a b _ Hab). reflexivity.
  - apply (ahead_transfer a b); try assumption; try reflexivity.
    + unfold drained. cbn [memory].
      rewrite Horder, (copies_in_ahead a b _ Hab), Hm. reflexivity.
    + unfold drained. cbn [default_stream].
      rewrite Horder, (copies_in_ahead a b _ Hab). reflexivity.
Qed.

(** The capacity of a pooled buffer after one entry was replaced. *)
Lemma buffer_at_with_buffer_other dev key (x : IOBuffer.t dev) dev' key' w :
  ~ (exists E : dev' = dev, key' = key) ->
  buffer_at dev' key' (with_buffer dev key x w) = buffer_at dev' key' w.
Proof.
  intros Hne. unfold buffer_at, with_buffer. cbn [self set_self current_device].
  f_equal.
  destruct dev, dev'; cbn; try reflexivity;
    (destruct (decide (key = key')) as [<- | Hk];
     [exfalso; apply Hne; exists eq_refl; reflexivity
     | rewrite lookup_insert_ne by exact Hk; reflexivity]).
Qed.

Lemma ahead_with_buffer dev key (xa xb : IOBuffer.t dev) (a b : World H) :
  ahead a b ->
  IOBuffer.device_id_ xa = IOBuffer.device_id_ (buffer_at dev key a) ->
  IOBuffer.device_id_ xb = IOBuffer.device_id_ (buffer_at dev key b) ->
  0 <= IOBuffer.Capacity xb <= IOBuffer.Capacity xa ->
  ahead (with_buffer dev key xa a) (with_buffer dev key xb b).
Proof.
  intros [Hp Hq He Hm Hst Hs Hd Hl Hr Hres] Hida Hidb Hcap.
  constructor; try assumption.
  - unfold with_buffer. cbn. rewrite !pipeline_set_buffers. exact Hp.
  - rewrite !queue_with_buffer. exact Hq.
  - rewrite !errors_with_buffer. exact He.
  - apply pools_consistent_with_buffer; [exact Hl | exact Hida | lia].
  - apply pools_consistent_with_buffer; [exact Hr | exact Hidb | lia].
  - intros dev' key'.
    destruct (decide (dev' = dev)) as [-> | Hdev].
    + destruct (decide (key' = key)) as [-> | Hkey].
      * rewrite !buffer_at_with_buffer. lia.
      * rewrite !buffer_at_with_buffer_other by (intros (_ & E); contradiction).
        apply Hres.
    + rewrite !buffer_at_with_buffer_other by (intros (E & _); contradiction).
      apply Hres.
Qed.

Lemma ahead_scheduled ts (a b : World H) :
  ahead a b -> ahead (scheduled ts a) (scheduled ts b).
Proof.
  intros Hab. pose proof Hab as [Hp Hq He Hm Hst Hs Hd Hl Hr Hres].
  apply (ahead_transfer a b); try assumption; try reflexivity.
  - rewrite !queue_scheduled, Hq, Hs. reflexivity.
  - unfold errors, scheduled. cbn. rewrite Hs, (copies_in_ahead a b _ Hab). reflexivity.
  - unfold scheduled. cbn [memory]. rewrite Hs, (copies_in_ahead a b _ Hab), Hm.
    reflexivity.
  - unfold scheduled. cbn [default_stream]. rewrite Hs, (copies_in_ahead a b _ Hab).
    reflexivity.
Qed.

(** Where a staging buffer can be had, it can be had in a world that is
    ahead. *)
Lemma shortfall_ahead dev key size (a b : World H) :
  ahead a b -> shortfall dev key size b = None -> shortfall dev key size a = None.
Proof.
  intros Hab. unfold shortfall.
  pose proof (ahead_reserve _ _ Hab dev key) as Hcap.
  destruct (IOBuffer.Capacity (buffer_at dev key b) <? size) eqn:Eb.
  - intros Href. rewrite Href.
    destruct (IOBuffer.Capacity (buffer_at dev key a) <? size); reflexivity.
  - intros _. apply Z.ltb_ge in Eb.
    destruct (IOBuffer.Capacity (buffer_at dev key a) <? size) eqn:Ea; [| reflexivity].
    apply Z.ltb_lt in Ea. lia.
Qed.

Lemma follows_ScheduleInputCopy input : follows (ScheduleInputCopy input).
Proof.
  intros a b Hab y b' Hrun.
  destruct (buffers input) as [| first rest] eqn:Hbufs.
  { unfold ScheduleInputCopy in Hrun. rewrite Hbufs in Hrun. discriminate. }
  rewrite (ScheduleInputCopy_spec input first rest b Hbufs) in Hrun.
  rewrite (ScheduleInputCopy_spec input first rest a Hbufs).
  destruct (shortfall _ _ _ b) eqn:Hb; [discriminate |].
  rewrite (shortfall_ahead _ _ _ a b Hab Hb).
  injection Hrun as <- <-.
  pose proof Hab as [Hp Hq He Hm Hst Hs Hd Hl Hr Hres].
  eexists. split.
  - f_equal. f_equal. f_equal. unfold IOBuffer.GetDescr, resized. cbn.
    rewrite !buffer_at_device_id by assumption.
    unfold constructed_device_id. rewrite Hd. reflexivity.
  - apply ahead_scheduled, ahead_with_buffer; [exact Hab | reflexivity | reflexivity |].
    unfold resized, IOBuffer.Capacity. cbn.
    pose proof (buffer_at_consistent (staging_device first) (staging_key input) b Hr)
      as [_ Hcap].
    pose proof (Hres (staging_device first) (staging_key input)) as Hle.
    unfold IOBuffer.Capacity in *. lia.
Qed.

Lemma IsNoCopy_ahead (a b : World H) inp :
  ahead a b -> IsNoCopy a inp = IsNoCopy b inp.
Proof.
  intros Hab. destruct (ahead_pipeline _ _ Hab) as [_ Hc].
  unfold IsNoCopy, DaliPipeline.DeviceId.
  unfold config in Hc. injection Hc as _ _ _ Hd. rewrite Hd. reflexivity.
Qed.

Lemma stage_input_unfold inp w :
  stage_input inp w =
  (if IsNoCopy w inp
   then run assert_fits (DaliPipeline.tensor_bytes inp) inp in ret inp
   else do c <- ScheduleInputCopy inp in
        run assert_fits (DaliPipeline.tensor_bytes inp) c in ret c) w.
Proof. reflexivity. Qed.

Lemma follows_stage_input inp : follows (stage_input inp).
Proof.
  intros a b Hab y b' Hrun. rewrite stage_input_unfold in Hrun.
  rewrite stage_input_unfold. rewrite (IsNoCopy_ahead a b inp Hab).
  destruct (IsNoCopy b inp).
  - revert y b' Hrun. apply follows_bind;
      [apply follows_assert_fits | intros _; apply follows_ret | exact Hab].
  - revert y b' Hrun.
    apply follows_bind; [apply follows_ScheduleInputCopy | intros c | exact Hab].
    apply follows_bind; [apply follows_assert_fits | intros _; apply follows_ret].
Qed.

Lemma follows_stage_inputs inputs : follows (stage_inputs inputs).
Proof.
  induction inputs as [| inp inputs IH]; cbn; [apply follows_ret |].
  apply follows_bind; [apply follows_stage_input | intros c].
  apply follows_bind; [exact IH | intros cs; apply follows_ret].
Qed.

Lemma follows_SetupInputs inputs : follows (SetupInputs inputs).
Proof.
  unfold SetupInputs. destruct inputs as [| first others]; [apply follows_throw |].
  apply follows_bind; [apply follows_check_batch_sizes | intros _].
  apply follows_bind; [apply follows_stage_inputs | intros cs].
  apply follows_bind; [apply follows_RunAll | intros _].
  apply follows_set_inputs.
Qed.

(** A [try] block that succeeds is its body. *)
Lemma try_catch_rethrow_Ok_inv {S A} (body : M S A) handler s x s' :
  try_catch_rethrow body handler s = (Ok x, s') -> body s = (Ok x, s').
Proof.
  unfold try_catch_rethrow.
  destruct (body s) as [[y | err] s1]; [auto |].
  destruct err; try discriminate.
  destruct (handler s1) as [[[] | err'] s2]; discriminate.
Qed.

Lemma follows_try_catch_rethrow {A} (body : M (World H) A) handler :
  follows body -> follows (try_catch_rethrow body handler).
Proof.
  intros Hb a b Hab y b' Hrun. apply try_catch_rethrow_Ok_inv in Hrun.
  destruct (Hb a b Hab y b' Hrun) as (a' & Ha & Hab').
  exists a'. split; [| exact Hab'].
  unfold try_catch_rethrow. rewrite Ha. reflexivity.
Qed.

Lemma follows_pipeline_call {A} ev (c : M (DaliPipeline.t H) A) :
  stream_blind c -> follows (run emit ev in on_pipeline c).
Proof.
  intros Hc. apply follows_bind; [apply follows_emit | intros _].
  apply follows_on_pipeline. exact Hc.
Qed.

Lemma follows_Run inputs : follows (DaliExecutor.Run inputs).
Proof.
  unfold DaliExecutor.Run.
  apply follows_bind; [apply follows_SetupInputs | intros _].
  apply follows_bind; [| intros _].
  - apply follows_try_catch_rethrow.
    apply follows_bind; [| intros _]; apply follows_pipeline_call;
      [apply Run_blind | apply on_handle_blind].
  - intros a b Hab y b' Hrun. unfold bind, get, ret in *. cbn in *.
    injection Hrun as <- <-. exists a. split; [| exact Hab].
    destruct (ahead_pipeline _ _ Hab) as [Hh _].
    unfold output_infos, DaliPipeline.GetOutputShapes, DaliPipeline.GetNumOutput,
      DaliPipeline.GetOutputType, DaliPipeline.GetOutputDevice.
    rewrite Hh. reflexivity.
Qed.

(** *** What the pipeline calls leave alone *)

Lemma pool_pipeline_call {A} ev (c : M (DaliPipeline.t H) A) w :
  thread_pool_ (self (snd ((run emit ev in on_pipeline c) w))) = thread_pool_ (self w).
Proof.
  unfold bind, emit, modify, on_pipeline. cbn.
  destruct (c (pipeline_ (self w))) as [r p]. reflexivity.
Qed.

Lemma pool_set_inputs cs w :
  thread_pool_ (self (snd (set_inputs cs w))) = thread_pool_ (self w).
Proof.
  revert w. induction cs as [| c cs IH]; intros w; [reflexivity |].
  cbn [set_inputs]. unfold bind at 1.
  assert (Hq : thread_pool_ (self (snd (pipeline_SetInput c w))) = thread_pool_ (self w)).
  { unfold pipeline_SetInput, bind, emit, modify, get, on_pipeline. cbn.
    destruct (DaliPipeline.SetInput _ _ _) as [r p]. reflexivity. }
  destruct (pipeline_SetInput c w) as [[[] | err] w']; cbn in *;
    [rewrite IH |]; exact Hq.
Qed.

(** After a successful [SetupInputs] no copy is left in the queue and no
    failure on record. *)
Lemma SetupInputs_clears inputs w w1 :
  SetupInputs inputs w = (Ok tt, w1) -> thread_pool_ (self w1) = mkPool [] [].
Proof.
  unfold SetupInputs. destruct inputs as [| first others]; [discriminate |].
  intros Hrun.
  apply bind_Ok_inv in Hrun as (u & wa & _ & Hrun).
  apply bind_Ok_inv in Hrun as (cs & wb & _ & Hrun).
  apply bind_Ok_inv in Hrun as (u' & wc & Hall & Hrun).
  unfold RunInputCopy in Hall. rewrite RunAll_spec in Hall.
  injection Hall as Hu Hwc.
  pose proof (pool_set_inputs cs wc) as Hq. rewrite Hrun in Hq. cbn in Hq.
  rewrite Hq, <- Hwc. reflexivity.
Qed.


Lemma pool_execute w : thread_pool_ (self (snd (execute w))) = thread_pool_ (self w).
Proof.
  unfold ExecutorSpec.execute, pipeline_Run, pipeline_Output. unfold bind at 1.
  pose proof (pool_pipeline_call EvRun DaliPipeline.Run w) as H1.
  destruct ((run emit EvRun in on_pipeline DaliPipeline.Run) w) as [[[] | err] w1];
    cbn in *; [| exact H1].
  rewrite <- H1. apply pool_pipeline_call.
Qed.

(** *** The pools stay consistent *)

Lemma sound_bind {A B} (c : M (World H) A) (k : A -> M (World H) B) :
  sound c -> (forall x, sound (k x)) -> sound (bind c k).
Proof.
  intros Hc Hk w Hw. unfold bind. specialize (Hc w Hw).
  destruct (c w) as [[x | err] w']; cbn in *; [apply Hk |]; exact Hc.
Qed.

Lemma sound_pure {A} (c : M (World H) A) :
  (forall w, snd (c w) = w) -> sound c.
Proof. intros Hc w Hw. rewrite Hc. exact Hw. Qed.

Lemma sound_get_bind {A} (k : World H -> M (World H) A) :
  (forall w0, sound (k w0)) -> sound (bind get k).
Proof. intros Hk w Hw. unfold bind, get. apply Hk. exact Hw. Qed.

Lemma sound_emit ev : sound (emit ev).
Proof. intros w. apply pools_transfer; reflexivity. Qed.

Lemma sound_on_pipeline {A} (c : M (DaliPipeline.t H) A) : sound (on_pipeline c).
Proof.
  intros w. unfold on_pipeline.
  destruct (c (pipeline_ (self w))) as [r p]. cbn.
  apply pools_transfer; [reflexivity |].
  intros dev. apply buffers_of_set_pipeline.
Qed.

Lemma sound_pipeline_call {A} ev (c : M (DaliPipeline.t H) A) :
  sound (run emit ev in on_pipeline c).
Proof.
  apply sound_bind; [apply sound_emit | intros _]. apply sound_on_pipeline.
Qed.

Lemma sound_RunAll : sound RunAll.
Proof.
  intros w. rewrite RunAll_spec. apply pools_transfer; try reflexivity;
    intros dev; destruct dev; reflexivity.
Qed.

Lemma sound_schedule_out_fragments d p bufs : sound (schedule_out_fragments d p bufs).
Proof.
  intros w. rewrite schedule_out_fragments_spec. apply pools_transfer; try reflexivity;
    intros dev; destruct dev; reflexivity.
Qed.

Lemma sound_ScheduleInputCopy input : sound (ScheduleInputCopy input).
Proof.
  intros w Hw. destruct (buffers input) as [| first rest] eqn:Hbufs.
  { unfold ScheduleInputCopy. rewrite Hbufs. exact Hw. }
  rewrite (ScheduleInputCopy_spec input first rest w Hbufs).
  destruct (shortfall _ _ _ w); cbn [snd].
  - apply pools_consistent_cleared. exact Hw.
  - apply pools_consistent_staged. exact Hw.
Qed.

Lemma sound_assert_fits n d : sound (assert_fits n d).
Proof.
  apply sound_pure. intros w.
  pose proof (assert_fits_state n d w) as Hs.
  destruct (assert_fits n d w) as [r w']. apply (Hs _ _ eq_refl).
Qed.

Lemma sound_stage_input inp : sound (stage_input inp).
Proof.
  intros w Hw. rewrite stage_input_unfold. destruct (IsNoCopy w inp).
  - apply sound_bind; [apply sound_assert_fits | intros _; apply sound_pure; reflexivity |].
    exact Hw.
  - apply sound_bind; [apply sound_ScheduleInputCopy | intros c | exact Hw].
    apply sound_bind; [apply sound_assert_fits | intros _; apply sound_pure; reflexivity].
Qed.

Lemma sound_stage_inputs inputs : sound (stage_inputs inputs).
Proof.
  induction inputs as [| inp inputs IH]; cbn; [apply sound_pure; reflexivity |].
  apply sound_bind; [apply sound_stage_input | intros c].
  apply sound_bind; [exact IH | intros cs; apply sound_pure; reflexivity].
Qed.

Lemma sound_set_inputs cs : sound (set_inputs cs).
Proof.
  induction cs as [| c cs IH]; cbn; [apply sound_pure; reflexivity |].
  apply sound_bind; [| intros _; exact IH].
  unfold pipeline_SetInput. apply sound_bind; [apply sound_emit | intros _].
  apply sound_get_bind. intros w0. apply sound_on_pipeline.
Qed.

Lemma sound_SetupInputs inputs : sound (SetupInputs inputs).
Proof.
  unfold SetupInputs. destruct inputs as [| first others];
    [apply sound_pure; reflexivity |].
  apply sound_bind.
  { apply sound_pure. intros w.
    pose proof (check_batch_sizes_state (num_samples (shape (meta first))) others w) as Hs.
    destruct (check_batch_sizes _ _ w) as [r w']. apply (Hs _ _ eq_refl). }
  intros _. apply sound_bind; [apply sound_stage_inputs | intros cs].
  apply sound_bind; [apply sound_RunAll | intros _; apply sound_set_inputs].
Qed.

Lemma sound_try_catch_rethrow {A} (body : M (World H) A) handler :
  sound body -> sound handler -> sound (try_catch_rethrow body handler).
Proof.
  intros Hb Hh w Hw. unfold try_catch_rethrow. specialize (Hb w Hw).
  destruct (body w) as [[x | err] w']; [exact Hb |].
  destruct err; try exact Hb. cbn in Hb.
  specialize (Hh w' Hb). destruct (handler w') as [[[] | err] w'']; exact Hh.
Qed.

Lemma sound_execute : sound execute.
Proof. apply sound_bind; [| intros _]; apply sound_pipeline_call. Qed.

Lemma sound_put_output idx output : sound (put_output idx output).
Proof.
  assert (Hdirect : forall p d, sound (pipeline_PutOutput p idx d)).
  { intros p d. apply sound_pipeline_call. }
  assert (Hstaged : forall bufs,
    sound (do w <- get in
           let dev :=
             if bool_decide (DaliPipeline.GetOutputDevice (pipeline_ (self w)) idx = CPU)
             then CPU else GPU in
           let key := name (meta output) +:+ "_out" in
           run on_buffer dev key
                 (fun storage => IOBuffer.resize storage (total_size bufs)) in
           do interm_descr <- on_buffer dev key IOBuffer.get_descr in
           run pipeline_PutOutput (data interm_descr) idx (device interm_descr) in
           schedule_out_fragments interm_descr (data interm_descr) bufs)).
  { intros bufs. apply sound_get_bind. intros w0. cbv zeta.
    set (dev := if bool_decide _ then CPU else GPU).
    set (key := name (meta output) +:+ "_out").
    intros w Hw.
    unfold bind at 1. rewrite on_buffer_resize by apply total_size_range.
    destruct (shortfall _ _ _ w); [apply pools_consistent_cleared; exact Hw |].
    erewrite bind_Ok by apply on_buffer_get_descr.
    apply sound_bind; [apply Hdirect | intros _; apply sound_schedule_out_fragments |].
    apply pools_consistent_resized. exact Hw. }
  unfold put_output.
  destruct (buffers output) as [| buffer [| buffer' rest]];
    [apply Hstaged | apply Hdirect | apply Hstaged].
Qed.

Lemma sound_put_outputs_from outputs : forall idx, sound (put_outputs_from idx outputs).
Proof.
  induction outputs as [| output outputs IH]; intros idx; cbn;
    [apply sound_pure; reflexivity |].
  apply sound_bind; [apply sound_put_output | intros _; apply IH].
Qed.

(** The pools are consistent when the executor is constructed and stay
    so through every call of [Run] and of [PutOutputs], however the call
    ends. *)
Lemma pools_consistent_newly_constructed w : pools_consistent (newly_constructed w).
Proof. intros dev key b. destruct dev; cbn; rewrite lookup_empty; discriminate. Qed.

Lemma sound_Run inputs : sound (DaliExecutor.Run inputs).
Proof.
  unfold DaliExecutor.Run.
  apply sound_bind; [apply sound_SetupInputs | intros _].
  apply sound_bind; [| intros _; apply sound_pure; reflexivity].
  apply sound_try_catch_rethrow; [apply sound_execute | apply sound_pipeline_call].
Qed.

Lemma sound_PutOutputs outputs : sound (PutOutputs outputs).
Proof.
  unfold PutOutputs.
  apply sound_bind; [apply sound_put_outputs_from | intros _].
  apply sound_bind; [| intros _; apply sound_RunAll].
  unfold pipeline_SyncOutputStream.
  apply sound_bind; [apply sound_emit | intros _].
  intros w. unfold modify. cbn. apply pools_transfer; try reflexivity;
    intros dev; destruct dev; reflexivity.
Qed.

(** An executor is ahead of the one that would be constructed now around
    its pipeline, when it has no work queued and no failure on record. *)
Lemma ahead_newly_constructed w :
  pools_consistent w -> thread_pool_ (self w) = mkPool [] [] ->
  ahead w (newly_constructed w).
Proof.
  intros Hpools Hpool. constructor; try reflexivity.
  - split; reflexivity.
  - unfold queue. rewrite Hpool. reflexivity.
  - unfold errors. rewrite Hpool. reflexivity.
  - exact Hpools.
  - apply pools_consistent_newly_constructed.
  - intros dev key.
    pose proof (buffer_at_consistent dev key w Hpools) as [_ Hcap].
    assert (Hnew : IOBuffer.Capacity (buffer_at dev key (newly_constructed w)) = 0).
    { unfold buffer_at. destruct dev; cbn; rewrite lookup_empty; reflexivity. }
    rewrite Hnew. exact Hcap.
Qed.

(** [pipeline_.Reset()], by cases. *)
Lemma pipeline_Reset_cases w :
  pipeline_Reset w =
    (fst (DaliPipeline.Reset (pipeline_ (self w))),
     set_self (set_pipeline (snd (DaliPipeline.Reset (pipeline_ (self w)))) (self w))
              (set_trace (trace w ++ [EvReset]) w)).
Proof.
  unfold pipeline_Reset, bind, emit, modify, on_pipeline. cbn.
  destruct (DaliPipeline.Reset _) as [r p]. reflexivity.
Qed.

(** C5, as amended.  An invocation of [Run] whose inputs were set up and
    whose pipeline execution ([pipeline_.Run()], [pipeline_.Output()])
    fails: [Run] ends with a failure, hence returns no output metadata.
    When the failure is a [std::runtime_error], [pipeline_.Reset()] is
    called, the last call on record.  When that succeeds, [Run] ends with
    the failure of the execution; the handle is the one
    [daliCreatePipeline] has just filled; no copy is left queued; and the
    executor is as good as one just constructed around this pipeline:
    every invocation that such an executor would complete is completed,
    with the same result.  When [Reset] fails itself, [Run] ends with the
    failure of [Reset].  When the failure of the execution is of any other
    class, [Run] ends with it where the execution stopped: [Reset] is not
    called. *)
Theorem failed_run_resets_and_recovers w inputs w1 err w2 :
  pools_consistent w ->
  SetupInputs inputs w = (Ok tt, w1) ->
  execute w1 = (Err err, w2) ->
  match err with
  | runtime_error _ =>
      exists r w',
        pipeline_Reset w2 = (r, w') /\
        trace w' = trace w2 ++ [EvReset] /\
        match r with
        | Ok _ =>
            DaliExecutor.Run inputs w = (Err err, w') /\
            (exists h, recreated (pipeline_ (self w2)) = Ok h /\
                       handle_set h = true /\
                       DaliPipeline.handle_ (pipeline_ (self w')) = h) /\
            queue w' = [] /\
            pools_consistent w' /\
            (forall inputs2 outs wn,
               DaliExecutor.Run inputs2 (newly_constructed w') = (Ok outs, wn) ->
               exists w'', DaliExecutor.Run inputs2 w' = (Ok outs, w''))
        | Err err' => DaliExecutor.Run inputs w = (Err err', w')
        end
  | _ => DaliExecutor.Run inputs w = (Err err, w2)
  end.
Proof.
  intros Hpools Hsetup Hexec.
  assert (Hrun : forall r,
            try_catch_rethrow execute pipeline_Reset w1 = r ->
            DaliExecutor.Run inputs w =
              (match fst r with Ok _ => Err err | Err e => Err e end, snd r)).
  { intros r <-. unfold DaliExecutor.Run. rewrite (bind_Ok _ _ _ _ _ Hsetup).
    fold execute. unfold bind at 1.
    unfold try_catch_rethrow. rewrite Hexec.
    destruct err; try reflexivity.
    destruct (pipeline_Reset w2) as [[[] | err'] w']; reflexivity. }
  assert (Hother : try_catch_rethrow execute pipeline_Reset w1 =
                   match err with
                   | runtime_error _ =>
                       match pipeline_Reset w2 with
                       | (Ok _, w') => (Err err, w')
                       | (Err err', w') => (Err err', w')
                       end
                   | _ => (Err err, w2)
                   end).
  { unfold try_catch_rethrow. rewrite Hexec. destruct err; reflexivity. }
  destruct err as [| | what | | |];
    try (rewrite (Hrun _ Hother); reflexivity).
  assert (Hpools2 : pools_consistent w2).
  { pose proof (sound_SetupInputs inputs w Hpools) as Hr1. rewrite Hsetup in Hr1.
    pose proof (sound_execute w1 Hr1) as Hr2. rewrite Hexec in Hr2. exact Hr2. }
  assert (Hpool2 : thread_pool_ (self w2) = mkPool [] []).
  { pose proof (pool_execute w1) as Hq. rewrite Hexec in Hq. cbn in Hq.
    rewrite Hq. apply (SetupInputs_clears inputs w). exact Hsetup. }
  rewrite pipeline_Reset_cases in Hother |- *.
  set (w' := set_self _ _) in *.
  exists (fst (DaliPipeline.Reset (pipeline_ (self w2)))), w'.
  split; [reflexivity |]. split; [reflexivity |].
  assert (Hpools' : pools_consistent w').
  { pose proof (sound_pipeline_call EvReset DaliPipeline.Reset w2 Hpools2) as Hr.
    fold pipeline_Reset in Hr. rewrite pipeline_Reset_cases in Hr. exact Hr. }
  destruct (fst (DaliPipeline.Reset (pipeline_ (self w2)))) as [[] | err'] eqn:Hres;
    [| rewrite (Hrun _ Hother); reflexivity].
  split; [rewrite (Hrun _ Hother); reflexivity |].
  split.
  { subst w'. cbn. rewrite Reset_cases in Hres |- *.
    destruct (recreated (pipeline_ (self w2))) as [h | e]; [| discriminate].
    cbn in Hres. exists h. split; [reflexivity |].
    destruct (handle_set h); [split; reflexivity | discriminate]. }
  split; [unfold queue; change (thread_pool_ (self w')) with (thread_pool_ (self w2));
          rewrite Hpool2; reflexivity |].
  split; [exact Hpools' |].
  intros inputs2 outs wn Hnew.
  destruct (follows_Run inputs2 w' (newly_constructed w')
              (ahead_newly_constructed w' Hpools' Hpool2) outs wn Hnew)
    as (w'' & Hrun2 & _).
  exists w''. exact Hrun2.
Qed.

End WithApi.

(** *** The statements on the reference instance *)

Lemma outcome {S A} (x : result A * S) r : fst x = r -> x = (r, snd x).
Proof. intros <-. destruct x; reflexivity. Qed.

Lemma sample_scheduler_fair : fair Sample.scheduler.
Proof. intros q. apply Permutation_rev. Qed.

Lemma sample_pools_consistent : pools_consistent Sample.world.
Proof. intros dev key b. destruct dev; cbn; rewrite lookup_empty; discriminate. Qed.


Lemma zero_copy_iff_single_resident_fragment_witness :
  IsNoCopy Sample.world Sample.whole_input = true /\
  stage_input Sample.whole_input Sample.world = (Ok Sample.whole_input, Sample.world) /\
  IsNoCopy Sample.world Sample.remote_input = false /\
  IsNoCopy Sample.world Sample.split_input = false /\
  exists w' evs,
    SetupInputs [Sample.split_input; Sample.whole_input] Sample.world = (Ok tt, w') /\
    trace w' = evs /\
    nth 1 (handed_over evs) Sample.split_input = Sample.whole_input.
Proof.
  destruct (zero_copy_iff_single_resident_fragment Sample.world)
    as (Hiff & Hpath & Hsetup).
  assert (Hel : eligible Sample.world Sample.whole_input).
  { eexists. split; [reflexivity | left; reflexivity]. }
  split; [apply Hiff; exact Hel |].
  split.
  { assert (Hst : stage_input Sample.whole_input Sample.world =
                    (Ok Sample.whole_input,
                     snd (stage_input Sample.whole_input Sample.world)))
      by (apply outcome; vm_compute; reflexivity).
    destruct (Hpath _ _ _ Hst) as [Hzero _].
    destruct (proj1 Hzero Hel) as [_ Hw].
    rewrite Hw in Hst. exact Hst. }
  split.
  { destruct (IsNoCopy Sample.world Sample.remote_input) eqn:E; [| reflexivity].
    destruct (proj1 (Hiff _) E) as (b & [= <-] & [Hd | Hi]); discriminate. }
  split.
  { destruct (IsNoCopy Sample.world Sample.split_input) eqn:E; [| reflexivity].
    destruct (proj1 (Hiff _) E) as (b & Hb & _); discriminate. }
  assert (Hrun : SetupInputs [Sample.split_input; Sample.whole_input] Sample.world =
                   (Ok tt, snd (SetupInputs [Sample.split_input; Sample.whole_input]
                                            Sample.world)))
    by (apply outcome; vm_compute; reflexivity).
  destruct (Hsetup _ _ Hrun) as (evs & Htr & Hfor & _).
  eexists. exists evs. split; [exact Hrun |]. split; [exact Htr |].
  inversion Hfor as [| x c xs cs _ Hrest Hx Hcs].
  inversion Hrest as [| x' c' xs' cs' Hc' _ Hx' Hcs'].
  cbn. apply Hc'. exact Hel.
Defined.

Lemma staged_input_is_concatenation_witness :
  exists d w1 w2,
    ScheduleInputCopy Sample.split_input Sample.world =
      (Ok (mkIODescr (meta Sample.split_input) [d]), w1) /\
    RunInputCopy w1 = (Ok tt, w2) /\
    data d = mkPtr (Pooled CPU "images_inp") 0 /\
    size d = 600 /\
    read (memory w2) (data d) (size d) =
      read Sample.memory (mkPtr (Caller 2) 0) 100 ++
      read Sample.memory (mkPtr (Caller 3) 0) 200 ++
      read Sample.memory (mkPtr (Caller 4) 0) 300.
Proof.
  destruct (staged_input_is_concatenation Sample.world Sample.split_input
              (Sample.fragment 2 100 CPU 0)
              [Sample.fragment 3 200 CPU 0; Sample.fragment 4 300 CPU 0])
    as (d & w1 & r & w2 & evs & Hs & Hr & Hok & _ & Htr & _ & _ & Hd & Hn & Hread & _).
  - reflexivity.
  - repeat constructor; cbn; lia.
  - vm_compute. reflexivity.
  - repeat constructor; eexists; reflexivity.
  - constructor.
  - apply sample_scheduler_fair.
  - vm_compute. reflexivity.
  - assert (Hevs : evs = trace (snd (ScheduleInputCopy Sample.split_input Sample.world))).
    { rewrite Hs. cbn [snd]. rewrite Htr. reflexivity. }
    assert (Hhost : Forall (fun t => host_to_host t = true) (added_tasks evs)).
    { rewrite Hevs. vm_compute. repeat constructor. }
    exists d, w1, w2.
    split; [exact Hs |].
    split.
    { rewrite Hr. f_equal. apply Hok; [reflexivity | | constructor].
      eapply List.Forall_impl; [| exact Hhost]. intros t Ht. left. exact Ht. }
    split; [exact Hd |].
    split; [exact Hn |]. rewrite Hread.
    + cbn [flat_map buffers Sample.split_input]. rewrite app_nil_r. reflexivity.
    + eapply List.Forall_impl; [| exact Hhost]. intros t Ht. left. exact Ht.
    + constructor.
Defined.

Lemma staged_sizes_add_up_witness :
  exists d w1 r w2 evs b,
    ScheduleInputCopy Sample.split_input Sample.world =
      (Ok (mkIODescr (meta Sample.split_input) [d]), w1) /\
    RunInputCopy w1 = (r, w2) /\
    trace w1 = trace Sample.world ++ evs /\
    sum (added_sizes evs) = 600 /\
    cpu_buffers_ (self w2) !! "images_inp"%string = Some b /\
    IOBuffer.filled_ b = 600 /\
    size d = 600.
Proof.
  destruct (staged_sizes_add_up Sample.world Sample.split_input
              (Sample.fragment 2 100 CPU 0)
              [Sample.fragment 3 200 CPU 0; Sample.fragment 4 300 CPU 0])
    as (d & w1 & r & w2 & evs & b & Hs & Hr & Ht & Hsum & _ & Hb & Hf & _ & Hn).
  - reflexivity.
  - repeat constructor; cbn; lia.
  - vm_compute. reflexivity.
  - vm_compute. reflexivity.
  - exists d, w1, r, w2, evs, b. repeat split; assumption.
Defined.

Lemma staging_device_is_first_fragment_device_witness :
  exists d w1,
    ScheduleInputCopy Sample.split_input Sample.world =
      (Ok (mkIODescr (meta Sample.split_input) [d]), w1) /\
    device d = CPU /\
    gpu_buffers_ (self w1) = gpu_buffers_ (self Sample.world).
Proof.
  assert (Hroom : obtainable CPU "images_inp" 600 Sample.world)
    by (vm_compute; reflexivity).
  destruct (staging_device_is_first_fragment_device Sample.world Sample.split_input
              (Sample.fragment 2 100 CPU 0)
              [Sample.fragment 3 200 CPU 0; Sample.fragment 4 300 CPU 0] eq_refl Hroom)
    as (d & w1 & evs & Hs & _ & _ & _ & _ & _ & _ & Hhost).
  destruct Hhost as (Hd & Hg & _); [repeat constructor |].
  exists d, w1. repeat split; assumption.
Defined.

Lemma mismatched_batch_is_rejected_first_witness :
  DaliExecutor.Run [Sample.whole_input; Sample.pair_input] Sample.world =
    (Err assertion_failure, Sample.world).
Proof.
  apply (mismatched_batch_is_rejected_first Sample.world
           [Sample.whole_input; Sample.pair_input]
           Sample.whole_input Sample.pair_input).
  - left. reflexivity.
  - right. left. reflexivity.
  - vm_compute. discriminate.
Defined.

Lemma Run_needs_an_input_witness :
  DaliExecutor.Run [] Sample.world = (Err assertion_failure, Sample.world) /\
  Forall (fun inp => batch_size_of inp = 1) [Sample.remote_input].
Proof.
  destruct (Run_needs_an_input Sample.world) as (Hempty & _ & Hfirst).
  split; [exact Hempty |].
  apply (Hfirst Sample.whole_input [Sample.remote_input]
           [mkOutputInfo [[8]] 0 CPU; mkOutputInfo [[8]] 0 CPU]
           (snd (DaliExecutor.Run [Sample.whole_input; Sample.remote_input] Sample.world))).
  apply outcome. vm_compute. reflexivity.
Defined.

Lemma failed_run_resets_and_recovers_witness :
  exists w',
    DaliExecutor.Run [Sample.corrupt_input] Sample.world =
      (Err (runtime_error "corrupt sample"), w') /\
    List.last (trace w') EvRun = EvReset /\
    queue w' = [] /\
    exists w'',
      DaliExecutor.Run [Sample.whole_input] w' =
        (Ok [mkOutputInfo [[8]] 0 CPU], w'').
Proof.
  destruct (failed_run_resets_and_recovers Sample.world [Sample.corrupt_input]
              (snd (SetupInputs [Sample.corrupt_input] Sample.world))
              (runtime_error "corrupt sample")
              (snd (execute (snd (SetupInputs [Sample.corrupt_input] Sample.world)))))
    as (r & w' & Hreset & Htr & Hcase).
  - apply sample_pools_consistent.
  - apply outcome. vm_compute. reflexivity.
  - apply outcome. vm_compute. reflexivity.
  - assert (Hw : w' = snd (pipeline_Reset
                   (snd (execute (snd (SetupInputs [Sample.corrupt_input] Sample.world))))))
      by (rewrite Hreset; reflexivity).
    assert (Hr : r = Ok tt).
    { apply (f_equal fst) in Hreset. cbn [fst] in Hreset. rewrite <- Hreset.
      vm_compute. reflexivity. }
    rewrite Hr in Hcase. destruct Hcase as (Hrun & _ & Hq & _ & Hnext).
    exists w'. split; [exact Hrun |].
    split; [rewrite Htr; apply List.last_last |].
    split; [exact Hq |].
    apply (Hnext [Sample.whole_input] [mkOutputInfo [[8]] 0 CPU]
             (snd (DaliExecutor.Run [Sample.whole_input] (newly_constructed w')))).
    apply outcome. rewrite Hw. vm_compute. reflexivity.
Defined.

(** C5, at inputs on which the code departs from the claim as it was
    stated.  The library [Sample.faulty] ends [daliRun] on a corrupt
    tensor with [std::bad_alloc].  The [catch] of [Run] does not take it:
    [Run] ends with this failure where the execution stopped, [Reset] is
    not called, and the handle still holds the corrupt tensor.  The next
    invocation, with an input that an executor just constructed
    processes, fails as well.  With the library [Sample.exhausted] the
    execution fails with a [std::runtime_error] and [Reset] is called, the
    last call on record; it releases the pipeline and fails to create
    another: [Run] ends with the failure of [Reset], not with the one of
    the execution, the handle holds no pipeline, and the next invocation
    fails. *)
Lemma failed_run_can_leave_the_pipeline_unusable :
  (let Run := DaliExecutor.Run (api := Sample.faulty) in
   exists w1 w2,
     SetupInputs (api := Sample.faulty) [Sample.corrupt_input] Sample.world = (Ok tt, w1) /\
     ExecutorSpec.execute (api := Sample.faulty) w1 = (Err bad_alloc, w2) /\
     Run [Sample.corrupt_input] Sample.world = (Err bad_alloc, w2) /\
     ~ In EvReset (trace w2) /\
     Sample.fed (DaliPipeline.handle_ (pipeline_ (self w2))) =
       [("images"%string, [Byte.xff; Byte.xff; Byte.xff; Byte.xff])] /\
     (exists wn, Run [Sample.whole_input] Sample.world =
                   (Ok [mkOutputInfo [[8]] 0 CPU], wn)) /\
     (exists w3, Run [Sample.whole_input] w2 = (Err bad_alloc, w3))) /\
  (let Run := DaliExecutor.Run (api := Sample.exhausted) in
   exists w1 w2 w',
     SetupInputs (api := Sample.exhausted) [Sample.corrupt_input] Sample.world = (Ok tt, w1) /\
     ExecutorSpec.execute (api := Sample.exhausted) w1 =
       (Err (runtime_error "corrupt sample"), w2) /\
     Run [Sample.corrupt_input] Sample.world =
       (Err (runtime_error "no memory for a pipeline"), w') /\
     trace w' = trace w2 ++ [EvReset] /\
     Sample.live (DaliPipeline.handle_ (pipeline_ (self w'))) = false /\
     (exists wn, Run [Sample.whole_input] Sample.world =
                   (Ok [mkOutputInfo [[8]] 0 CPU], wn)) /\
     (exists w3, Run [Sample.whole_input] w' = (Err (runtime_error "no pipeline"), w3))).
Proof.
  cbv zeta. split.
  - exists (snd (SetupInputs (api := Sample.faulty) [Sample.corrupt_input] Sample.world)).
    exists (snd (ExecutorSpec.execute (api := Sample.faulty)
                   (snd (SetupInputs (api := Sample.faulty)
                           [Sample.corrupt_input] Sample.world)))).
    split; [apply outcome; vm_compute; reflexivity |].
    split; [apply outcome; vm_compute; reflexivity |].
    split; [vm_compute; reflexivity |].
    split.
    { vm_compute. intros Hin. repeat (destruct Hin as [Hin | Hin]; [discriminate |]).
      exact Hin. }
    split; [vm_compute; reflexivity |].
    split; eexists; apply outcome; vm_compute; reflexivity.
  - exists (snd (SetupInputs (api := Sample.exhausted) [Sample.corrupt_input] Sample.world)).
    exists (snd (ExecutorSpec.execute (api := Sample.exhausted)
                   (snd (SetupInputs (api := Sample.exhausted)
                           [Sample.corrupt_input] Sample.world)))).
    exists (snd (DaliExecutor.Run (api := Sample.exhausted)
                   [Sample.corrupt_input] Sample.world)).
    split; [apply outcome; vm_compute; reflexivity |].
    split; [apply outcome; vm_compute; reflexivity |].
    split; [apply outcome; vm_compute; reflexivity |].
    split; [vm_compute; reflexivity |].
    split; [vm_compute; reflexivity |].
    split; eexists; apply outcome; vm_compute; reflexivity.
Qed.



(** ** Further properties of the executor *)

Section More.
Import ExecutorTerms.
Context {H : Type} {api : DaliApi H} {machine : Machine}.
Implicit Types (w : World H).

Local Abbreviation emits P c := (ExecutorTerms.emits (H := H) P c).
Local Abbreviation steady c := (ExecutorTerms.steady (H := H) c).
Local Abbreviation execute := (ExecutorSpec.execute (H := H)).

(** *** Keys of pooled buffers *)

Lemma length_append s t :
  String.length (s +:+ t) = (String.length s + String.length t)%nat.
Proof.
  induction s as [| a s IH]; [reflexivity |].
  change (S (String.length (s +:+ t)) = S (String.length s + String.length t)).
  f_equal. exact IH.
Qed.

Lemma append_same_length s1 : forall s2 t1 t2,
  String.length s1 = String.length s2 ->
  s1 +:+ t1 = s2 +:+ t2 -> s1 = s2 /\ t1 = t2.
Proof.
  induction s1 as [| a s1 IH]; intros [| a' s2] t1 t2 Hlen Heq; try discriminate.
  - split; [reflexivity | exact Heq].
  - change (String a (s1 +:+ t1) = String a' (s2 +:+ t2)) in Heq.
    injection Hlen as Hlen. injection Heq as -> Heq.
    destruct (IH _ _ _ Hlen Heq) as [-> ->]. split; reflexivity.
Qed.

Lemma staging_key_inj (a b : IODescr) :
  staging_key a = staging_key b -> name (meta a) = name (meta b).
Proof.
  unfold staging_key. intros Heq.
  assert (Hlen : String.length (name (meta a)) = String.length (name (meta b))).
  { apply (f_equal String.length) in Heq. rewrite !length_append in Heq. cbn in Heq. lia. }
  apply (append_same_length _ _ _ _ Hlen Heq).
Qed.

Lemma staging_key_not_output_key (a b : IODescr) : staging_key a <> output_key b.
Proof.
  unfold staging_key, output_key. intros Heq.
  assert (Hlen : String.length (name (meta a)) = String.length (name (meta b))).
  { apply (f_equal String.length) in Heq. rewrite !length_append in Heq. cbn in Heq. lia. }
  destruct (append_same_length _ _ _ _ Hlen Heq) as [_ Hsuffix]. discriminate.
Qed.

Lemma lookup_with_buffer dev key (b : IOBuffer.t dev) dev' key' w :
  (dev', key') <> (dev, key) ->
  buffers_of dev' (self (with_buffer dev key b w)) !! key' =
  buffers_of dev' (self w) !! key'.
Proof.
  intros Hne. unfold with_buffer. cbn [self set_self].
  destruct dev, dev'; cbn; try reflexivity;
    apply lookup_insert_ne; intros ->; apply Hne; reflexivity.
Qed.

(** Staging an input, however it ends, changes one pooled buffer, the one
    under [name + "_inp"] in the pool of the first fragment's device, and
    no other: not the staging buffer of an input with another name, and no
    buffer [PutOutputs] stages an output in, whatever the names are.  It
    succeeds when the storage for the staging buffer can be had. *)
Theorem staging_an_input_touches_one_buffer w input first rest :
  buffers input = first :: rest ->
  exists r w1,
    ScheduleInputCopy input w = (r, w1) /\
    (obtainable (device first) (staging_key input) (total_size (buffers input)) w ->
     exists c, r = Ok c) /\
    (forall dev key, (dev, key) <> (device first, staging_key input) ->
       buffers_of dev (self w1) !! key = buffers_of dev (self w) !! key) /\
    (forall other dev, name (meta other) <> name (meta input) ->
       buffers_of dev (self w1) !! staging_key other =
       buffers_of dev (self w) !! staging_key other) /\
    (forall output dev,
       buffers_of dev (self w1) !! output_key output =
       buffers_of dev (self w) !! output_key output).
Proof.
  intros Hbufs.
  pose proof (ScheduleInputCopy_spec input first rest w Hbufs) as Hspec.
  cbv zeta in Hspec. rewrite staging_device_first in Hspec.
  eexists. eexists. split; [apply surjective_pairing |].
  split.
  { unfold obtainable. intros Hroom. rewrite Hspec, Hroom. eexists. reflexivity. }
  assert (Hframe : forall dev key, (dev, key) <> (device first, staging_key input) ->
            buffers_of dev (self (snd (ScheduleInputCopy input w))) !! key =
            buffers_of dev (self w) !! key).
  { intros dev key Hne. rewrite Hspec.
    destruct (shortfall _ _ _ w); cbn [snd].
    - apply lookup_with_buffer. exact Hne.
    - rewrite buffers_of_scheduled. apply lookup_with_buffer. exact Hne. }
  split; [exact Hframe |]. split.
  - intros other dev Hname. apply Hframe. intros [= _ Hkey].
    apply Hname. apply staging_key_inj. exact Hkey.
  - intros output dev. apply Hframe. intros [= _ Hkey].
    symmetry in Hkey. exact (staging_key_not_output_key _ _ Hkey).
Qed.

(** *** What is on record *)

Lemma emits_still {A} (P : event -> Prop) (c : M (World H) A) :
  (forall w, trace (snd (c w)) = trace w) -> emits P c.
Proof.
  intros Hc w. exists []. rewrite Hc, app_nil_r. split; [reflexivity | constructor].
Qed.

Lemma emits_bind {A B} (P : event -> Prop) (c : M (World H) A) (k : A -> M (World H) B) :
  emits P c -> (forall x, emits P (k x)) -> emits P (bind c k).
Proof.
  intros Hc Hk w. destruct (Hc w) as (evs1 & Htr1 & Hp1). unfold bind.
  destruct (c w) as [[x | err] w1]; cbn in *.
  - destruct (Hk x w1) as (evs2 & Htr2 & Hp2). exists (evs1 ++ evs2).
    rewrite Htr2, Htr1, app_assoc.
    split; [reflexivity | apply Forall_app; split; assumption].
  - exists evs1. split; assumption.
Qed.




Lemma copy_events_announce s ts :
  Forall (fun ev => copy_event ev /\ ev <> EvRunAll) (flat_map (announce s true) ts).
Proof.
  induction ts as [| t ts IH]; [constructor |].
  cbn [flat_map]. apply Forall_app. split; [| exact IH].
  unfold announce. destruct (true && starts_early s t);
    repeat constructor; discriminate.
Qed.


Lemma emits_ScheduleInputCopy input : emits copy_event (ScheduleInputCopy input).
Proof.
  intros w. destruct (buffers input) as [| first rest] eqn:Hbufs.
  - exists []. unfold ScheduleInputCopy. rewrite Hbufs. cbn. rewrite app_nil_r.
    split; [reflexivity | constructor].
  - rewrite (ScheduleInputCopy_spec input first rest w Hbufs).
    destruct (shortfall _ _ _ w); cbn [snd].
    + exists []. rewrite app_nil_r. split; [reflexivity | constructor].
    + eexists. split; [reflexivity |].
      eapply List.Forall_impl; [| apply copy_events_announce]. intros ev [Hev _]. exact Hev.
Qed.

Lemma emits_assert_fits (P : event -> Prop) n d : emits P (assert_fits n d : M (World H) unit).
Proof.
  apply emits_still. intros w.
  pose proof (assert_fits_state n d w) as Hs.
  destruct (assert_fits n d w) as [r w']. rewrite (Hs _ _ eq_refl). reflexivity.
Qed.

Lemma emits_stage_input inp : emits copy_event (stage_input inp).
Proof.
  intros w. rewrite stage_input_unfold. destruct (IsNoCopy w inp).
  - apply emits_bind; [apply emits_assert_fits | intros _].
    apply emits_still. reflexivity.
  - apply emits_bind; [apply emits_ScheduleInputCopy | intros c].
    apply emits_bind; [apply emits_assert_fits | intros _].
    apply emits_still. reflexivity.
Qed.

Lemma emits_stage_inputs inputs : emits copy_event (stage_inputs inputs).
Proof.
  induction inputs as [| inp inputs IH]; cbn; [apply emits_still; reflexivity |].
  apply emits_bind; [apply emits_stage_input | intros c].
  apply emits_bind; [exact IH | intros cs; apply emits_still; reflexivity].
Qed.









(** *** Which inputs are accepted *)

Lemma IsNoCopy_single w inp :
  IsNoCopy w inp = true -> exists b, buffers inp = [b].
Proof.
  unfold IsNoCopy. destruct (buffers inp) as [| b [| b' bufs]]; try discriminate.
  intros _. exists b. reflexivity.
Qed.

Lemma assert_fits_cases n d w :
  assert_fits n d w =
    match first_size d with
    | Some k => if n <=? k then (Ok tt, w) else (Err assertion_failure, w)
    | None => (Err assertion_failure, w)
    end.
Proof.
  unfold assert_fits, assert, ret, throw.
  destruct (first_size d) as [k |]; [destruct (n <=? k) |]; reflexivity.
Qed.

(** One round of the loop of [SetupInputs], by cases. *)
Lemma stage_input_outcome w inp :
  match buffers inp with
  | [] => stage_input inp w = (Err assertion_failure, w) /\ provided w inp = None
  | first :: rest =>
      exists n, provided w inp = Some n /\
        if IsNoCopy w inp
        then rest = [] /\ n = size first /\
             stage_input inp w =
               if DaliPipeline.tensor_bytes inp <=? n
               then (Ok inp, w) else (Err assertion_failure, w)
        else n = total_size (buffers inp) /\
             match shortfall (staging_device first) (staging_key inp) n w with
             | Some err => exists w1, stage_input inp w = (Err err, w1)
             | None =>
                 exists d w1,
                   ScheduleInputCopy inp w = (Ok (mkIODescr (meta inp) [d]), w1) /\
                   size d = n /\
                   stage_input inp w =
                     if DaliPipeline.tensor_bytes inp <=? n
                     then (Ok (mkIODescr (meta inp) [d]), w1)
                     else (Err assertion_failure, w1)
             end
  end.
Proof.
  rewrite stage_input_unfold. unfold provided.
  destruct (buffers inp) as [| first rest] eqn:Hbufs.
  - assert (Hnc : IsNoCopy w inp = false) by (unfold IsNoCopy; rewrite Hbufs; reflexivity).
    rewrite Hnc. split; [| reflexivity].
    unfold bind, ScheduleInputCopy. rewrite Hbufs. reflexivity.
  - eexists. split; [reflexivity |].
    destruct (IsNoCopy w inp) eqn:Hnc.
    + destruct (IsNoCopy_single _ _ Hnc) as (b & Hb). rewrite Hbufs in Hb.
      injection Hb as -> ->. split; [reflexivity |]. split; [reflexivity |].
      unfold bind. rewrite assert_fits_cases. unfold first_size. rewrite Hbufs.
      destruct (_ <=? _); reflexivity.
    + split; [reflexivity |].
      pose proof (ScheduleInputCopy_spec inp first rest w Hbufs) as Hspec.
      cbv zeta in Hspec. rewrite <- Hbufs.
      destruct (shortfall _ _ _ w) as [err |].
      { eexists. apply bind_Err. exact Hspec. }
      eexists. eexists. split; [exact Hspec |]. split; [reflexivity |].
      rewrite (bind_Ok _ _ _ _ _ Hspec). unfold bind. rewrite assert_fits_cases.
      cbn [first_size buffers IOBuffer.GetDescr size resized IOBuffer.filled_].
      destruct (_ <=? _); reflexivity.
Qed.

(** The loop of [SetupInputs] accepts an input exactly when the input has
    a fragment, the storage to stage it in can be had if it is to be
    copied, and the bytes behind the descriptor it pushes (the single
    fragment of an input that is not copied, the staging buffer
    otherwise) are at least the bytes of the tensor,
    [num_elements * dali_type_size].  It then pushes a descriptor with the
    same metadata and one fragment of that many bytes.  A rejection is a
    failed assertion, or the exception with which the storage was
    refused; of an input that is not copied, or has no fragment, it is a
    failed assertion and leaves no trace at all. *)
Theorem input_is_accepted_iff_its_bytes_suffice w inp :
  (forall c w', stage_input inp w = (Ok c, w') ->
     exists n b, provided w inp = Some n /\ DaliPipeline.tensor_bytes inp <= n /\
                 meta c = meta inp /\ buffers c = [b] /\ size b = n) /\
  (forall n, provided w inp = Some n -> DaliPipeline.tensor_bytes inp <= n ->
     input_room w inp ->
     exists c w', stage_input inp w = (Ok c, w')) /\
  (forall e w', stage_input inp w = (Err e, w') ->
     (e = assertion_failure \/
      exists first rest,
        buffers inp = first :: rest /\ IsNoCopy w inp = false /\
        shortfall (staging_device first) (staging_key inp)
                  (total_size (buffers inp)) w = Some e) /\
     (IsNoCopy w inp = true \/ buffers inp = [] -> e = assertion_failure /\ w' = w)).
Proof.
  pose proof (stage_input_outcome w inp) as Hcase.
  destruct (buffers inp) as [| first rest] eqn:Hbufs.
  { destruct Hcase as [Hrun Hnone]. rewrite Hrun, Hnone.
    split; [discriminate |]. split; [discriminate |].
    intros e w' [= <- <-]. split; [left; reflexivity |]. intros _. split; reflexivity. }
  destruct Hcase as (n & Hprov & Hcase). rewrite Hprov.
  destruct (IsNoCopy w inp) eqn:Hnc.
  - destruct Hcase as (-> & -> & Hrun). rewrite Hrun.
    destruct (_ <=? _) eqn:Hle.
    + apply Z.leb_le in Hle. split.
      { intros c w' [= <- <-]. exists (size first), first.
        repeat split; [exact Hle | exact Hbufs]. }
      split; [intros n _ _ _; eauto | discriminate].
    + apply Z.leb_gt in Hle. split; [discriminate |]. split.
      { intros n [= <-] Hn. lia. }
      intros e w' [= <- <-]. split; [left; reflexivity |]. intros _. split; reflexivity.
  - destruct Hcase as (-> & Hcase).
    destruct (shortfall _ _ _ w) as [err |] eqn:Hshort.
    + destruct Hcase as (w1 & Hrun). rewrite Hrun.
      split; [discriminate |]. split.
      { intros n _ _ Hroom. exfalso.
        specialize (Hroom Hnc first rest Hbufs). unfold obtainable in Hroom.
        rewrite Hbufs in Hroom. congruence. }
      intros e w' [= <- <-]. split.
      * right. exists first, rest. repeat split. exact Hshort.
      * intros [Hc | Hc]; discriminate.
    + destruct Hcase as (d & w1 & _ & Hd & Hrun). rewrite Hrun.
      destruct (_ <=? _) eqn:Hle.
      * apply Z.leb_le in Hle. split.
        { intros c w' [= <- <-]. exists (total_size (first :: rest)), d.
          repeat split; [exact Hle | exact Hd]. }
        split; [intros n _ _ _; eauto | discriminate].
      * apply Z.leb_gt in Hle. split; [discriminate |]. split.
        { intros n [= <-] Hn. lia. }
        intros e w' [= <- <-]. split; [left; reflexivity |].
        intros [Hc | Hc]; discriminate.
Qed.

(** *** What the pipeline is handed *)

Lemma stage_inputs_Forall2 (R : IODescr -> IODescr -> Prop) :
  (forall inp w c w', stage_input inp w = (Ok c, w') -> R inp c) ->
  forall inputs w cs w', stage_inputs inputs w = (Ok cs, w') -> Forall2 R inputs cs.
Proof.
  intros HR. induction inputs as [| inp inputs IH]; intros w cs w' Hrun.
  - cbn in Hrun. unfold ret in Hrun. injection Hrun as <- _. constructor.
  - cbn [stage_inputs] in Hrun.
    apply bind_Ok_inv in Hrun as (c & w1 & Hone & Hrun).
    apply bind_Ok_inv in Hrun as (cs' & w2 & Hrest & Hret).
    unfold ret in Hret. injection Hret as <- _.
    constructor; [eapply HR; exact Hone | eapply IH; exact Hrest].
Qed.

(** A successful [SetupInputs], taken apart. *)
Lemma SetupInputs_Ok_inv inputs w w' :
  SetupInputs inputs w = (Ok tt, w') ->
  exists cs wb,
    stage_inputs inputs w = (Ok cs, wb) /\
    drain_result wb = Ok tt /\
    set_inputs cs (drained wb) = (Ok tt, w') /\
    trace w' = trace wb ++ EvRunAll :: map EvMemCopy (run_order wb) ++ map EvSetInput cs.
Proof.
  intros Hrun. unfold SetupInputs in Hrun.
  destruct inputs as [| first others]; [discriminate |].
  apply bind_Ok_inv in Hrun as (u & wa & Hcheck & Hrun).
  apply check_batch_sizes_state in Hcheck. subst wa.
  apply bind_Ok_inv in Hrun as (cs & wb & Hstage & Hrun).
  apply bind_Ok_inv in Hrun as (u' & wc & Hall & Hset).
  unfold RunInputCopy in Hall. rewrite RunAll_spec in Hall.
  injection Hall as Hres <-. destruct u'.
  exists cs, wb. split; [exact Hstage |]. split; [exact Hres |]. split; [exact Hset |].
  rewrite (set_inputs_trace _ _ _ Hset), trace_drained.
  rewrite <- app_assoc. reflexivity.
Qed.

Lemma handed_over_setup staging copies cs :
  handed_over staging = [] ->
  handed_over (staging ++ EvRunAll :: map EvMemCopy copies ++ map EvSetInput cs) = cs.
Proof.
  intros Hst. rewrite handed_over_app, Hst.
  change (EvRunAll :: map EvMemCopy copies ++ map EvSetInput cs)
    with ([EvRunAll] ++ map EvMemCopy copies ++ map EvSetInput cs).
  rewrite !handed_over_app, handed_over_copies, handed_over_inputs. reflexivity.
Qed.

Lemma handed_over_copy_events evs : Forall copy_event evs -> handed_over evs = [].
Proof.
  intros Hev. induction Hev as [| ev evs Hcopy _ IH]; [reflexivity |].
  destruct ev; try destruct Hcopy; exact IH.
Qed.

(** In a [SetupInputs] that succeeds the pipeline is handed one descriptor
    per input, in the order of the inputs; each has the metadata of its
    input and a single fragment, which is at least as long as the byte
    size the source computes for the tensor, the [size_t] product
    [num_elements * dali_type_size]; it is therefore at least as long as
    the tensor the metadata describe whenever that product is a [size_t]
    value, that is, does not wrap. *)
Theorem pipeline_is_handed_one_sufficient_fragment_per_input w inputs w' :
  SetupInputs inputs w = (Ok tt, w') ->
  exists evs,
    trace w' = trace w ++ evs /\
    Forall2 (fun inp c =>
               meta c = meta inp /\
               exists b, buffers c = [b] /\
                 DaliPipeline.tensor_bytes c <= size b /\
                 (is_size_t (num_elements (shape (meta c)) *
                             dali_type_size (type (meta c))) ->
                  num_elements (shape (meta c)) * dali_type_size (type (meta c))
                    <= size b))
            inputs (handed_over evs).
Proof.
  intros Hrun.
  destruct (SetupInputs_Ok_inv _ _ _ Hrun) as (cs & wb & Hstage & _ & _ & Htr).
  destruct (emits_stage_inputs inputs w) as (staging & Htrb & Hcopy).
  rewrite Hstage in Htrb. cbn [snd] in Htrb.
  exists (staging ++ EvRunAll :: map EvMemCopy (run_order wb) ++ map EvSetInput cs).
  split; [rewrite Htr, Htrb, <- app_assoc; reflexivity |].
  rewrite handed_over_setup by (apply handed_over_copy_events; exact Hcopy).
  apply (stage_inputs_Forall2 _) with (w := w) (w' := wb); [| exact Hstage].
  clear. intros inp w c w' Hone.
  assert (Hgoal : meta c = meta inp /\
                  exists b, buffers c = [b] /\ DaliPipeline.tensor_bytes c <= size b).
  { pose proof (stage_input_outcome w inp) as Hcase.
    destruct (buffers inp) as [| first rest] eqn:Hbufs.
    { destruct Hcase as [Hfail _]. rewrite Hfail in Hone. discriminate. }
    destruct Hcase as (n & _ & Hcase).
    destruct (IsNoCopy w inp).
    - destruct Hcase as (-> & -> & Hcase). rewrite Hcase in Hone.
      destruct (_ <=? _) eqn:Hle; [| discriminate]. injection Hone as <- _.
      apply Z.leb_le in Hle. split; [reflexivity |]. exists first. split; assumption.
    - destruct Hcase as (-> & Hcase).
      destruct (shortfall _ _ _ w).
      { destruct Hcase as (w1 & Hcase). rewrite Hcase in Hone. discriminate. }
      destruct Hcase as (d & w1 & _ & Hd & Hcase). rewrite Hcase in Hone.
      destruct (_ <=? _) eqn:Hle; [| discriminate]. injection Hone as <- _.
      apply Z.leb_le in Hle. split; [reflexivity |]. exists d.
      split; [reflexivity |]. rewrite Hd. exact Hle. }
  destruct Hgoal as (Hmeta & b & Hb & Hle).
  split; [exact Hmeta |]. exists b. split; [exact Hb |]. split; [exact Hle |].
  intros Hfits. unfold DaliPipeline.tensor_bytes in Hle.
  rewrite wrap_small in Hle by exact Hfits. exact Hle.
Qed.

(** *** Copies come before the pipeline *)





Lemma filter_early_app s ts1 ts2 :
  List.filter (is_early s) (ts1 ++ ts2) =
  List.filter (is_early s) ts1 ++ List.filter (is_early s) ts2.
Proof. apply List.filter_app. Qed.







Lemma added_tasks_setup staging copies cs :
  added_tasks (staging ++ EvRunAll :: map EvMemCopy copies ++ map EvSetInput cs) =
  added_tasks staging.
Proof.
  change (EvRunAll :: map EvMemCopy copies ++ map EvSetInput cs)
    with ([EvRunAll] ++ map EvMemCopy copies ++ map EvSetInput cs).
  rewrite !added_tasks_app, added_tasks_copies, added_tasks_inputs.
  cbn. rewrite app_nil_r. reflexivity.
Qed.


(** *** The bytes the pipeline is handed *)








(** *** What stays while the executor is in use *)

Lemma pools_grown_refl w : pools_grown w w.
Proof. intros dev key b Hb. exists b. split; [exact Hb |]. split; [lia | reflexivity]. Qed.

Lemma pools_grown_trans w1 w2 w3 :
  pools_grown w1 w2 -> pools_grown w2 w3 -> pools_grown w1 w3.
Proof.
  intros H12 H23 dev key b Hb.
  destruct (H12 dev key b Hb) as (b2 & Hb2 & Hc2 & Hd2).
  destruct (H23 dev key b2 Hb2) as (b3 & Hb3 & Hc3 & Hd3).
  exists b3. split; [exact Hb3 |]. split; [lia | congruence].
Qed.

Lemma evolved_refl w : evolved w w.
Proof. constructor; [reflexivity | reflexivity | apply pools_grown_refl]. Qed.

Lemma evolved_trans w1 w2 w3 : evolved w1 w2 -> evolved w2 w3 -> evolved w1 w3.
Proof.
  intros [Hc1 Hd1 Hp1] [Hc2 Hd2 Hp2].
  constructor; [congruence | congruence | eapply pools_grown_trans; eassumption].
Qed.

(** Worlds that differ at most in the thread pool, the memory, the default
    stream, the trace and in what the pipeline holds besides its
    construction arguments. *)
Lemma evolved_same_pools w w' :
  config (pipeline_ (self w')) = config (pipeline_ (self w)) ->
  current_device w' = current_device w ->
  (forall dev, buffers_of dev (self w') = buffers_of dev (self w)) ->
  evolved w w'.
Proof.
  intros Hc Hd Hb. constructor; [exact Hc | exact Hd |].
  intros dev key b Hlook. exists b. rewrite Hb.
  split; [exact Hlook |]. split; [lia | reflexivity].
Qed.

Lemma steady_bind {A B} (c : M (World H) A) (k : A -> M (World H) B) :
  steady c -> (forall x, steady (k x)) -> steady (bind c k).
Proof.
  intros Hc Hk w. unfold bind. specialize (Hc w).
  destruct (c w) as [[x | err] w1]; cbn in *; [| exact Hc].
  eapply evolved_trans; [exact Hc | apply Hk].
Qed.

Lemma steady_still {A} (c : M (World H) A) :
  (forall w, snd (c w) = w) -> steady c.
Proof. intros Hc w. rewrite Hc. apply evolved_refl. Qed.

Lemma steady_get_bind {A} (k : World H -> M (World H) A) :
  (forall w0, steady (k w0)) -> steady (bind get k).
Proof. intros Hk w. unfold bind, get. apply Hk. Qed.

Lemma steady_emit ev : steady (emit ev).
Proof.
  intros w. apply evolved_same_pools; try reflexivity.
Qed.

Lemma steady_on_pipeline {A} (c : M (DaliPipeline.t H) A) :
  ExecutorSpec.keeps_config c -> steady (on_pipeline c).
Proof.
  intros Hc w. unfold on_pipeline. specialize (Hc (pipeline_ (self w))).
  destruct (c (pipeline_ (self w))) as [r p]. cbn in *.
  apply evolved_same_pools; [exact Hc | reflexivity |].
  intros dev. destruct dev; reflexivity.
Qed.

Lemma steady_pipeline_call {A} ev (c : M (DaliPipeline.t H) A) :
  ExecutorSpec.keeps_config c -> steady (run emit ev in on_pipeline c).
Proof.
  intros Hc. apply steady_bind; [apply steady_emit | intros _].
  apply steady_on_pipeline. exact Hc.
Qed.

Lemma steady_RunAll : steady RunAll.
Proof.
  intros w. rewrite RunAll_spec. apply evolved_same_pools; reflexivity.
Qed.

Lemma lookup_buffer_at dev key (b : IOBuffer.t dev) w :
  buffers_of dev (self w) !! key = Some b -> buffer_at dev key w = b.
Proof. intros Hb. unfold buffer_at. rewrite Hb. reflexivity. Qed.

(** A pooled buffer that is replaced by one of at least its capacity, with
    its device index: the pools have grown. *)
Lemma evolved_with_buffer dev key (x : IOBuffer.t dev) w :
  IOBuffer.Capacity (buffer_at dev key w) <= IOBuffer.Capacity x ->
  IOBuffer.device_id_ x = IOBuffer.device_id_ (buffer_at dev key w) ->
  evolved w (with_buffer dev key x w).
Proof.
  intros Hcap Hid. constructor.
  - unfold with_buffer. cbn. rewrite pipeline_set_buffers. reflexivity.
  - reflexivity.
  - intros dev' key' b Hb.
    destruct (decide ((dev', key') = (dev, key))) as [Heq | Hne].
    + injection Heq as -> ->.
      exists x. split.
      * unfold with_buffer. cbn. rewrite buffers_of_set_buffers. apply lookup_insert_eq.
      * rewrite (lookup_buffer_at _ _ _ _ Hb) in Hcap, Hid. split; assumption.
    + exists b. rewrite lookup_with_buffer by exact Hne.
      split; [exact Hb |]. split; [lia | reflexivity].
Qed.

Lemma evolved_resized dev key n w :
  evolved w (with_buffer dev key (resized dev key n w) w).
Proof.
  apply evolved_with_buffer; [| reflexivity].
  unfold resized, IOBuffer.Capacity. cbn. lia.
Qed.

Lemma evolved_cleared dev key w :
  evolved w (with_buffer dev key (cleared dev key w) w).
Proof.
  apply evolved_with_buffer; [| reflexivity].
  unfold cleared, IOBuffer.Capacity. cbn. lia.
Qed.

Lemma evolved_scheduled ts w : evolved w (scheduled ts w).
Proof. apply evolved_same_pools; reflexivity. Qed.

Lemma steady_ScheduleInputCopy input : steady (ScheduleInputCopy input).
Proof.
  intros w. destruct (buffers input) as [| first rest] eqn:Hbufs.
  { unfold ScheduleInputCopy. rewrite Hbufs. apply evolved_refl. }
  rewrite (ScheduleInputCopy_spec input first rest w Hbufs).
  destruct (shortfall _ _ _ w); cbn [snd]; [apply evolved_cleared |].
  eapply evolved_trans; [apply evolved_resized | apply evolved_scheduled].
Qed.

Lemma steady_assert_fits n d : steady (assert_fits n d).
Proof.
  apply steady_still. intros w. rewrite assert_fits_cases.
  destruct (first_size d) as [k |]; [destruct (n <=? k) |]; reflexivity.
Qed.

Lemma steady_stage_input inp : steady (stage_input inp).
Proof.
  intros w. rewrite stage_input_unfold. destruct (IsNoCopy w inp).
  - apply steady_bind; [apply steady_assert_fits | intros _; apply steady_still; reflexivity].
  - apply steady_bind; [apply steady_ScheduleInputCopy | intros c].
    apply steady_bind; [apply steady_assert_fits | intros _; apply steady_still; reflexivity].
Qed.

Lemma steady_stage_inputs inputs : steady (stage_inputs inputs).
Proof.
  induction inputs as [| inp inputs IH]; cbn; [apply steady_still; reflexivity |].
  apply steady_bind; [apply steady_stage_input | intros c].
  apply steady_bind; [exact IH | intros cs; apply steady_still; reflexivity].
Qed.

Lemma steady_set_inputs cs : steady (set_inputs cs).
Proof.
  induction cs as [| c cs IH]; cbn; [apply steady_still; reflexivity |].
  apply steady_bind; [| intros _; exact IH].
  unfold pipeline_SetInput. apply steady_bind; [apply steady_emit | intros _].
  apply steady_get_bind. intros w0. apply steady_on_pipeline, SetInput_config.
Qed.

Lemma steady_SetupInputs inputs : steady (SetupInputs inputs).
Proof.
  unfold SetupInputs. destruct inputs as [| first others];
    [apply steady_still; reflexivity |].
  apply steady_bind.
  { apply steady_still. intros w.
    pose proof (check_batch_sizes_state (num_samples (shape (meta first))) others w) as Hs.
    destruct (check_batch_sizes _ _ w) as [r w']. apply (Hs _ _ eq_refl). }
  intros _. apply steady_bind; [apply steady_stage_inputs | intros cs].
  apply steady_bind; [apply steady_RunAll | intros _; apply steady_set_inputs].
Qed.

Lemma steady_try_catch_rethrow {A} (body : M (World H) A) handler :
  steady body -> steady handler -> steady (try_catch_rethrow body handler).
Proof.
  intros Hb Hh w. unfold try_catch_rethrow. specialize (Hb w).
  destruct (body w) as [[x | err] w1]; [exact Hb |].
  destruct err; try exact Hb. cbn in Hb.
  specialize (Hh w1). destruct (handler w1) as [[[] | err] w2]; cbn in *;
    eapply evolved_trans; eassumption.
Qed.

Lemma steady_Run inputs : steady (Run inputs).
Proof.
  unfold Run.
  apply steady_bind; [apply steady_SetupInputs | intros _].
  apply steady_bind; [| intros _; apply steady_still; reflexivity].
  apply steady_try_catch_rethrow.
  - apply steady_bind; [| intros _]; apply steady_pipeline_call;
      [apply Run_config | apply on_handle_config].
  - apply steady_pipeline_call, Reset_config.
Qed.

Lemma steady_schedule_out_fragments d p bufs : steady (schedule_out_fragments d p bufs).
Proof.
  intros w. rewrite schedule_out_fragments_spec.
  apply evolved_same_pools; try reflexivity; intros dev; destruct dev; reflexivity.
Qed.

Lemma steady_put_output idx output : steady (put_output idx output).
Proof.
  assert (Hdirect : forall p d, steady (pipeline_PutOutput p idx d)).
  { intros p d. apply steady_pipeline_call. intros q. reflexivity. }
  assert (Hstaged : forall bufs,
    steady (do w <- get in
            let dev :=
              if bool_decide (DaliPipeline.GetOutputDevice (pipeline_ (self w)) idx = CPU)
              then CPU else GPU in
            let key := name (meta output) +:+ "_out" in
            run on_buffer dev key
                  (fun storage => IOBuffer.resize storage (total_size bufs)) in
            do interm_descr <- on_buffer dev key IOBuffer.get_descr in
            run pipeline_PutOutput (data interm_descr) idx (device interm_descr) in
            schedule_out_fragments interm_descr (data interm_descr) bufs)).
  { intros bufs. apply steady_get_bind. intros w0. cbv zeta.
    set (dev := if bool_decide _ then CPU else GPU).
    set (key := name (meta output) +:+ "_out").
    intros w.
    unfold bind at 1. rewrite on_buffer_resize by apply total_size_range.
    destruct (shortfall _ _ _ w); [apply evolved_cleared |].
    erewrite bind_Ok by apply on_buffer_get_descr.
    eapply evolved_trans; [apply evolved_resized |].
    apply steady_bind; [apply Hdirect | intros _; apply steady_schedule_out_fragments]. }
  unfold put_output.
  destruct (buffers output) as [| buffer [| buffer' rest]];
    [apply Hstaged | apply Hdirect | apply Hstaged].
Qed.

Lemma steady_put_outputs_from outputs : forall idx, steady (put_outputs_from idx outputs).
Proof.
  induction outputs as [| output outputs IH]; intros idx; cbn;
    [apply steady_still; reflexivity |].
  apply steady_bind; [apply steady_put_output | intros _; apply IH].
Qed.

Lemma steady_PutOutputs outputs : steady (PutOutputs outputs).
Proof.
  unfold PutOutputs.
  apply steady_bind; [apply steady_put_outputs_from | intros _].
  apply steady_bind; [| intros _; apply steady_RunAll].
  unfold pipeline_SyncOutputStream.
  apply steady_bind; [apply steady_emit | intros _].
  intros w. unfold modify. cbn.
  apply evolved_same_pools; try reflexivity; intros dev; destruct dev; reflexivity.
Qed.

Lemma evolved_enter_all es : forall w, evolved w (enter_all es w).
Proof.
  induction es as [| e es IH]; intros w; [apply evolved_refl |].
  cbn. eapply evolved_trans; [| apply IH].
  destruct e; [apply steady_Run | apply steady_PutOutputs].
Qed.

(** Whether an input is copied depends on the descriptor and on the device
    index the pipeline was constructed with, and on nothing else: through
    every sequence of calls of [Run] and [PutOutputs], failed calls and
    the resets they cause included, [IsNoCopy] gives for every descriptor
    the answer it gave at first, and [DeviceId] is the same. *)
Theorem zero_copy_decision_never_changes w es :
  DaliPipeline.DeviceId (pipeline_ (self (enter_all es w))) =
    DaliPipeline.DeviceId (pipeline_ (self w)) /\
  forall inp, IsNoCopy (enter_all es w) inp = IsNoCopy w inp.
Proof.
  destruct (evolved_enter_all es w) as [Hc _ _].
  assert (Hd : DaliPipeline.DeviceId (pipeline_ (self (enter_all es w))) =
               DaliPipeline.DeviceId (pipeline_ (self w))).
  { unfold config in Hc. injection Hc as _ _ _ Hd. exact Hd. }
  split; [exact Hd |]. intros inp. unfold IsNoCopy. rewrite Hd. reflexivity.
Qed.

(** A pooled buffer, once it is there, is there for good: through every
    sequence of calls of [Run] and [PutOutputs], failed calls included, it
    stays in its pool under its key, its capacity does not decrease and
    its device index stays. *)
Theorem pooled_buffers_stay_and_never_shrink w es dev key (b : IOBuffer.t dev) :
  buffers_of dev (self w) !! key = Some b ->
  exists b', buffers_of dev (self (enter_all es w)) !! key = Some b' /\
             IOBuffer.Capacity b <= IOBuffer.Capacity b' /\
             IOBuffer.device_id_ b' = IOBuffer.device_id_ b.
Proof.
  intros Hb. destruct (evolved_enter_all es w) as [_ _ Hp]. apply (Hp dev key b Hb).
Qed.

(** Staging an input takes the pooled buffer that is under its key, or
    constructs one (of no capacity, on the device at hand) when there is
    none, and, when the storage can be had, reuses it: the capacity
    becomes the larger of what it was and the [size_t] sum of the fragment
    lengths, that sum is what is claimed, and the device index is the
    buffer's own, which is what the descriptor for the pipeline carries,
    whatever device index the fragments carry. *)
Theorem staging_reuses_the_pooled_buffer w input first rest :
  buffers input = first :: rest ->
  let dev := device first in
  let key := staging_key input in
  let old := default (snd (IOBuffer.create (current_device w) 0))
                     (buffers_of dev (self w) !! key) in
  obtainable dev key (total_size (buffers input)) w ->
  exists d w1 b,
    ScheduleInputCopy input w = (Ok (mkIODescr (meta input) [d]), w1) /\
    buffers_of dev (self w1) !! key = Some b /\
    IOBuffer.Capacity b = Z.max (IOBuffer.Capacity old) (total_size (buffers input)) /\
    IOBuffer.filled_ b = total_size (buffers input) /\
    IOBuffer.device_id_ b = IOBuffer.device_id_ old /\
    d = IOBuffer.GetDescr (Pooled dev key) b /\
    device_id d = IOBuffer.device_id_ old.
Proof.
  intros Hbufs. cbv zeta. intros Hroom.
  pose proof (ScheduleInputCopy_spec input first rest w Hbufs) as Hspec.
  cbv zeta in Hspec. rewrite staging_device_first in Hspec.
  unfold obtainable in Hroom. rewrite Hroom in Hspec.
  eexists. eexists. eexists. split; [exact Hspec |].
  split.
  { rewrite buffers_of_scheduled.
    unfold with_buffer. cbn. rewrite buffers_of_set_buffers. apply lookup_insert_eq. }
  repeat split.
Qed.

(** *** Writes of outputs and copies out of staging storage *)

(** The memory once the writes [ws] are visible, in order. *)
Lemma writes_app ws1 ws2 m :
  fold_left (fun m x => write (fst x) (snd x) m) (ws1 ++ ws2) m =
  fold_left (fun m x => write (fst x) (snd x) m) ws2
            (fold_left (fun m x => write (fst x) (snd x) m) ws1 m).
Proof. apply fold_left_app. Qed.

(** A byte no write covers is what it was. *)
Lemma writes_miss (ws : list (ptr * list Byte.byte)) m b o :
  (forall x, In x ws -> in_range (fst x) (Z.of_nat (length (snd x))) b o = false) ->
  fold_left (fun m x => write (fst x) (snd x) m) ws m b o = m b o.
Proof.
  induction ws as [| x ws IH] using rev_ind; intros Hmiss; [reflexivity |].
  rewrite writes_app. cbn. unfold write at 1.
  rewrite (Hmiss x) by (apply in_or_app; right; left; reflexivity).
  apply IH. intros y Hy. apply Hmiss. apply in_or_app. left. exact Hy.
Qed.









(** *** One output slot *)

Lemma output_pool_device w idx :
  output_pool w idx = DaliPipeline.GetOutputDevice (pipeline_ (self w)) idx.
Proof. unfold output_pool. destruct (DaliPipeline.GetOutputDevice _ _); reflexivity. Qed.

(** The world the body of the loop of [PutOutputs] leaves. *)
Lemma put_output_world idx output w :
  output_room w idx output ->
  exists w1,
    put_output idx output w = (Ok tt, w1) /\
    memory w1 = memory w /\
    default_stream w1 = default_stream w /\
    errors w1 = errors w /\
    scheduler w1 = scheduler w /\
    queue w1 = queue w ++ map as_work (out_tasks_of w idx output) /\
    DaliPipeline.output_stream_ (pipeline_ (self w1)) =
      DaliPipeline.output_stream_ (pipeline_ (self w)) ++
        [(output_target w idx output, output_bytes w idx)] /\
    DaliPipeline.handle_ (pipeline_ (self w1)) =
      DaliPipeline.handle_ (pipeline_ (self w)) /\
    trace w1 = trace w ++
      EvPutOutput (output_target w idx output) idx (output_target_device w idx output)
        :: map (fun t => EvAddWork t (nbytes t) false) (out_tasks_of w idx output) /\
    (forall dev key,
       is_direct output = true \/ (dev, key) <> (output_pool w idx, output_key output) ->
       buffers_of dev (self w1) !! key = buffers_of dev (self w) !! key) /\
    (is_direct output = false ->
       buffers_of (output_pool w idx) (self w1) !! output_key output =
         Some (resized (output_pool w idx) (output_key output)
                 (total_size (buffers output)) w)).
Proof.
  intros Hroom. unfold output_room in Hroom.
  destruct (is_direct output) eqn:Hdir.
  - unfold is_direct in Hdir. unfold put_output, out_tasks_of, is_direct,
      output_target, output_target_device.
    destruct (buffers output) as [| b [| b' rest]]; try discriminate.
    eexists. split; [reflexivity |]. cbn.
    unfold queue. cbn. rewrite !app_nil_r.
    do 8 (split; [reflexivity |]).
    split; [intros dev key _; destruct dev; reflexivity | discriminate].
  - assert (Hrun : put_output idx output w =
      (do w0 <- get in
       let dev :=
         if bool_decide (DaliPipeline.GetOutputDevice (pipeline_ (self w0)) idx = CPU)
         then CPU else GPU in
       let key := name (meta output) +:+ "_out" in
       run on_buffer dev key
             (fun storage => IOBuffer.resize storage (total_size (buffers output))) in
       do interm_descr <- on_buffer dev key IOBuffer.get_descr in
       run pipeline_PutOutput (data interm_descr) idx (device interm_descr) in
       schedule_out_fragments interm_descr (data interm_descr) (buffers output)) w).
    { unfold is_direct in Hdir. unfold put_output.
      destruct (buffers output) as [| b [| b' rest]]; [reflexivity | discriminate | reflexivity]. }
    rewrite Hrun. clear Hrun.
    assert (Htarget : output_target w idx output = output_base w idx output).
    { unfold is_direct in Hdir. unfold output_target.
      destruct (buffers output) as [| b [| b' rest]]; [reflexivity | discriminate | reflexivity]. }
    assert (Hdevice : output_target_device w idx output = output_pool w idx).
    { unfold is_direct in Hdir. unfold output_target_device.
      destruct (buffers output) as [| b [| b' rest]]; [reflexivity | discriminate | reflexivity]. }
    rewrite Htarget, Hdevice. unfold out_tasks_of. rewrite Hdir.
    unfold bind at 1, get at 1. cbv zeta.
    fold (output_pool w idx). fold (output_key output).
    specialize (Hroom eq_refl). unfold obtainable in Hroom.
    set (dev := output_pool w idx) in *. set (key := output_key output) in *.
    unfold bind at 1. rewrite on_buffer_resize by apply total_size_range.
    rewrite Hroom.
    erewrite bind_Ok by apply on_buffer_get_descr.
    erewrite bind_Ok by reflexivity.
    rewrite schedule_out_fragments_spec.
    eexists. split; [reflexivity |].
    cbn [memory default_stream scheduler self trace IOBuffer.GetDescr device data].
    split; [reflexivity |]. split; [reflexivity |].
    split.
    { unfold errors. cbn. rewrite thread_pool_set_buffers. reflexivity. }
    split; [reflexivity |].
    split.
    { unfold queue. cbn. rewrite thread_pool_set_buffers. reflexivity. }
    split.
    { unfold pipeline_PutOutput, bind, emit, modify, on_pipeline, DaliPipeline.PutOutput,
        bind, get, modify, with_buffer, output_bytes. cbn.
      rewrite pipeline_set_buffers. reflexivity. }
    split.
    { unfold pipeline_PutOutput, bind, emit, modify, on_pipeline, DaliPipeline.PutOutput,
        bind, get, modify, with_buffer. cbn.
      rewrite pipeline_set_buffers. reflexivity. }
    split.
    { unfold pipeline_PutOutput, bind, emit, modify, on_pipeline. cbn.
      rewrite <- app_assoc. reflexivity. }
    split.
    { intros dev' key' [Hd | Hne]; [discriminate |].
      unfold pipeline_PutOutput, bind, emit, modify, on_pipeline, DaliPipeline.PutOutput,
        bind, get, modify. cbn.
      rewrite buffers_of_set_queue.
      change (buffers_of dev' (self (with_buffer dev key
                (resized dev key (total_size (buffers output)) w) w)) !! key' =
              buffers_of dev' (self w) !! key').
      apply lookup_with_buffer. exact Hne. }
    intros _.
    unfold pipeline_PutOutput, bind, emit, modify, on_pipeline, DaliPipeline.PutOutput,
      bind, get, modify. cbn.
    rewrite buffers_of_set_queue.
    change (buffers_of dev (self (with_buffer dev key
              (resized dev key (total_size (buffers output)) w) w)) !! key =
            Some (resized dev key (total_size (buffers output)) w)).
    unfold with_buffer. cbn. rewrite buffers_of_set_buffers. apply lookup_insert_eq.
Qed.

Lemma out_fragment_tasks_length sd p bufs :
  length (out_fragment_tasks sd p bufs) = length bufs.
Proof. revert p. induction bufs; intros p; cbn; [reflexivity | f_equal; auto]. Qed.

Lemma out_fragment_tasks_lookup sd bufs : forall p k buf,
  bufs !! k = Some buf ->
  out_fragment_tasks sd p bufs !! k =
    Some (mkTask (device buf) (data buf) sd (ptr_add p (sum_sizes (take k bufs)))
                 (size buf)).
Proof.
  induction bufs as [| b bufs IH]; intros p k buf Hk; [discriminate |].
  destruct k as [| k]; cbn in *.
  - injection Hk as ->. change (sum_sizes []) with 0. unfold ptr_add; cbn; rewrite Z.add_0_r; destruct p; reflexivity.
  - rewrite (IH _ _ _ Hk). do 2 f_equal. unfold ptr_add, sum_sizes. cbn. f_equal. lia.
Qed.

(** One output slot of [PutOutputs].  An output with exactly one fragment
    is written by the pipeline into that fragment: no pooled buffer is
    touched and no copy is queued.  Every other output is written into
    the pooled buffer under [name + "_out"] in the pool of the device the
    pipeline reports for this output, whatever the devices of the
    fragments are; that buffer claims the [size_t] sum of the fragment
    lengths, no other pooled buffer is touched, and one deferred copy per
    fragment is queued, the [k]-th from the offset that is the sum of the
    lengths before it to the [k]-th fragment.  This is what happens when
    the storage for the intermediate buffer can be had. *)
Theorem output_is_staged_in_the_pool_of_its_device w idx output :
  output_room w idx output ->
  exists w1 evs,
    put_output idx output w = (Ok tt, w1) /\
    trace w1 = trace w ++ evs /\
    match buffers output with
    | [b] =>
        evs = [EvPutOutput (data b) idx (device b)] /\
        queue w1 = queue w /\
        forall dev key, buffers_of dev (self w1) !! key = buffers_of dev (self w) !! key
    | bufs =>
        let dev := DaliPipeline.GetOutputDevice (pipeline_ (self w)) idx in
        let key := (name (meta output) +:+ "_out")%string in
        let base := mkPtr (Pooled dev key) 0 in
        evs = EvPutOutput base idx dev
                :: map (fun t => EvAddWork t (nbytes t) false) (added_tasks evs) /\
        queue w1 = queue w ++ map as_work (added_tasks evs) /\
        length (added_tasks evs) = length bufs /\
        (forall k buf, bufs !! k = Some buf ->
           added_tasks evs !! k =
             Some (mkTask (device buf) (data buf) dev
                          (ptr_add base (sum_sizes (take k bufs))) (size buf))) /\
        (exists b, buffers_of dev (self w1) !! key = Some b /\
                   IOBuffer.filled_ b = total_size bufs /\
                   total_size bufs <= IOBuffer.Capacity b) /\
        (forall dev' key', (dev', key') <> (dev, key) ->
           buffers_of dev' (self w1) !! key' = buffers_of dev' (self w) !! key')
    end.
Proof.
  intros Hroom.
  destruct (put_output_world idx output w Hroom)
    as (w1 & Hrun & _ & _ & _ & _ & Hq & _ & _ & Htr & Hframe & Hbuf).
  exists w1. eexists. split; [exact Hrun |]. split; [exact Htr |].
  unfold out_tasks_of, output_target, output_target_device, output_base, is_direct in *.
  rewrite output_pool_device in *. fold (output_key output) in *.
  set (dev := DaliPipeline.GetOutputDevice (pipeline_ (self w)) idx) in *.
  assert (Hstaged : forall bufs,
    buffers output = bufs ->
    queue w1 = queue w ++
      map as_work (out_fragment_tasks dev (mkPtr (Pooled dev (output_key output)) 0) bufs) ->
    (forall dev0 key,
       false = true \/ (dev0, key) <> (dev, output_key output) ->
       buffers_of dev0 (self w1) !! key = buffers_of dev0 (self w) !! key) ->
    (false = false ->
     buffers_of dev (self w1) !! output_key output =
       Some (resized dev (output_key output) (total_size bufs) w)) ->
    let base := mkPtr (Pooled dev (output_key output)) 0 in
    let evs := EvPutOutput base idx dev
                 :: map (fun t => EvAddWork t (nbytes t) false)
                        (out_fragment_tasks dev base bufs) in
    evs = EvPutOutput base idx dev
            :: map (fun t => EvAddWork t (nbytes t) false) (added_tasks evs) /\
    queue w1 = queue w ++ map as_work (added_tasks evs) /\
    length (added_tasks evs) = length bufs /\
    (forall k buf, bufs !! k = Some buf ->
       added_tasks evs !! k =
         Some (mkTask (device buf) (data buf) dev
                      (ptr_add base (sum_sizes (take k bufs))) (size buf))) /\
    (exists b, buffers_of dev (self w1) !! output_key output = Some b /\
               IOBuffer.filled_ b = total_size bufs /\
               total_size bufs <= IOBuffer.Capacity b) /\
    (forall dev' key', (dev', key') <> (dev, output_key output) ->
       buffers_of dev' (self w1) !! key' = buffers_of dev' (self w) !! key')).
  { intros bufs Hbufs Hq' Hframe' Hbuf'. cbv zeta.
    assert (Hadded : added_tasks
              (EvPutOutput (mkPtr (Pooled dev (output_key output)) 0) idx dev
                 :: map (fun t => EvAddWork t (nbytes t) false)
                        (out_fragment_tasks dev
                           (mkPtr (Pooled dev (output_key output)) 0) bufs)) =
            out_fragment_tasks dev (mkPtr (Pooled dev (output_key output)) 0) bufs).
    { cbn [added_tasks flat_map app]. apply added_tasks_deferred. }
    rewrite Hadded.
    split; [reflexivity |]. split; [exact Hq' |].
    split; [apply out_fragment_tasks_length |].
    split; [intros k buf Hk; apply out_fragment_tasks_lookup; exact Hk |].
    split.
    - eexists. split; [apply Hbuf'; reflexivity |].
      split; [reflexivity |]. unfold IOBuffer.Capacity, resized. cbn. lia.
    - intros dev' key' Hne. apply Hframe'. right. exact Hne. }
  destruct (buffers output) as [| b [| b' rest]] eqn:Hbufs.
  - apply (Hstaged [] eq_refl Hq Hframe Hbuf).
  - split; [reflexivity |]. split.
    + rewrite Hq. cbn. apply app_nil_r.
    + intros dev0 key. apply Hframe. left. reflexivity.
  - apply (Hstaged (b :: b' :: rest) eq_refl Hq Hframe Hbuf).
Qed.

(** *** All output slots *)


















Lemma in_range_other_block p n b o : b <> blk p -> in_range p n b o = false.
Proof.
  intros Hne. unfold in_range. rewrite bool_decide_eq_false_2 by exact Hne. reflexivity.
Qed.


(** *** The pipeline wrapper *)

(** [Reset] first releases the pipeline the handle holds, when the handle
    is set: the handle is then the one [daliDeletePipeline] left.  On that
    handle it has the library create a pipeline from the arguments the
    object was constructed with.  When the library answers with a handle
    that is set, [Reset] succeeds and the object holds this handle; when
    it answers with a handle that is not set, [Reset] fails on the
    assertion of [CreatePipeline] and the object holds that handle; when
    [daliCreatePipeline] throws, [Reset] ends with this exception and the
    object is left with the released handle.  The construction arguments
    and the output stream stay in every case. *)
Theorem Reset_releases_and_creates_anew (p : DaliPipeline.t H) :
  let old := DaliPipeline.handle_ p in
  let freed := if handle_set old then daliDeletePipeline old else old in
  let p' := snd (DaliPipeline.Reset p) in
  DaliPipeline.ReleasePipeline p = (Ok tt, DaliPipeline.set_handle freed p) /\
  config p' = config p /\
  DaliPipeline.output_stream_ p' = DaliPipeline.output_stream_ p /\
  match daliCreatePipeline freed
          (DaliPipeline.serialized_pipeline_ p) (DaliPipeline.max_batch_size_ p)
          (DaliPipeline.num_threads_ p) (DaliPipeline.device_id_ p) with
  | Ok h =>
      DaliPipeline.handle_ p' = h /\
      fst (DaliPipeline.Reset p) =
        if handle_set h then Ok tt else Err assertion_failure
  | Err e =>
      DaliPipeline.handle_ p' = freed /\
      fst (DaliPipeline.Reset p) = Err e
  end.
Proof.
  cbv zeta. rewrite Reset_cases. unfold recreated, released.
  split.
  { unfold DaliPipeline.ReleasePipeline, bind, get, modify, ret.
    destruct (handle_set (DaliPipeline.handle_ p)); [reflexivity |].
    destruct p; reflexivity. }
  destruct (daliCreatePipeline _ _ _ _ _) as [h | e]; cbn [fst snd];
    repeat split.
Qed.

End More.

(** *** The further statements on the reference instance *)

Lemma staging_an_input_touches_one_buffer_witness :
  exists c w1,
    ScheduleInputCopy Sample.split_input Sample.world = (Ok c, w1) /\
    cpu_buffers_ (self w1) !! "labels_inp"%string =
      cpu_buffers_ (self Sample.world) !! "labels_inp"%string /\
    cpu_buffers_ (self w1) !! "images_out"%string =
      cpu_buffers_ (self Sample.world) !! "images_out"%string.
Proof.
  destruct (staging_an_input_touches_one_buffer Sample.world Sample.split_input
              (Sample.fragment 2 100 CPU 0)
              [Sample.fragment 3 200 CPU 0; Sample.fragment 4 300 CPU 0] eq_refl)
    as (r & w1 & Hrun & Hok & _ & Hother & Hout).
  destruct Hok as (c & ->); [vm_compute; reflexivity |].
  exists c, w1. split; [exact Hrun |]. split.
  - apply (Hother Sample.whole_input CPU). discriminate.
  - apply (Hout Sample.whole_output CPU).
Defined.

Lemma input_is_accepted_iff_its_bytes_suffice_witness :
  (exists c w', stage_input Sample.whole_input Sample.world = (Ok c, w')) /\
  stage_input Sample.truncated_input Sample.world =
    (Err assertion_failure, Sample.world).
Proof.
  destruct (input_is_accepted_iff_its_bytes_suffice Sample.world Sample.whole_input)
    as (_ & Haccept & _).
  destruct (input_is_accepted_iff_its_bytes_suffice Sample.world Sample.truncated_input)
    as (_ & _ & Hreject).
  split.
  - apply (Haccept 8); [reflexivity | vm_compute; discriminate |].
    intros Hnc. vm_compute in Hnc. discriminate Hnc.
  - assert (Hrun : stage_input Sample.truncated_input Sample.world =
                     (Err assertion_failure,
                      snd (stage_input Sample.truncated_input Sample.world)))
      by (apply outcome; vm_compute; reflexivity).
    destruct (Hreject _ _ Hrun) as [_ Hsame].
    destruct (Hsame (or_introl eq_refl)) as [_ Hw].
    rewrite Hrun, Hw. reflexivity.
Defined.

Lemma pipeline_is_handed_one_sufficient_fragment_per_input_witness :
  exists w' evs,
    SetupInputs [Sample.split_input; Sample.whole_input] Sample.world = (Ok tt, w') /\
    trace w' = evs /\
    map meta (handed_over evs) = [meta Sample.split_input; meta Sample.whole_input].
Proof.
  assert (Hrun : SetupInputs [Sample.split_input; Sample.whole_input] Sample.world =
                   (Ok tt, snd (SetupInputs [Sample.split_input; Sample.whole_input]
                                            Sample.world)))
    by (apply outcome; vm_compute; reflexivity).
  destruct (pipeline_is_handed_one_sufficient_fragment_per_input _ _ _ Hrun)
    as (evs & Htr & Hfor).
  eexists. exists evs. split; [exact Hrun |]. split; [exact Htr |].
  inversion Hfor as [| x c xs cs [Hc _] Hrest Hx Hcs].
  inversion Hrest as [| x' c' xs' cs' [Hc' _] Hnil Hx' Hcs'].
  inversion Hnil. cbn. rewrite Hc, Hc'. reflexivity.
Defined.



Lemma pooled_buffers_stay_and_never_shrink_witness :
  let w := snd (Run [Sample.split_input] Sample.world) in
  let es := [ExecutorTerms.EntryRun [Sample.short_input];
             ExecutorTerms.EntryPutOutputs [Sample.split_output];
             ExecutorTerms.EntryRun []] in
  exists b', cpu_buffers_ (self (ExecutorTerms.enter_all es w)) !! "images_inp"%string = Some b' /\
             600 <= IOBuffer.Capacity b'.
Proof.
  cbv zeta.
  destruct (pooled_buffers_stay_and_never_shrink
              (snd (Run [Sample.split_input] Sample.world))
              [ExecutorTerms.EntryRun [Sample.short_input];
               ExecutorTerms.EntryPutOutputs [Sample.split_output];
               ExecutorTerms.EntryRun []]
              CPU "images_inp"
              {| IOBuffer.buffer_size := 600; IOBuffer.filled_ := 600;
                 IOBuffer.device_id_ := 0 |})
    as (b' & Hb & Hcap & _).
  - vm_compute. reflexivity.
  - exists b'. split; [exact Hb | exact Hcap].
Defined.

Lemma staging_reuses_the_pooled_buffer_witness :
  let w := snd (Run [Sample.split_input] Sample.world) in
  exists d w1 b,
    ScheduleInputCopy Sample.short_input w = (Ok (mkIODescr (meta Sample.short_input) [d]), w1) /\
    cpu_buffers_ (self w1) !! "images_inp"%string = Some b /\
    IOBuffer.Capacity b = 600 /\ IOBuffer.filled_ b = 4 /\ size d = 4.
Proof.
  cbv zeta.
  destruct (staging_reuses_the_pooled_buffer
              (snd (Run [Sample.split_input] Sample.world)) Sample.short_input
              (Sample.fragment 11 2 CPU 0) [Sample.fragment 12 2 CPU 0] eq_refl)
    as (d & w1 & b & Hrun & Hb & Hcap & Hfill & _ & Hd & _);
    [vm_compute; reflexivity |].
  exists d, w1, b. split; [exact Hrun |]. split; [exact Hb |].
  split; [etransitivity; [exact Hcap | vm_compute; reflexivity] |].
  split; [etransitivity; [exact Hfill | vm_compute; reflexivity] |].
  rewrite Hd. etransitivity; [exact Hfill | vm_compute; reflexivity].
Defined.

Lemma output_is_staged_in_the_pool_of_its_device_witness :
  exists w1 evs b,
    put_output 1 Sample.split_output Sample.world = (Ok tt, w1) /\
    trace w1 = evs /\
    length (added_tasks evs) = 2%nat /\
    added_tasks evs !! 1%nat =
      Some (mkTask CPU (mkPtr (Caller 9) 0) CPU (mkPtr (Pooled CPU "labels_out") 5) 3) /\
    cpu_buffers_ (self w1) !! "labels_out"%string = Some b /\
    IOBuffer.filled_ b = 8.
Proof.
  destruct (output_is_staged_in_the_pool_of_its_device Sample.world 1 Sample.split_output)
    as (w1 & evs & Hrun & Htr & _ & _ & Hlen & Htasks & (b & Hb & Hfill & _) & _);
    [intros _; vm_compute; reflexivity |].
  exists w1, evs, b. split; [exact Hrun |]. split; [exact Htr |].
  split; [exact Hlen |]. split; [| split; [exact Hb | exact Hfill]].
  apply (Htasks 1%nat (Sample.fragment 9 3 CPU 0)). reflexivity.
Defined.


End ExecutorFacts.

(** ** Pipeline objects *)

Module DaliPipelineLifetimeFacts.
Import DaliPipelineLifetime.

Section WithApi.
Context {H : Type} {api : DaliApi H}.
Implicit Types (s : Store H) (o : Object H).

Lemma objects_same a o s : objects (set_object a o s) a = o.
Proof. cbn. rewrite bool_decide_eq_true_2 by reflexivity. reflexivity. Qed.

Lemma objects_other a o s a' : a' <> a -> objects (set_object a o s) a' = objects s a'.
Proof. intros Hne. cbn. rewrite bool_decide_eq_false_2 by exact Hne. reflexivity. Qed.

Lemma taken_over_same o : taken_over o = o.
Proof. destruct o as [[? ? ? ? ? ?] ?]. reflexivity. Qed.

(** [ReleasePipeline] on the object at [this]. *)
Lemma release_pipeline_at this s :
  ReleasePipeline this s =
    (Ok tt,
     let old := DaliPipeline.handle_ (members (objects s this)) in
     if handle_set old
     then set_deleted (deleted s ++ [old])
            (set_object this
               (mkObject (DaliPipeline.set_handle (daliDeletePipeline old)
                            (members (objects s this)))
                         (has_stream (objects s this))) s)
     else set_object this
            (mkObject (members (objects s this)) (has_stream (objects s this))) s).
Proof.
  unfold ReleasePipeline, on_members, DaliPipeline.ReleasePipeline, bind, get, modify, ret.
  cbv zeta. destruct (handle_set _); reflexivity.
Qed.

(** What it leaves. *)
Lemma release_pipeline_spec this s :
  let old := DaliPipeline.handle_ (members (objects s this)) in
  exists s1,
    ReleasePipeline this s = (Ok tt, s1) /\
    DaliPipeline.handle_ (members (objects s1 this)) =
      (if handle_set old then daliDeletePipeline old else old) /\
    DaliPipeline.output_stream_ (members (objects s1 this)) =
      DaliPipeline.output_stream_ (members (objects s this)) /\
    has_stream (objects s1 this) = has_stream (objects s this) /\
    (forall a, a <> this -> objects s1 a = objects s a) /\
    bytes s1 = bytes s /\
    deleted s1 = deleted s ++ deletions (objects s this).
Proof.
  cbv zeta. eexists. split; [apply release_pipeline_at |].
  cbv zeta. unfold deletions.
  destruct (handle_set (DaliPipeline.handle_ (members (objects s this)))).
  - cbn [set_deleted objects bytes deleted]. rewrite objects_same.
    repeat split; try reflexivity.
    intros a Ha. apply objects_other. exact Ha.
  - rewrite objects_same. rewrite app_nil_r.
    repeat split; try reflexivity.
    intros a Ha. apply objects_other. exact Ha.
Qed.

(** [ReleaseStream] on the object at [this]. *)
Lemma release_stream_at this s :
  ReleaseStream this s =
    (Ok tt,
     if has_stream (objects s this)
     then set_bytes (flushed (objects s this) (bytes s))
            (set_object this
               (mkObject (DaliPipeline.set_stream [] (members (objects s this))) false) s)
     else s).
Proof.
  unfold ReleaseStream, bind, get, modify, ret, flushed.
  destruct (has_stream (objects s this)); reflexivity.
Qed.

(** What it leaves. *)
Lemma release_stream_spec this s :
  exists s0,
    ReleaseStream this s = (Ok tt, s0) /\
    DaliPipeline.handle_ (members (objects s0 this)) =
      DaliPipeline.handle_ (members (objects s this)) /\
    has_stream (objects s0 this) = false /\
    (forall a, a <> this -> objects s0 a = objects s a) /\
    bytes s0 = (if has_stream (objects s this)
                then fold_left (fun m w => write (fst w) (snd w) m)
                       (DaliPipeline.output_stream_ (members (objects s this))) (bytes s)
                else bytes s) /\
    deleted s0 = deleted s.
Proof.
  eexists. split; [apply release_stream_at |].
  destruct (has_stream (objects s this)) eqn:Hstream.
  - cbn [set_bytes objects bytes deleted]. rewrite objects_same.
    repeat split; try reflexivity.
    intros a Ha. apply objects_other. exact Ha.
  - rewrite Hstream. repeat split; reflexivity.
Qed.

(** The destructor, or what move assignment begins with. *)
Lemma destroy_spec this s :
  let old := DaliPipeline.handle_ (members (objects s this)) in
  exists s1 s0,
    ReleasePipeline this s = (Ok tt, s1) /\
    ReleaseStream this s1 = (Ok tt, s0) /\
    destroy this s = (Ok tt, s0) /\
    DaliPipeline.handle_ (members (objects s0 this)) =
      (if handle_set old then daliDeletePipeline old else old) /\
    has_stream (objects s0 this) = false /\
    (forall a, a <> this -> objects s0 a = objects s a) /\
    bytes s0 = (if has_stream (objects s this)
                then flushed (objects s this) (bytes s) else bytes s) /\
    deleted s0 = deleted s ++ deletions (objects s this).
Proof.
  cbv zeta.
  destruct (release_pipeline_spec this s)
    as (s1 & Hrel & Hhandle1 & Hstream1 & Hhas1 & Hothers1 & Hbytes1 & Hdel1).
  destruct (release_stream_spec this s1)
    as (s0 & Hstr & Hhandle0 & Hhas0 & Hothers0 & Hbytes0 & Hdel0).
  exists s1, s0. split; [exact Hrel |]. split; [exact Hstr |].
  split; [unfold destroy; rewrite (bind_Ok _ _ _ _ _ Hrel); exact Hstr |].
  split; [rewrite Hhandle0; exact Hhandle1 |].
  split; [exact Hhas0 |].
  split; [intros a Ha; rewrite (Hothers0 a Ha); apply Hothers1; exact Ha |].
  split; [| rewrite Hdel0; exact Hdel1].
  rewrite Hbytes0, Hhas1, Hstream1, Hbytes1. reflexivity.
Qed.

(** Move assignment.  Assigning an object to itself does nothing at all.
    Otherwise the target first gives up what it holds, exactly as its
    destructor does: its pipeline is released when the handle is set
    ([daliDeletePipeline] is called on the handle, once) and its stream is
    given up when it has one (the writes pending on that stream become
    visible); [s0] is the store at that moment.  Then the target takes
    over every member of the source; the source is left without a
    pipeline and without a stream; no further pipeline is released and no
    other object is touched. *)
Theorem move_assignment_hands_the_pipeline_over moved_from this dp s :
  move_assign moved_from this this s = (Ok tt, s) /\
  (this <> dp ->
   let old := DaliPipeline.handle_ (members (objects s this)) in
   exists s0 s',
     destroy this s = (Ok tt, s0) /\
     DaliPipeline.handle_ (members (objects s0 this)) =
       (if handle_set old then daliDeletePipeline old else old) /\
     has_stream (objects s0 this) = false /\
     (forall a, a <> this -> objects s0 a = objects s a) /\
     bytes s0 = (if has_stream (objects s this)
                 then flushed (objects s this) (bytes s) else bytes s) /\
     deleted s0 = deleted s ++ (if handle_set old then [old] else []) /\
     move_assign moved_from this dp s = (Ok tt, s') /\
     objects s' this = objects s0 dp /\
     objects s' dp = left_behind moved_from (objects s0 dp) /\
     (forall a, a <> this -> a <> dp -> objects s' a = objects s0 a) /\
     bytes s' = bytes s0 /\
     deleted s' = deleted s0 /\
     objects s' this = objects s dp /\
     objects s' dp = left_behind moved_from (objects s dp) /\
     DaliPipeline.handle_ (members (objects s' dp)) = null_handle /\
     has_stream (objects s' dp) = false /\
     (forall a, a <> this -> a <> dp -> objects s' a = objects s a)).
Proof.
  split.
  { unfold move_assign. rewrite bool_decide_eq_false_2 by (intros Hne; apply Hne; reflexivity).
    reflexivity. }
  intros Hne. cbv zeta.
  assert (Hdp : dp <> this) by (intros ->; apply Hne; reflexivity).
  destruct (destroy_spec this s)
    as (s1 & s0 & Hrel & Hstr & Hdestroy & Hhandle & Hnostream & Hothers & Hbytes & Hdel).
  assert (Hmove : move_assign moved_from this dp s =
            (Ok tt,
             set_object dp (left_behind moved_from (objects s0 dp))
               (set_object this (taken_over (objects s0 dp)) s0))).
  { unfold move_assign. rewrite bool_decide_eq_true_2 by exact Hne.
    rewrite (bind_Ok _ _ _ _ _ Hrel), (bind_Ok _ _ _ _ _ Hstr). reflexivity. }
  exists s0. eexists.
  split; [exact Hdestroy |].
  split; [exact Hhandle |]. split; [exact Hnostream |].
  split; [exact Hothers |]. split; [exact Hbytes |].
  split; [exact Hdel |].
  split; [exact Hmove |].
  assert (Hthis : objects
            (set_object dp (left_behind moved_from (objects s0 dp))
               (set_object this (taken_over (objects s0 dp)) s0)) this = objects s0 dp).
  { rewrite objects_other by exact Hne. rewrite objects_same. apply taken_over_same. }
  split; [exact Hthis |].
  split; [rewrite objects_same; reflexivity |].
  split; [intros a Ha Hb; rewrite !objects_other by assumption; reflexivity |].
  split; [reflexivity |].
  split; [reflexivity |].
  split; [rewrite Hthis; apply Hothers; exact Hdp |].
  split; [rewrite objects_same, (Hothers dp Hdp); reflexivity |].
  split; [rewrite objects_same; reflexivity |].
  split; [rewrite objects_same; reflexivity |].
  intros a Ha Hb. rewrite !objects_other by assumption. apply Hothers. exact Ha.
Qed.

(** Constructing an object by move and destroying the source moves the
    pipeline without releasing anything: the new object has every member
    of the source as it was, handle and stream with its pending writes
    included; the destructor of the source, which was left without a
    pipeline and without a stream, changes nothing; the memory and all
    other objects are as they were, and [daliDeletePipeline] was not
    called. *)
Theorem moving_an_object_releases_nothing moved_from this dp s :
  this <> dp -> handle_set null_handle = false ->
  exists s1 s2,
    move_construct moved_from this dp s = (Ok tt, s1) /\
    destroy dp s1 = (Ok tt, s2) /\
    objects s1 this = objects s dp /\
    (forall a, objects s2 a = objects s1 a) /\
    bytes s1 = bytes s /\ bytes s2 = bytes s /\
    DaliPipeline.handle_ (members (objects s2 dp)) = null_handle /\
    has_stream (objects s2 dp) = false /\
    (forall a, a <> this -> a <> dp -> objects s2 a = objects s a) /\
    deleted s1 = deleted s /\ deleted s2 = deleted s.
Proof.
  intros Hne Hnull.
  assert (Hdp : dp <> this) by (intros ->; apply Hne; reflexivity).
  unfold move_construct. unfold bind at 1, modify.
  unfold move_assign. rewrite bool_decide_eq_true_2 by exact Hne.
  unfold bind at 1. rewrite release_pipeline_at, objects_same.
  cbn [members has_stream blank DaliPipeline.handle_]. cbv zeta. rewrite Hnull.
  unfold bind at 1. rewrite release_stream_at, objects_same.
  cbn [has_stream]. unfold modify.
  eexists. eexists. split; [reflexivity |].
  unfold destroy, bind at 1.
  rewrite release_pipeline_at, !objects_same.
  cbn [members has_stream left_behind DaliPipeline.handle_]. cbv zeta. rewrite Hnull.
  rewrite release_stream_at, !objects_same. cbn [has_stream].
  split; [reflexivity |].
  split.
  { rewrite objects_other by exact Hne. rewrite objects_same.
    rewrite !objects_other by exact Hdp. apply taken_over_same. }
  split.
  { intros a. destruct (decide (a = dp)) as [-> | Ha].
    - rewrite !objects_same. reflexivity.
    - rewrite (objects_other dp _ _ a) by exact Ha. reflexivity. }
  split; [reflexivity |].
  split; [reflexivity |].
  split; [reflexivity |].
  split; [reflexivity |].
  split; [| split; reflexivity].
  intros a Ha Hb. rewrite !objects_other by assumption. reflexivity.
Qed.

End WithApi.

(** *** The statements on two objects over the reference library *)

Lemma move_assignment_hands_the_pipeline_over_witness :
  exists s0 s',
    destroy 2 sample_store = (Ok tt, s0) /\
    Sample.live (DaliPipeline.handle_ (members (objects s0 2))) = false /\
    move_assign (fun _ => EmptyString) 2 1 sample_store = (Ok tt, s') /\
    deleted s' = [DaliPipeline.handle_ (members (objects sample_store 2))] /\
    objects s' 2 = objects sample_store 1 /\
    Sample.live (DaliPipeline.handle_ (members (objects s' 2))) = true /\
    Sample.live (DaliPipeline.handle_ (members (objects s' 1))) = false /\
    has_stream (objects s' 1) = false /\
    bytes s' (Caller 8) 4 = Byte.x03 /\
    bytes s' (Caller 7) 0 = Sample.memory (Caller 7) 0.
Proof.
  destruct (move_assignment_hands_the_pipeline_over
              (fun _ => EmptyString) 2 1 sample_store) as [_ Hmove].
  destruct (Hmove ltac:(discriminate))
    as (s0 & s' & Hdestroy & Hfreed & _ & _ & Hbytes0 & Hdel0 & Hrun & _ & _ & _ &
        Hbytes & Hdel & Hthis & _ & Hhandle & Hstream & _).
  exists s0, s'. split; [exact Hdestroy |].
  split; [rewrite Hfreed; reflexivity |].
  split; [exact Hrun |].
  split; [rewrite Hdel, Hdel0; reflexivity |].
  split; [exact Hthis |].
  split; [rewrite Hthis; reflexivity |].
  split; [rewrite Hhandle; reflexivity |].
  split; [exact Hstream |].
  rewrite Hbytes, Hbytes0. split; reflexivity.
Defined.

Lemma moving_an_object_releases_nothing_witness :
  exists s1 s2,
    move_construct (fun _ => EmptyString) 3 1 sample_store = (Ok tt, s1) /\
    destroy 1 s1 = (Ok tt, s2) /\
    objects s2 3 = objects sample_store 1 /\
    Sample.live (DaliPipeline.handle_ (members (objects s2 3))) = true /\
    bytes s2 = Sample.memory /\
    objects s2 2 = objects sample_store 2 /\
    deleted s2 = [].
Proof.
  destruct (moving_an_object_releases_nothing
              (fun _ => EmptyString) 3 1 sample_store
              ltac:(discriminate) eq_refl)
    as (s1 & s2 & Hmove & Hdestroy & Hthis & Hsame & _ & Hbytes & _ & _ & Hother &
        _ & Hdel).
  exists s1, s2. split; [exact Hmove |]. split; [exact Hdestroy |].
  split; [rewrite Hsame; exact Hthis |].
  split; [rewrite Hsame, Hthis; reflexivity |].
  split; [exact Hbytes |].
  split; [apply Hother; discriminate | exact Hdel].
Defined.

End DaliPipelineLifetimeFacts.
